(** * reqcap: the response path-filter engine, assertions and snapshot diffing

    A shallow embedding of [src/reqcap/filters.py] and of the snapshot differ,
    the snapshot writer and [set_at_path] of [src/reqcap/core.py], with the
    properties of the specification stated and settled against it, followed
    by further properties of the same code.

    Modelling conventions.
    - Python [str] values are [string]s whose characters are ASCII code points
      (below 128); on that domain [str.strip], [str.lower], [str.split],
      [str.find], [int], [str], [repr] and [json.dumps] are written out below.
      The arrow of the diff messages is the only non-ASCII text; it appears as
      its UTF-8 bytes inside message literals.
    - JSON numbers are integers ([Z]); floating point numbers are outside the
      model.
    - [filters.py] builds its result by mutating dicts and lists in place and
      stores references to sub-objects of its input in the result. Objects
      therefore live in a store ([heap]), values are scalars or references, and
      the functions of [filters.py] are written in a state-and-exception monad
      over that store.
    - [core.py]'s differ only reads two decoded documents and compares them with
      [==]; it is modelled over immutable JSON trees. *)

From Stdlib Require Import ZArith Ascii String List Bool Lia DecimalString.
From stdpp Require Import base list strings sets.

Set Warnings "-register-all".

Local Open Scope string_scope.
Local Open Scope list_scope.
Local Open Scope Z_scope.

(** ** Python string built-ins *)

Module PyStr.

Definition ascii_eqb (a b : ascii) : bool := Ascii.eqb a b.

(** [str.isspace] on ASCII: TAB, LF, VT, FF, CR, FS, GS, RS, US and space. *)
Definition is_space (c : ascii) : bool :=
  let n := nat_of_ascii c in
  ((9 <=? n)%nat && (n <=? 13)%nat) || ((28 <=? n)%nat && (n <=? 32)%nat).

Definition is_digit (c : ascii) : bool :=
  let n := nat_of_ascii c in (48 <=? n)%nat && (n <=? 57)%nat.

Definition lower_char (c : ascii) : ascii :=
  let n := nat_of_ascii c in
  if (65 <=? n)%nat && (n <=? 90)%nat then ascii_of_nat (n + 32) else c.

(** [s.lower()] *)
Fixpoint lower (s : string) : string :=
  match s with
  | EmptyString => EmptyString
  | String c s' => String (lower_char c) (lower s')
  end.

Fixpoint lstrip (s : string) : string :=
  match s with
  | EmptyString => EmptyString
  | String c s' => if is_space c then lstrip s' else s
  end.

Fixpoint rstrip (s : string) : string :=
  match s with
  | EmptyString => EmptyString
  | String c s' =>
      match rstrip s' with
      | EmptyString => if is_space c then EmptyString else String c EmptyString
      | r => String c r
      end
  end.

(** [s.strip()] *)
Definition strip (s : string) : string := rstrip (lstrip s).

(** [s.split(sep)] for a one-character separator; never the empty list. *)
Fixpoint split (sep : ascii) (s : string) : list string :=
  match s with
  | EmptyString => [EmptyString]
  | String c s' =>
      if ascii_eqb c sep then EmptyString :: split sep s'
      else match split sep s' with
           | p :: ps => String c p :: ps
           | [] => [String c EmptyString]
           end
  end.

(** [s.startswith(p)] *)
Fixpoint startswith (p s : string) : bool :=
  match p, s with
  | EmptyString, _ => true
  | String a p', String b s' => ascii_eqb a b && startswith p' s'
  | String _ _, EmptyString => false
  end.

(** [s[n:]] and [s[:n]] for [0 <= n]. *)
Fixpoint drop_str (n : nat) (s : string) : string :=
  match n, s with
  | O, _ => s
  | S n', String _ s' => drop_str n' s'
  | S _, EmptyString => EmptyString
  end.

Fixpoint take_str (n : nat) (s : string) : string :=
  match n, s with
  | O, _ => EmptyString
  | S n', String c s' => String c (take_str n' s')
  | S _, EmptyString => EmptyString
  end.

(** [s.find(sub)]: the lowest index at which [sub] occurs, [None] for -1. *)
Fixpoint find_from (i : nat) (sub s : string) : option nat :=
  if startswith sub s then Some i
  else match s with
       | EmptyString => None
       | String _ s' => find_from (S i) sub s'
       end.

Definition find (s sub : string) : option nat := find_from 0 sub s.

Fixpoint all_digits (s : string) : bool :=
  match s with
  | EmptyString => true
  | String c s' => is_digit c && all_digits s'
  end.

Definition nonempty (s : string) : bool :=
  match s with EmptyString => false | _ => true end.

(** The part of [s] before the first [c], and what follows that [c]. *)
Fixpoint cut_at (c : ascii) (s : string) : string * option string :=
  match s with
  | EmptyString => (EmptyString, None)
  | String a s' =>
      if ascii_eqb a c then (EmptyString, Some s')
      else let '(pre, post) := cut_at c s' in (String a pre, post)
  end.

Fixpoint digits_value (acc : Z) (s : string) : Z :=
  match s with
  | EmptyString => acc
  | String c s' => digits_value (10 * acc + (Z.of_nat (nat_of_ascii c) - 48)) s'
  end.

(** [str(n)] for an integer: decimal, with a leading minus sign. *)
Definition str_of_int (z : Z) : string := NilZero.string_of_int (Z.to_int z).

(** Code-point order on strings, as used by [sorted]. *)
Fixpoint str_ltb (a b : string) : bool :=
  match a, b with
  | EmptyString, EmptyString => false
  | EmptyString, String _ _ => true
  | String _ _, EmptyString => false
  | String x a', String y b' =>
      if (nat_of_ascii x <? nat_of_ascii y)%nat then true
      else if (nat_of_ascii y <? nat_of_ascii x)%nat then false
      else str_ltb a' b'
  end.

End PyStr.

(** ** Results of computations that may raise *)

Inductive exn : Type :=
| IndexError
| ValueError (msg : string).

Inductive res (A : Type) : Type :=
| Ok (a : A)
| Raise (e : exn).
Arguments Ok {A} a.
Arguments Raise {A} e.

Definition res_bind {A B : Type} (r : res A) (f : A -> res B) : res B :=
  match r with
  | Ok a => f a
  | Raise e => Raise e
  end.

(** ** Path segments and the path parser *)

(** Segment types returned by [_parse_path_segments]: [str] is a dict key,
    [int] a list index, [None] iterates a list, a pair is a Python slice. *)
Inductive segment : Type :=
| Key (name : string)
| Index (i : Z)
| Iterate
| Slice (start stop : option Z).

Module Parser.
Import PyStr.

(** [_INT_RE]: an optional minus sign and one or more digits. Its argument
    is always a stripped string, so the end anchor is the end of the
    string. *)
Definition _INT_RE (s : string) : bool :=
  match s with
  | String "-" ds => nonempty ds && all_digits ds
  | _ => nonempty s && all_digits s
  end.

(** One bound of [_SLICE_RE]: an optional minus sign and any number of
    digits. *)
Definition slice_bound_re (s : string) : bool :=
  match s with
  | String "-" ds => all_digits ds
  | _ => all_digits s
  end.

(** [_SLICE_RE]: two bounds separated by a colon; the two groups of a
    match. *)
Definition _SLICE_RE (s : string) : option (string * string) :=
  match cut_at ":" s with
  | (g1, Some g2) =>
      if slice_bound_re g1 && slice_bound_re g2 then Some (g1, g2) else None
  | (_, None) => None
  end.

Definition invalid_literal (s : string) : exn :=
  ValueError ("invalid literal for int() with base 10: '" ++ s ++ "'").

(** [int(s)] on the strings the parser hands it: an optional minus sign
    and at least one digit; anything else is a [ValueError]. *)
Definition py_int (s : string) : res Z :=
  match s with
  | String "-" ds =>
      if nonempty ds && all_digits ds then Ok (- digits_value 0 ds)
      else Raise (invalid_literal s)
  | _ =>
      if nonempty s && all_digits s then Ok (digits_value 0 s)
      else Raise (invalid_literal s)
  end.

(** [int(g) if g else None] *)
Definition int_or_none (g : string) : res (option Z) :=
  match g with
  | EmptyString => Ok None
  | _ => res_bind (py_int g) (fun z => Ok (Some z))
  end.

Definition _classify_bracket (content : string) : res segment :=
  match content with
  | EmptyString => Ok Iterate
  | _ =>
      match _SLICE_RE content with
      | Some (g1, g2) =>
          res_bind (int_or_none g1) (fun start =>
          res_bind (int_or_none g2) (fun stop =>
          Ok (Slice start stop)))
      | None =>
          if _INT_RE content then res_bind (py_int content) (fun i => Ok (Index i))
          else Ok (Key content)
      end
  end.

(** The tail of the part pattern: one or more groups, each an opening
    bracket, any characters other than a closing bracket, and a closing
    bracket, up to the end of the text. Returns the content of each group,
    or [None] when the text is not such a sequence. [inside] tells whether
    an opening bracket is pending, [cur] holds the content read so far. *)
Fixpoint bracket_groups (inside : bool) (cur : string) (s : string)
  : option (list string) :=
  match s with
  | EmptyString => if inside then None else Some []
  | String c s' =>
      if inside then
        if ascii_eqb c "]" then
          match bracket_groups false EmptyString s' with
          | Some gs => Some (cur :: gs)
          | None => None
          end
        else bracket_groups true (cur ++ String c EmptyString) s'
      else
        if ascii_eqb c "[" then bracket_groups true EmptyString s'
        else None
  end.

(** The [re.match] of [_parse_path_segments] on a part: group 1 is the
    text before the first opening bracket, group 2 the bracket groups that
    follow up to the end; returned are group 1 and the contents that the
    [re.findall] over group 2 yields. *)
Definition match_brackets (part : string) : option (string * list string) :=
  match cut_at "[" part with
  | (key_part, Some rest) =>
      match bracket_groups true EmptyString rest with
      | Some (g :: gs) => Some (key_part, g :: gs)
      | _ => None
      end
  | (_, None) => None
  end.

Fixpoint classify_all (brackets : list string) : res (list segment) :=
  match brackets with
  | [] => Ok []
  | b :: bs =>
      res_bind (_classify_bracket (strip b)) (fun seg =>
      res_bind (classify_all bs) (fun segs => Ok (seg :: segs)))
  end.

(** The segments one dot-separated part contributes. *)
Definition parse_part (part0 : string) : res (list segment) :=
  let part := strip part0 in
  match part with
  | EmptyString => Ok []
  | _ =>
      match match_brackets part with
      | Some (g1, brackets) =>
          let key_part := strip g1 in
          res_bind (classify_all brackets) (fun segs =>
          Ok (match key_part with
              | EmptyString => segs
              | _ => Key key_part :: segs
              end))
      | None =>
          if _INT_RE part then res_bind (py_int part) (fun i => Ok [Index i])
          else Ok [Key part]
      end
  end.

Fixpoint parse_parts (parts : list string) : res (list segment) :=
  match parts with
  | [] => Ok []
  | p :: ps =>
      res_bind (parse_part p) (fun a =>
      res_bind (parse_parts ps) (fun b => Ok (a ++ b)))
  end.

Definition _parse_path_segments (path : string) : res (list segment) :=
  parse_parts (split "." (strip path)).

End Parser.

(** ** Values, objects and the store *)

(** A Python value is a scalar or a reference to a dict or list in the
    store. *)
Inductive pyval : Type :=
| VNone
| VBool (b : bool)
| VInt (z : Z)
| VStr (s : string)
| VRef (a : nat).

(** A dict keeps its items in insertion order, with unique keys. *)
Inductive pyobj : Type :=
| ODict (kvs : list (string * pyval))
| OList (xs : list pyval).

(** The store: object number [a] is [h !! a]; new objects go at the end. *)
Notation heap := (list pyobj).

(** Python [int] values used as list positions. *)
Module PyList.

(** The position [xs[i]] denotes: counted from the end when [i] is
    negative, [None] when out of range ([IndexError]). *)
Definition norm_index {A : Type} (xs : list A) (i : Z) : option nat :=
  let n := Z.of_nat (length xs) in
  if (0 <=? i) && (i <? n) then Some (Z.to_nat i)
  else if (i <? 0) && (- n <=? i) then Some (Z.to_nat (n + i))
  else None.

(** [xs[i]] *)
Definition getitem {A : Type} (xs : list A) (i : Z) : option A :=
  match norm_index xs i with
  | Some k => xs !! k
  | None => None
  end.

(** [xs[i] = v] *)
Definition setitem {A : Type} (xs : list A) (i : Z) (v : A) : option (list A) :=
  match norm_index xs i with
  | Some k => Some (<[k := v]> xs)
  | None => None
  end.

(** [list(enumerate(xs))], counting from [i]. *)
Fixpoint enumerate_from {A : Type} (i : Z) (xs : list A) : list (Z * A) :=
  match xs with
  | [] => []
  | x :: xs' => (i, x) :: enumerate_from (i + 1) xs'
  end.

(** One bound of [slice(start, stop).indices(n)] with the default step:
    negative bounds count from the end, then the bound is clamped to
    [0..n]. *)
Definition clamp_bound (n : Z) (dflt : Z) (b : option Z) : Z :=
  match b with
  | None => dflt
  | Some i =>
      if i <? 0 then Z.max (i + n) 0
      else Z.min i n
  end.

Definition slice_indices (n : Z) (start stop : option Z) : Z * Z :=
  (clamp_bound n 0 start, clamp_bound n n stop).

(** [range(lo, hi)] as a list. *)
Definition range (lo hi : Z) : list Z :=
  map (fun k => lo + Z.of_nat k) (seq 0 (Z.to_nat (hi - lo))).

(** [xs[start:stop]] *)
Definition getslice {A : Type} (xs : list A) (start stop : option Z) : list A :=
  let '(lo, hi) := slice_indices (Z.of_nat (length xs)) start stop in
  take (Z.to_nat (hi - lo)) (drop (Z.to_nat lo) xs).

(** [zip(a, b, strict=False)] *)
Fixpoint zip {A B : Type} (a : list A) (b : list B) : list (A * B) :=
  match a, b with
  | x :: a', y :: b' => (x, y) :: zip a' b'
  | _, _ => []
  end.

End PyList.

Module PyDict.
Import PyStr.

(** [d[key]] and [key in d] *)
Fixpoint lookup (kvs : list (string * pyval)) (key : string) : option pyval :=
  match kvs with
  | [] => None
  | (k, v) :: rest => if String.eqb k key then Some v else lookup rest key
  end.

(** [d[key] = v]: an existing key keeps its place, a new one goes last. *)
Fixpoint setitem (kvs : list (string * pyval)) (key : string) (v : pyval)
  : list (string * pyval) :=
  match kvs with
  | [] => [(key, v)]
  | (k, w) :: rest =>
      if String.eqb k key then (k, v) :: rest
      else (k, w) :: setitem rest key v
  end.

(** The first item, in insertion order, whose lowered key is [lower]. *)
Fixpoint scan_lower (kvs : list (string * pyval)) (lowered : string)
  : option (string * pyval) :=
  match kvs with
  | [] => None
  | (k, v) :: rest =>
      if String.eqb (PyStr.lower k) lowered then Some (k, v)
      else scan_lower rest lowered
  end.

End PyDict.

(** Case-insensitive dict lookup. Returns [(actual_key, value)], [None]
    standing for the pair [(None, None)]. *)
Definition _ci_get (d : list (string * pyval)) (key : string)
  : option (string * pyval) :=
  match PyDict.lookup d key with
  | Some v => Some (key, v)
  | None => PyDict.scan_lower d (PyStr.lower key)
  end.

(** [isinstance(v, dict)] and [isinstance(v, list)], with the object. *)
Definition as_dict (h : heap) (v : pyval) : option (nat * list (string * pyval)) :=
  match v with
  | VRef a => match h !! a with
              | Some (ODict kvs) => Some (a, kvs)
              | _ => None
              end
  | _ => None
  end.

Definition as_list (h : heap) (v : pyval) : option (nat * list pyval) :=
  match v with
  | VRef a => match h !! a with
              | Some (OList xs) => Some (a, xs)
              | _ => None
              end
  | _ => None
  end.

(** ** Value extraction *)

(** Walk simple segments (keys and indices) to extract a value; the pair is
    [(found, value)]. Reads the store, never writes it. *)
Fixpoint _get_value (h : heap) (current : pyval) (segments : list segment)
  : bool * pyval :=
  match segments with
  | [] => (true, current)
  | seg :: rest =>
      match current with
      | VNone => (false, VNone)
      | _ =>
          match seg with
          | Key k =>
              match as_dict h current with
              | Some (_, d) =>
                  match _ci_get d k with
                  | Some (_, val) => _get_value h val rest
                  | None => (false, VNone)
                  end
              | None => (false, VNone)
              end
          | Index i =>
              match as_list h current with
              | Some (_, xs) =>
                  match PyList.getitem xs i with
                  | Some val => _get_value h val rest
                  | None => (false, VNone)
                  end
              | None => (false, VNone)
              end
          | _ => (false, VNone)
          end
      end
  end.

(** Given a list and a segment, the [(index, element)] pairs to process. *)
Definition _resolve_list_segment (arr : list pyval) (seg : segment)
  : list (Z * pyval) :=
  match seg with
  | Iterate => PyList.enumerate_from 0 arr
  | Index i =>
      match PyList.getitem arr i with
      | Some val =>
          let idx := if 0 <=? i then i else Z.of_nat (length arr) + i in
          [(idx, val)]
      | None => []
      end
  | Slice start stop =>
      let items := PyList.getslice arr start stop in
      let '(lo, hi) := PyList.slice_indices (Z.of_nat (length arr)) start stop in
      PyList.zip (PyList.range lo hi) items
  | Key _ => []
  end.

(** ** The state-and-exception monad of the tree builder *)

Definition M (A : Type) : Type := heap -> res (A * heap).

Definition ret {A : Type} (a : A) : M A := fun h => Ok (a, h).

Definition bind {A B : Type} (m : M A) (f : A -> M B) : M B :=
  fun h => match m h with
           | Ok (a, h') => f a h'
           | Raise e => Raise e
           end.

Definition raise {A : Type} (e : exn) : M A := fun _ => Raise e.

Definition lift {A : Type} (r : res A) : M A :=
  fun h => match r with
           | Ok a => Ok (a, h)
           | Raise e => Raise e
           end.

Definition get_heap : M heap := fun h => Ok (h, h).

Notation "'let*' x ':=' m 'in' k" := (bind m (fun x => k))
  (at level 10, x pattern, m at level 100, k at level 200).
Notation "m ';;' k" := (bind m (fun _ => k))
  (at level 100, k at level 200, right associativity).

(** A new object; its reference is the next free address. *)
Definition alloc (o : pyobj) : M pyval :=
  fun h => Ok (VRef (length h), h ++ [o]).

(** [d[key] = v] on the dict at address [a]. *)
Definition dict_setitem (a : nat) (key : string) (v : pyval) : M unit :=
  fun h => match h !! a with
           | Some (ODict kvs) => Ok (tt, <[a := ODict (PyDict.setitem kvs key v)]> h)
           | _ => Ok (tt, h)
           end.

(** [l.append(v)] on the list at address [a]. *)
Definition list_append (a : nat) (v : pyval) : M unit :=
  fun h => match h !! a with
           | Some (OList xs) => Ok (tt, <[a := OList (xs ++ [v])]> h)
           | _ => Ok (tt, h)
           end.

(** [l[i]] on the list at address [a]. *)
Definition list_getitem (a : nat) (i : Z) : M pyval :=
  fun h => match h !! a with
           | Some (OList xs) =>
               match PyList.getitem xs i with
               | Some v => Ok (v, h)
               | None => Raise IndexError
               end
           | _ => Raise IndexError
           end.

(** [l[i] = v] on the list at address [a]. *)
Definition list_setitem (a : nat) (i : Z) (v : pyval) : M unit :=
  fun h => match h !! a with
           | Some (OList xs) =>
               match PyList.setitem xs i v with
               | Some xs' => Ok (tt, <[a := OList xs']> h)
               | None => Raise IndexError
               end
           | _ => Raise IndexError
           end.

(** [len(l)] of the list at address [a], read from the current store. *)
Definition list_len (a : nat) : M Z :=
  fun h => match h !! a with
           | Some (OList xs) => Ok (Z.of_nat (length xs), h)
           | _ => Ok (0, h)
           end.

(** [for x in l: f(x)] *)
Fixpoint for_each {A : Type} (f : A -> M unit) (l : list A) : M unit :=
  match l with
  | [] => ret tt
  | x :: l' => f x ;; for_each f l'
  end.

(** [n] rounds of [l.append({})], each round with a new empty dict. *)
Fixpoint append_new_dicts (n : nat) (a : nat) : M unit :=
  match n with
  | O => ret tt
  | S n' => let* e := alloc (ODict []) in list_append a e ;; append_new_dicts n' a
  end.

(** [n] rounds of [l.append(None)]. *)
Fixpoint append_nones (n : nat) (a : nat) : M unit :=
  match n with
  | O => ret tt
  | S n' => list_append a VNone ;; append_nones n' a
  end.

(** ** Building the result tree *)

Definition is_str (seg : segment) : bool :=
  match seg with Key _ => true | _ => false end.

(** [while len(target) <= seg: target.append({})]: the loop runs
    [seg + 1 - len(target)] times when that is positive, else not at all. *)
Definition pad_to_index (a : nat) (len : nat) (seg : Z) : M unit :=
  append_new_dicts (Z.to_nat (seg + 1 - Z.of_nat len)) a.

(** One round of the loop of [_ensure_container]. *)
Definition ensure_step (target : pyval) (seg next_seg : segment) : M pyval :=
  let next_wants_list := negb (is_str next_seg) in
  let* h := get_heap in
  match seg with
  | Key k =>
      match as_dict h target with
      | Some (a, d) =>
          match _ci_get d k with
          | Some (_, child) => ret child
          | None =>
              let* child := alloc (if next_wants_list then OList [] else ODict []) in
              dict_setitem a k child ;;
              ret child
          end
      | None => ret target
      end
  | Index i =>
      match as_list h target with
      | Some (a, xs) => pad_to_index a (length xs) i ;; list_getitem a i
      | None => ret target
      end
  | _ => ret target
  end.

(** Walk segments in the result tree, creating dicts and lists as needed:
    the loop over [segments[:-1]], each round looking at the next segment. *)
Fixpoint _ensure_container (target : pyval) (segments : list segment) : M pyval :=
  match segments with
  | seg :: ((next_seg :: _) as rest) =>
      let* target' := ensure_step target seg next_seg in
      _ensure_container target' rest
  | _ => ret target
  end.

(** The write at the last segment of [_set_in_result]. *)
Definition set_last (target : pyval) (last : segment) (value : pyval) : M unit :=
  let* h := get_heap in
  match last with
  | Key k =>
      match as_dict h target with
      | Some (a, _) => dict_setitem a k value
      | None => ret tt
      end
  | Index i =>
      match as_list h target with
      | Some (a, xs) =>
          append_nones (Z.to_nat (i + 1 - Z.of_nat (length xs))) a ;;
          list_setitem a i value
      | None => ret tt
      end
  | _ => ret tt
  end.

(** Set a value at the given segment path in the result tree. *)
Definition _set_in_result (result : pyval) (segments : list segment)
  (value : pyval) : M unit :=
  match segments with
  | [] => ret tt
  | seg0 :: _ =>
      let* target := _ensure_container result segments in
      set_last target (List.last segments seg0) value
  end.

(** ** Applying a single filter spec *)

(** A collection segment of [_apply_spec]: iteration, a slice, or a negative
    index. *)
Definition is_collection (seg : segment) : bool :=
  match seg with
  | Iterate => true
  | Slice _ _ => true
  | Index i => i <? 0
  | Key _ => false
  end.

(** The position of the first segment satisfying [p]. *)
Fixpoint first_index (p : segment -> bool) (segments : list segment) : option nat :=
  match segments with
  | [] => None
  | seg :: rest =>
      if p seg then Some O
      else match first_index p rest with
           | Some i => Some (S i)
           | None => None
           end
  end.

(** One round of the loop of [_apply_spec] that navigates to, or creates,
    the list container in the result. *)
Definition navigate_step (container : pyval) (seg : segment) (is_last : bool)
  : M pyval :=
  let* h := get_heap in
  match seg with
  | Key k =>
      match as_dict h container with
      | Some (a, d) =>
          match _ci_get d k with
          | Some (_, child) => ret child
          | None =>
              let* child := alloc (if is_last then OList [] else ODict []) in
              dict_setitem a k child ;;
              ret child
          end
      | None => ret container
      end
  | Index i =>
      match as_list h container with
      | Some (a, xs) => pad_to_index a (length xs) i ;; list_getitem a i
      | None => ret container
      end
  | _ => ret container
  end.

Fixpoint navigate_prefix (container : pyval) (prefix : list segment) : M pyval :=
  match prefix with
  | [] => ret container
  | seg :: rest =>
      let* child := navigate_step container seg (match rest with [] => true | _ => false end) in
      navigate_prefix child rest
  end.

(** The body of the loop over the pairs when the collection segment is the
    iteration: indices stay aligned with the source array. *)
Definition iterate_body (c : nat) (suffix : list segment) (pair : Z * pyval)
  : M unit :=
  let '(j, item) := pair in
  match suffix with
  | _ :: _ =>
      let* h := get_heap in
      let '(found, value) := _get_value h item suffix in
      if found then
        let* cj := list_getitem c j in
        let* h' := get_heap in
        (match as_dict h' cj with
         | Some _ => ret tt
         | None => let* e := alloc (ODict []) in list_setitem c j e
         end) ;;
        let* cj' := list_getitem c j in
        _set_in_result cj' suffix value
      else ret tt
  | [] => list_setitem c j item
  end.

(** The body of the loop over the pairs for a slice or a negative index:
    a compact result list. *)
Definition slice_body (c : nat) (suffix : list segment) (pair : Z * pyval)
  : M unit :=
  let '(_, item) := pair in
  match suffix with
  | _ :: _ =>
      let* h := get_heap in
      let '(found, value) := _get_value h item suffix in
      if found then
        let* entry := alloc (ODict []) in
        _set_in_result entry suffix value ;;
        list_append c entry
      else ret tt
  | [] => list_append c item
  end.

(** Apply one field-path spec to [data], merging into [result]. *)
Definition _apply_spec (data : pyval) (spec : string) (result : pyval) : M unit :=
  let* segments := lift (Parser._parse_path_segments spec) in
  match segments with
  | [] => ret tt
  | _ :: _ =>
      match first_index is_collection segments with
      | None =>
          (* Simple scalar path: no iteration, no slicing *)
          let* h := get_heap in
          let '(found, value) := _get_value h data segments in
          if found then _set_in_result result segments value else ret tt
      | Some coll_idx =>
          let prefix := take coll_idx segments in
          let coll_seg := nth coll_idx segments Iterate in
          let suffix := drop (S coll_idx) segments in
          let* h := get_heap in
          let '(found, arr) := _get_value h data prefix in
          if negb found then ret tt else
          match as_list h arr with
          | Some (arr_addr, arr_items) =>
              let pairs := _resolve_list_segment arr_items coll_seg in
              match pairs with
              | [] => ret tt
              | _ :: _ =>
                  let* container := navigate_prefix result prefix in
                  let* h1 := get_heap in
                  match as_list h1 container with
                  | None => ret tt
                  | Some (c, c_items) =>
                      match coll_seg with
                      | Iterate =>
                          (* while len(container) < len(arr): container.append({}) *)
                          let* n_arr := list_len arr_addr in
                          let* n_c := list_len c in
                          append_new_dicts (Z.to_nat (n_arr - n_c)) c ;;
                          for_each (iterate_body c suffix) pairs
                      | _ => for_each (slice_body c suffix) pairs
                      end
                  end
              end
          | None => ret tt
          end
      end
  end.

(** ** Public API *)

(** [[s.strip() for s in field_specs if s.strip()]] *)
Fixpoint clean_specs (field_specs : list string) : list string :=
  match field_specs with
  | [] => []
  | s :: rest =>
      if PyStr.nonempty (PyStr.strip s) then PyStr.strip s :: clean_specs rest
      else clean_specs rest
  end.

(** Filter response data to include only specified fields. *)
Definition filter_response (data : pyval) (field_specs : list string) : M pyval :=
  match field_specs with
  | [] => ret data
  | _ :: _ =>
      let cleaned := clean_specs field_specs in
      match cleaned with
      | [] => ret data
      | _ :: _ =>
          if existsb (String.eqb "*") cleaned then ret data else
          let* h := get_heap in
          match as_dict h data with
          | None => ret data
          | Some _ =>
              let* result := alloc (ODict []) in
              for_each (fun spec => _apply_spec data spec result) cleaned ;;
              ret result
          end
      end
  end.

(** ** Decoded JSON documents *)

(** A decoded JSON document as a tree. Object keys are unique and kept in
    decoding order. *)
Inductive json : Type :=
| JNull
| JBool (b : bool)
| JNum (z : Z)
| JStr (s : string)
| JArr (xs : list json)
| JObj (kvs : list (string * json)).

(** Decoding a document into the store: every array and object becomes an
    object of its own, children first. *)
Fixpoint load (j : json) : M pyval :=
  match j with
  | JNull => ret VNone
  | JBool b => ret (VBool b)
  | JNum z => ret (VInt z)
  | JStr s => ret (VStr s)
  | JArr xs =>
      let* vs :=
        (fix load_items (l : list json) : M (list pyval) :=
           match l with
           | [] => ret []
           | x :: l' =>
               let* v := load x in
               let* vs := load_items l' in
               ret (v :: vs)
           end) xs in
      alloc (OList vs)
  | JObj kvs =>
      let* items :=
        (fix load_members (l : list (string * json)) : M (list (string * pyval)) :=
           match l with
           | [] => ret []
           | (k, x) :: l' =>
               let* v := load x in
               let* items := load_members l' in
               ret ((k, v) :: items)
           end) kvs in
      alloc (ODict items)
  end.

(** Reading a value of the store back as a tree. The fuel bounds the
    nesting depth; [None] when it runs out or a reference dangles. *)
Fixpoint reify (fuel : nat) (h : heap) (v : pyval) : option json :=
  match v with
  | VNone => Some JNull
  | VBool b => Some (JBool b)
  | VInt z => Some (JNum z)
  | VStr s => Some (JStr s)
  | VRef a =>
      match fuel with
      | O => None
      | S fuel' =>
          match h !! a with
          | Some (OList xs) =>
              option_map JArr
                ((fix items (l : list pyval) : option (list json) :=
                    match l with
                    | [] => Some []
                    | x :: l' =>
                        match reify fuel' h x, items l' with
                        | Some j, Some js => Some (j :: js)
                        | _, _ => None
                        end
                    end) xs)
          | Some (ODict kvs) =>
              option_map JObj
                ((fix members (l : list (string * pyval)) : option (list (string * json)) :=
                    match l with
                    | [] => Some []
                    | (k, x) :: l' =>
                        match reify fuel' h x, members l' with
                        | Some j, Some js => Some ((k, j) :: js)
                        | _, _ => None
                        end
                    end) kvs)
          | None => None
          end
      end
  end.

(** The outcome of [filter_response(v, specs)] on a freshly decoded document
    [v]: the projection, and the input document as it is after the call;
    both read back from the final store. *)
Definition project_json (v : json) (specs : list string) : res (option json * option json) :=
  match (let* data := load v in
         let* out := filter_response data specs in
         ret (data, out)) [] with
  | Ok ((data, out), h) =>
      Ok (reify (length h) h out, reify (length h) h data)
  | Raise e => Raise e
  end.

(** The projection alone. *)
Definition project (v : json) (specs : list string) : res (option json) :=
  match project_json v specs with
  | Ok (out, _) => Ok out
  | Raise e => Raise e
  end.

(** ** Rendering values: [str], [repr] and [json.dumps] *)

Module Render.
Import PyStr.

Definition dquote : ascii := ascii_of_nat 34.
Definition squote : ascii := ascii_of_nat 39.
Definition backslash : ascii := ascii_of_nat 92.

Definition chr (c : ascii) : string := String c EmptyString.

Fixpoint contains_char (c : ascii) (s : string) : bool :=
  match s with
  | EmptyString => false
  | String a s' => ascii_eqb a c || contains_char c s'
  end.

Definition hex_digit (n : nat) : ascii :=
  if (n <? 10)%nat then ascii_of_nat (48 + n) else ascii_of_nat (87 + n).

(** Two lowercase hexadecimal digits of a code point below 256. *)
Definition hex2 (c : ascii) : string :=
  let n := nat_of_ascii c in
  String (hex_digit (n / 16)) (String (hex_digit (n mod 16)) EmptyString).

(** [sep.join(parts)] *)
Fixpoint join (sep : string) (parts : list string) : string :=
  match parts with
  | [] => EmptyString
  | [p] => p
  | p :: rest => p ++ sep ++ join sep rest
  end.

(** [repr] of a string: single quotes unless the text holds a single quote
    and no double quote; backslash, the quote, TAB, LF and CR escaped, other
    control characters as a two-digit hexadecimal escape. *)
Definition repr_char (quote c : ascii) : string :=
  let n := nat_of_ascii c in
  if ascii_eqb c quote || ascii_eqb c backslash then String backslash (chr c)
  else if (n =? 9)%nat then String backslash "t"
  else if (n =? 10)%nat then String backslash "n"
  else if (n =? 13)%nat then String backslash "r"
  else if (n <? 32)%nat || (n =? 127)%nat then String backslash ("x" ++ hex2 c)
  else chr c.

Fixpoint repr_chars (quote : ascii) (s : string) : string :=
  match s with
  | EmptyString => EmptyString
  | String c s' => repr_char quote c ++ repr_chars quote s'
  end.

Definition repr_str (s : string) : string :=
  let quote :=
    if contains_char squote s && negb (contains_char dquote s) then dquote
    else squote in
  String quote (repr_chars quote s ++ chr quote).

(** [repr(v)] *)
Fixpoint repr (v : json) : string :=
  match v with
  | JNull => "None"
  | JBool true => "True"
  | JBool false => "False"
  | JNum z => str_of_int z
  | JStr s => repr_str s
  | JArr xs => "[" ++ join ", " (map repr xs) ++ "]"
  | JObj kvs =>
      "{" ++ join ", " (map (fun kv => (repr_str (fst kv) ++ ": " ++ repr (snd kv))%string) kvs)
          ++ "}"
  end.

(** [str(v)]: a string is itself, everything else is its [repr]. *)
Definition str (v : json) : string :=
  match v with
  | JStr s => s
  | _ => repr v
  end.

(** The escapes of [json.dumps] with [ensure_ascii]: the double quote, the
    backslash, the short escapes for BS, FF, LF, CR and TAB, and a
    four-digit escape for every other character outside space..tilde. *)
Definition dumps_char (c : ascii) : string :=
  let n := nat_of_ascii c in
  if ascii_eqb c dquote || ascii_eqb c backslash then String backslash (chr c)
  else if (n =? 8)%nat then String backslash "b"
  else if (n =? 12)%nat then String backslash "f"
  else if (n =? 10)%nat then String backslash "n"
  else if (n =? 13)%nat then String backslash "r"
  else if (n =? 9)%nat then String backslash "t"
  else if (n <? 32)%nat || (126 <? n)%nat then String backslash ("u00" ++ hex2 c)
  else chr c.

Fixpoint dumps_chars (s : string) : string :=
  match s with
  | EmptyString => EmptyString
  | String c s' => dumps_char c ++ dumps_chars s'
  end.

Definition dumps_str (s : string) : string :=
  String dquote (dumps_chars s ++ chr dquote).

(** [json.dumps(v)] with the default separators. *)
Fixpoint dumps (v : json) : string :=
  match v with
  | JNull => "null"
  | JBool true => "true"
  | JBool false => "false"
  | JNum z => str_of_int z
  | JStr s => dumps_str s
  | JArr xs => "[" ++ join ", " (map dumps xs) ++ "]"
  | JObj kvs =>
      "{" ++ join ", " (map (fun kv => (dumps_str (fst kv) ++ ": " ++ dumps (snd kv))%string) kvs)
          ++ "}"
  end.

End Render.

(** [str(v)] of a value of the store: the text of the tree it denotes. A
    decoded document is a finite tree, which [reify] reads back in full. *)
Definition py_str (h : heap) (v : pyval) : string :=
  match reify (length h) h v with
  | Some j => Render.str j
  | None => "..."
  end.

(** ** Extraction for exports and assertions *)

Definition is_iter_or_slice (seg : segment) : bool :=
  match seg with
  | Iterate => true
  | Slice _ _ => true
  | _ => false
  end.

(** The loop of [extract_value] that collects the results. *)
Definition collect_body (results : nat) (suffix : list segment) (pair : Z * pyval)
  : M unit :=
  let '(_, item) := pair in
  match suffix with
  | _ :: _ =>
      let* h := get_heap in
      let '(ok, val) := _get_value h item suffix in
      if ok then list_append results val else ret tt
  | [] => list_append results item
  end.

(** [path.strip()], with a leading [body.] (in any case) dropped. *)
Definition strip_body_prefix (path0 : string) : string :=
  let path := PyStr.strip path0 in
  if PyStr.startswith "body." (PyStr.lower path) then PyStr.drop_str 5 path
  else path.

(** Extract a value from [data] at the given path; [VNone] when nothing is
    found. *)
Definition extract_value (data : pyval) (path0 : string) : M pyval :=
  let path := strip_body_prefix path0 in
  let* segments := lift (Parser._parse_path_segments path) in
  match first_index is_iter_or_slice segments with
  | Some coll_idx =>
      let prefix := take coll_idx segments in
      let coll_seg := nth coll_idx segments Iterate in
      let suffix := drop (S coll_idx) segments in
      let* h := get_heap in
      let '(found, arr) := _get_value h data prefix in
      if negb found then ret VNone else
      match as_list h arr with
      | None => ret VNone
      | Some (_, arr_items) =>
          let pairs := _resolve_list_segment arr_items coll_seg in
          let* results := alloc (OList []) in
          match results with
          | VRef r => for_each (collect_body r suffix) pairs ;; ret results
          | _ => ret results
          end
      end
  | None =>
      let* h := get_heap in
      let '(found, value) := _get_value h data segments in
      ret (if found then value else VNone)
  end.

(** ** Assertions *)

(** The result of an HTTP request; [V] is the representation of the decoded
    body. The timing field [elapsed_ms], a float that no function modelled
    here reads, is left out. *)
Record RequestResult (V : Type) : Type := mkRequestResult {
  status_code : Z;
  headers : list (string * string);
  body : V;
  error : option string;
  raw_text : string
}.
Arguments mkRequestResult {V}.
Arguments status_code {V}.
Arguments headers {V}.
Arguments body {V}.
Arguments error {V}.
Arguments raw_text {V}.

Definition invalid_assert (expr : string) : exn :=
  ValueError ("Invalid assert expression (no = or !=): " ++ expr).

(** Parse an assertion expression such as [status=200] or
    [body.field!=value] into [(path, operator, expected)]. *)
Definition parse_assert (expr : string) : res (string * string * string) :=
  match PyStr.find expr "!=" with
  | Some idx =>
      Ok (PyStr.strip (PyStr.take_str idx expr), "!=",
          PyStr.strip (PyStr.drop_str (idx + 2) expr))
  | None =>
      match PyStr.find expr "=" with
      | Some idx =>
          Ok (PyStr.strip (PyStr.take_str idx expr), "=",
              PyStr.strip (PyStr.drop_str (idx + 1) expr))
      | None => Raise (invalid_assert expr)
      end
  end.

(** The value an assertion path denotes in a response. *)
Definition resolve_actual (path : string) (result : RequestResult pyval) : M pyval :=
  if String.eqb path "status" then ret (VInt (status_code result))
  else if PyStr.startswith "body." path then extract_value (body result) path
  else if String.eqb path "body" then ret (body result)
  else extract_value (body result) path.

(** Evaluate an assertion against a request result: [(passed, message)]. *)
Definition evaluate_assert (expr : string) (result : RequestResult pyval)
  : M (bool * string) :=
  let* parsed := lift (parse_assert expr) in
  let '(path, op, expected) := parsed in
  let* actual := resolve_actual path result in
  let* h := get_heap in
  let actual_str :=
    match actual with
    | VNone => ""
    | _ => py_str h actual
    end in
  let passed :=
    if String.eqb op "=" then String.eqb actual_str expected
    else negb (String.eqb actual_str expected) in
  if passed then ret (true, ("ASSERT PASSED: " ++ expr)%string)
  else ret (false, ("ASSERT FAILED: " ++ expr ++ " (actual: " ++ actual_str ++ ")")%string).

(** ** Snapshots ([core.py]) *)

Module Core.
Import PyStr.

(** [d[key]], [key in d] and [d.get(key)] on a decoded object. *)
Fixpoint lookup (kvs : list (string * json)) (key : string) : option json :=
  match kvs with
  | [] => None
  | (k, v) :: rest => if String.eqb k key then Some v else lookup rest key
  end.

Definition get (d : list (string * json)) (key : string) : json :=
  match lookup d key with
  | Some v => v
  | None => JNull
  end.

Definition int_of_bool (b : bool) : Z := if b then 1 else 0.

(** Python's [==] on decoded documents: [True] and [False] are the integers
    1 and 0, lists compare element by element, dicts compare as maps (same
    length, and every item of the left one is in the right one). *)
Fixpoint py_eq (a b : json) {struct a} : bool :=
  match a, b with
  | JNull, JNull => true
  | JBool x, JBool y => Bool.eqb x y
  | JBool x, JNum n => int_of_bool x =? n
  | JNum n, JBool y => n =? int_of_bool y
  | JNum x, JNum y => x =? y
  | JStr x, JStr y => String.eqb x y
  | JArr xs, JArr ys =>
      (fix eq_items (l1 l2 : list json) : bool :=
         match l1, l2 with
         | [], [] => true
         | x :: l1', y :: l2' => py_eq x y && eq_items l1' l2'
         | _, _ => false
         end) xs ys
  | JObj kvs, JObj kvs' =>
      (length kvs =? length kvs')%nat &&
      (fix all_in (l : list (string * json)) : bool :=
         match l with
         | [] => true
         | (k, v) :: l' =>
             match lookup kvs' k with
             | Some w => py_eq v w
             | None => false
             end && all_in l'
         end) kvs
  | _, _ => false
  end.

(** [sorted(set(keys))]: insertion into a sorted list without repeats. *)
Fixpoint insert_key (k : string) (l : list string) : list string :=
  match l with
  | [] => [k]
  | x :: l' =>
      if String.eqb k x then l
      else if str_ltb k x then k :: l
      else x :: insert_key k l'
  end.

Fixpoint sorted_set (keys : list string) : list string :=
  match keys with
  | [] => []
  | k :: rest => insert_key k (sorted_set rest)
  end.

Definition is_container (v : json) : bool :=
  match v with
  | JArr _ | JObj _ => true
  | _ => false
  end.

(** Short string representation of a value for diff output. *)
Definition _summarize (value : json) : string :=
  let s := if is_container value then Render.dumps value else Render.str value in
  if (80 <? String.length s)%nat then (take_str 77 s ++ "...")%string
  else s.

(** Nesting depth of a document; bounds the recursion of [_diff_dicts]. *)
Fixpoint depth (v : json) : nat :=
  match v with
  | JArr xs => S (fold_right (fun x d => Nat.max (depth x) d) O xs)
  | JObj kvs => S (fold_right (fun kv d => Nat.max (depth (snd kv)) d) O kvs)
  | _ => O
  end.

(** The lines one key contributes in [_diff_dicts]; [recurse] is the
    recursive call on two nested dicts. *)
Definition diff_key (recurse : string -> list (string * json) -> list (string * json) -> list string)
  (prefix : string) (old new : list (string * json)) (key : string) : list string :=
  let path := (prefix ++ "." ++ key)%string in
  match lookup old key, lookup new key with
  | None, Some n => [(path ++ ": (absent) → " ++ _summarize n)%string]
  | None, None => []
  | Some o, None => [(path ++ ": " ++ _summarize o ++ " → (absent)")%string]
  | Some (JObj o'), Some (JObj n') => recurse path o' n'
  | Some o, Some n =>
      if py_eq o n then []
      else [(path ++ ": " ++ _summarize o ++ " → " ++ _summarize n)%string]
  end.

(** Recursively diff two dicts; returns the lines appended to [diffs]. The
    first argument bounds the nesting still to be visited. *)
Fixpoint diff_dicts_upto (fuel : nat) (prefix : string)
  (old new : list (string * json)) : list string :=
  match fuel with
  | O => []
  | S fuel' =>
      let all_keys := sorted_set (map fst old ++ map fst new) in
      flat_map (diff_key (diff_dicts_upto fuel') prefix old new) all_keys
  end.

Definition _diff_dicts (prefix : string) (old new : list (string * json))
  : list string :=
  diff_dicts_upto (depth (JObj old)) prefix old new.

(** Compare a saved snapshot against a current response; the empty list
    means identical. *)
Definition diff_snapshot (snapshot : list (string * json))
  (result : RequestResult json) : list string :=
  let snap_status := get snapshot "status_code" in
  let status_diff :=
    if py_eq snap_status (JNum (status_code result)) then []
    else [("status_code: " ++ Render.str snap_status ++ " → "
             ++ str_of_int (status_code result))%string] in
  let snap_body := get snapshot "body" in
  let curr_body := body result in
  let body_diff :=
    match snap_body, curr_body with
    | JObj o, JObj n => _diff_dicts "body" o n
    | _, _ =>
        if py_eq snap_body curr_body then []
        else [("body: " ++ _summarize snap_body ++ " → " ++ _summarize curr_body)%string]
    end in
  status_diff ++ body_diff.


End Core.

(** ** Setting a value at a path ([core.py]) *)

(** [set_at_path] tokenizes a dotted path and walks a nested document along
    the tokens, creating containers where they are missing, to store a value.
    Its only caller hands it a deep copy of a decoded template body, which is
    a tree: the in-place updates are modelled by returning the updated
    document. When the walk raises, the partly updated document is not
    returned. *)
Module SetAtPath.
Import PyStr.

(** Dict keys: strings, and the integers the last step of the walk can
    store into a dict. *)
Inductive key : Type :=
| KStr (s : string)
| KInt (z : Z).

Definition key_eqb (a b : key) : bool :=
  match a, b with
  | KStr x, KStr y => String.eqb x y
  | KInt x, KInt y => x =? y
  | _, _ => false
  end.

Inductive doc : Type :=
| DNone
| DBool (b : bool)
| DInt (z : Z)
| DStr (s : string)
| DList (xs : list doc)
| DDict (kvs : list (key * doc)).

(** A token is a dict key ([str]) or a list position ([int], read from
    digits and so never negative). *)
Inductive token : Type :=
| TKey (name : string)
| TIdx (i : nat).

Inductive error : Type :=
| AttributeError
| KeyError
| TypeError
| IndexError.

Inductive outcome (A : Type) : Type :=
| Done (a : A)
| Fails (e : error).
Arguments Done {A} a.
Arguments Fails {A} e.

Definition LF : ascii := ascii_of_nat 10.

(** The [re.match] of the index pattern on a part: group 1 is the text
    before the first opening bracket, group 2 the digits between that bracket
    and the closing one, which ends the part or is followed by one final line
    feed (the end anchor matches there too). *)
Definition match_index (part : string) : option (string * string) :=
  match cut_at "[" part with
  | (g1, Some rest) =>
      match cut_at "]" rest with
      | (ds, Some tail) =>
          if nonempty ds && all_digits ds
             && (String.eqb tail EmptyString || String.eqb tail (String LF EmptyString))
          then Some (g1, ds)
          else None
      | (_, None) => None
      end
  | (_, None) => None
  end.

(** The tokens of one dot-separated part. *)
Definition tokens_of_part (part : string) : list token :=
  match match_index part with
  | Some (g1, ds) =>
      (match g1 with
       | EmptyString => []
       | _ => [TKey g1]
       end) ++ [TIdx (Z.to_nat (digits_value 0 ds))]
  | None => [TKey part]
  end.

Definition tokenize (path : string) : list token :=
  flat_map tokens_of_part (split "." path).

(** [d[k]] and [k in d] *)
Fixpoint lookup (kvs : list (key * doc)) (k : key) : option doc :=
  match kvs with
  | [] => None
  | (k', v) :: rest => if key_eqb k' k then Some v else lookup rest k
  end.

(** [d[k] = v]: an existing key keeps its place, a new one goes last. *)
Fixpoint setitem (kvs : list (key * doc)) (k : key) (v : doc) : list (key * doc) :=
  match kvs with
  | [] => [(k, v)]
  | (k', w) :: rest =>
      if key_eqb k' k then (k', v) :: rest
      else (k', w) :: setitem rest k v
  end.

(** The container created in front of a token: [[]] before a position,
    [{}] before a key. *)
Definition fresh_for (next_token : token) : doc :=
  match next_token with
  | TIdx _ => DList []
  | TKey _ => DDict []
  end.

(** [while len(xs) <= i: xs.append(filler)] *)
Definition pad (xs : list doc) (i : nat) (filler : doc) : list doc :=
  xs ++ replicate (S i - length xs) filler.

(** The write at the last token. On a dict a position is stored as an
    integer key, provided the dict has more than that many items; on a
    string, or with too few items in a dict, [append] or the item assignment
    fails. *)
Definition set_last (current : doc) (last : token) (value : doc) : outcome doc :=
  match last, current with
  | TIdx i, DList xs => Done (DList (<[i := value]> (pad xs i DNone)))
  | TIdx i, DDict kvs =>
      if (length kvs <=? i)%nat then Fails AttributeError
      else Done (DDict (setitem kvs (KInt (Z.of_nat i)) value))
  | TIdx i, DStr s =>
      if (String.length s <=? i)%nat then Fails AttributeError
      else Fails TypeError
  | TIdx _, _ => Fails TypeError
  | TKey k, DDict kvs => Done (DDict (setitem kvs (KStr k) value))
  | TKey _, _ => Fails TypeError
  end.

(** The walk over the tokens: every token but the last selects, or
    creates, the child to continue in; the last one stores the value. The
    result is [current] after the update. *)
Fixpoint set_tokens (current : doc) (tokens : list token) (value : doc)
  : outcome doc :=
  match tokens with
  | [] => Fails IndexError
  | [last] => set_last current last value
  | token :: ((next_token :: _) as rest) =>
      match token, current with
      | TIdx i, DList xs =>
          let xs' := pad xs i (fresh_for next_token) in
          match set_tokens (nth i xs' DNone) rest value with
          | Done child => Done (DList (<[i := child]> xs'))
          | Fails e => Fails e
          end
      | TIdx i, DDict kvs =>
          if (length kvs <=? i)%nat then Fails AttributeError
          else
            match lookup kvs (KInt (Z.of_nat i)) with
            | Some child0 =>
                match set_tokens child0 rest value with
                | Done child => Done (DDict (setitem kvs (KInt (Z.of_nat i)) child))
                | Fails e => Fails e
                end
            | None => Fails KeyError
            end
      | TIdx i, DStr s =>
          match String.get i s with
          | None => Fails AttributeError
          | Some c =>
              match set_tokens (DStr (String c EmptyString)) rest value with
              | Done _ => Done current
              | Fails e => Fails e
              end
          end
      | TIdx _, _ => Fails TypeError
      | TKey k, DDict kvs =>
          let child0 :=
            match lookup kvs (KStr k) with
            | Some c => c
            | None => fresh_for next_token
            end in
          match set_tokens child0 rest value with
          | Done child => Done (DDict (setitem kvs (KStr k) child))
          | Fails e => Fails e
          end
      | TKey _, _ => Fails TypeError
      end
  end.

(** Set a value at a dot-notation path in a nested document. *)
Definition set_at_path (obj : doc) (path : string) (value : doc) : outcome doc :=
  set_tokens obj (tokenize path) value.

End SetAtPath.

(** ** Saving a snapshot ([core.py]) *)


(** ** Vocabulary of the properties *)

(** [sub] occurs in [s]; and the split of [s] at the first occurrence. *)
Definition occurs (sub s : string) : Prop :=
  exists pre post, s = (pre ++ sub ++ post)%string.

Definition first_split (sub s pre post : string) : Prop :=
  s = (pre ++ sub ++ post)%string /\
  forall pre' post', s = (pre' ++ sub ++ post')%string ->
                     (String.length pre <= String.length pre')%nat.

(** A path without collection segment that the tree builder can lay out:
    keys and non-negative indices, no index directly followed by an index. *)
Fixpoint buildable (segs : list segment) : bool :=
  match segs with
  | [] => true
  | Key _ :: rest => buildable rest
  | Index i :: rest =>
      (0 <=? i) && match rest with Index _ :: _ => false | _ => true end
      && buildable rest
  | _ => false
  end.

Definition starts_with_key (segs : list segment) : bool :=
  match segs with
  | Key _ :: _ => true
  | _ => false
  end.

(** The empty container the builder creates in front of a segment. *)
Definition empty_for (seg : segment) : pyobj :=
  match seg with
  | Key _ => ODict []
  | _ => OList []
  end.

(** [chain lo hi h t segs x]: in store [h], the object at [t] is the head of
    a single path laid out for [segs] and ending in [x]. Every dict on the
    path has exactly one item, keyed by the text of the segment; a list
    reached through index [i] has [i + 1] elements, the first [i] being
    fillers (empty dicts in the middle of a path, [None] at its end). The
    objects below [t] have addresses from [lo] up to, excluding, [hi]. *)
Fixpoint chain (lo hi : nat) (h : heap) (t : nat) (segs : list segment) (x : pyval)
  : Prop :=
  match segs with
  | [] => False
  | Key k :: rest =>
      match rest with
      | [] => h !! t = Some (ODict [(k, x)])
      | _ :: _ =>
          exists c, h !! t = Some (ODict [(k, VRef c)]) /\ (lo <= c < hi)%nat /\
                    chain lo hi h c rest x
      end
  | Index i :: rest =>
      0 <= i /\
      match rest with
      | [] => h !! t = Some (OList (replicate (Z.to_nat i) VNone ++ [x]))
      | _ :: _ =>
          exists cs c,
            h !! t = Some (OList (map VRef cs ++ [VRef c])) /\
            length cs = Z.to_nat i /\
            Forall (fun c' => (lo <= c' < hi)%nat /\ h !! c' = Some (ODict [])) cs /\
            (lo <= c < hi)%nat /\ chain lo hi h c rest x
      end
  | _ => False
  end.

(** References held by a value or an object stay below [n]. *)
Definition val_below (n : nat) (v : pyval) : bool :=
  match v with
  | VRef a => (a <? n)%nat
  | _ => true
  end.

Definition obj_below (n : nat) (o : pyobj) : bool :=
  match o with
  | ODict kvs => forallb (fun kv => val_below n (snd kv)) kvs
  | OList xs => forallb (val_below n) xs
  end.

(** The suffixes the collection cases can lay out: none, or a buildable path
    that starts with a key. *)
Definition suffix_ok (suffix : list segment) : bool :=
  match suffix with
  | [] => true
  | _ :: _ => buildable suffix && starts_with_key suffix
  end.

(** One or more keys, the iteration marker, and a suffix that can be laid
    out. *)
Fixpoint keys_then_iterate (segs : list segment) : bool :=
  match segs with
  | Key _ :: rest =>
      match rest with
      | Iterate :: suffix => suffix_ok suffix
      | _ => keys_then_iterate rest
      end
  | _ => false
  end.

(** Specs that may be repeated without changing the projection: a buildable
    path, or keys, the iteration and a suffix that can be laid out. *)
Definition repeatable (segs : list segment) : bool :=
  buildable segs || keys_then_iterate segs.

(** A store without dangling references. *)
Definition heap_closed (h : heap) : bool := forallb (obj_below (length h)) h.

(** The values a selection contributes through a suffix: for each selected
    element, the extracted value when the suffix is found in it. *)
Definition found_values (h : heap) (suffix : list segment) (pairs : list (Z * pyval))
  : list pyval :=
  omap (fun p => let '(found, value) := _get_value h (snd p) suffix in
                 if found then Some value else None) pairs.

(** The response of a request, its body decoded into the store. *)
Definition response_with_body (status : Z) (b : pyval) : RequestResult pyval :=
  mkRequestResult status [] b None "".

(** [evaluate_assert] on a response whose body is the document [b]. *)
Definition evaluate_on (expr : string) (status : Z) (b : json) : res (bool * string) :=
  match (let* d := load b in evaluate_assert expr (response_with_body status d)) [] with
  | Ok (r, _) => Ok r
  | Raise e => Raise e
  end.

(** The value found at the path of [spec] in a freshly decoded document [v],
    and the value found at the same path in the projection of [v] on that
    spec; [None] when the path is not found. *)
Definition roundtrip (v : json) (spec : string) : res (option json * option json) :=
  match (let* data := load v in
         let* segs := lift (Parser._parse_path_segments spec) in
         let* h0 := get_heap in
         let before := _get_value h0 data segs in
         let* out := filter_response data [spec] in
         let* h1 := get_heap in
         let after := _get_value h1 out segs in
         ret (before, after)) [] with
  | Ok ((before, after), h) =>
      Ok (if fst before then reify (length h) h (snd before) else None,
          if fst after then reify (length h) h (snd after) else None)
  | Raise e => Raise e
  end.

(** Python's [obj[t1][t2]...] along the tokens of [set_at_path]; [None] when
    some step raises. *)
Fixpoint index_path (current : SetAtPath.doc) (tokens : list SetAtPath.token)
  : option SetAtPath.doc :=
  match tokens with
  | [] => Some current
  | t :: rest =>
      match t, current with
      | SetAtPath.TKey k, SetAtPath.DDict kvs =>
          match SetAtPath.lookup kvs (SetAtPath.KStr k) with
          | Some child => index_path child rest
          | None => None
          end
      | SetAtPath.TIdx i, SetAtPath.DList xs =>
          match xs !! i with
          | Some child => index_path child rest
          | None => None
          end
      | SetAtPath.TIdx i, SetAtPath.DDict kvs =>
          match SetAtPath.lookup kvs (SetAtPath.KInt (Z.of_nat i)) with
          | Some child => index_path child rest
          | None => None
          end
      | SetAtPath.TIdx i, SetAtPath.DStr s =>
          match String.get i s with
          | Some c => index_path (SetAtPath.DStr (String c EmptyString)) rest
          | None => None
          end
      | _, _ => None
      end
  end.

(** A segment that is not a negative index. *)
Definition nonneg_index (seg : segment) : bool :=
  match seg with
  | Index i => 0 <=? i
  | _ => true
  end.

(** No negative index after the first collection segment: none of the
    positions the tree builder has to create is negative. *)
Definition builder_safe (segs : list segment) : bool :=
  match first_index is_collection segs with
  | None => true
  | Some coll_idx => forallb nonneg_index (drop (S coll_idx) segs)
  end.

(** From store [h] to store [h']: every object is still there, a dict is
    still a dict and a list is still a list, and no list is shorter. *)
Definition grows (h h' : heap) : Prop :=
  forall a,
    match h !! a with
    | Some (OList xs) =>
        exists xs', h' !! a = Some (OList xs') /\ (length xs <= length xs')%nat
    | Some (ODict _) => exists kvs', h' !! a = Some (ODict kvs')
    | None => True
    end.

(** The computation [m] returns from store [h], and the store it leaves has
    grown from [h]. *)
Definition returns_growing {A : Type} (m : M A) (h : heap) : Prop :=
  exists r h', m h = Ok (r, h') /\ grows h h'.

(** The items a list of top-level keys selects from a dict: each key found
    in [src], up to case, stores the source value under the key as it was
    asked for. *)
Definition pick_keys (src : list (string * pyval)) (ks : list string)
  : list (string * pyval) :=
  foldl (fun acc k =>
           match _ci_get src k with
           | Some (_, v) => PyDict.setitem acc k v
           | None => acc
           end) [] ks.

(** The text holds no dot. *)
Abbreviation no_dot s := (Render.contains_char "." s = false).

(** A key segment that is not empty, has no blank at either end and holds
    no dot; or any other segment. *)
Definition clean_key (seg : segment) : Prop :=
  match seg with
  | Key k => k <> EmptyString /\ PyStr.strip k = k /\ no_dot k
  | _ => True
  end.

(** Induction over documents. *)

Section JsonInduction.
Variable P : json -> Prop.
Hypothesis HNull : P JNull.
Hypothesis HBool : forall b, P (JBool b).
Hypothesis HNum : forall z, P (JNum z).
Hypothesis HStr : forall s, P (JStr s).
Hypothesis HArr : forall xs, Forall P xs -> P (JArr xs).
Hypothesis HObj : forall kvs, Forall (fun kv => P (snd kv)) kvs -> P (JObj kvs).

End JsonInduction.

(** ** Properties *)
Example parse_iter_key :
  Parser._parse_path_segments "data[].id" = Ok [Key "data"; Iterate; Key "id"].
Proof. reflexivity. Qed.

Example parse_negative_index :
  Parser._parse_path_segments " items[-1].id " = Ok [Key "items"; Index (-1); Key "id"].
Proof. reflexivity. Qed.

Example parse_slices :
  Parser._parse_path_segments "a[2:5].b[2:][:-1][:]"
  = Ok [Key "a"; Slice (Some 2) (Some 5); Key "b"; Slice (Some 2) None;
        Slice None (Some (-1)); Slice None None].
Proof. reflexivity. Qed.

Example parse_bracket_key_and_dot_index :
  Parser._parse_path_segments "headers[Content-Type]..items.2"
  = Ok [Key "headers"; Key "Content-Type"; Key "items"; Index 2].
Proof. reflexivity. Qed.

Example parse_lone_minus_slice :
  Parser._parse_path_segments "a[-:]"
  = Raise (ValueError "invalid literal for int() with base 10: '-'").
Proof. reflexivity. Qed.


(** *** Strings *)

#[local] Arguments String.append !_ _ / : simpl nomatch.

Section StringFacts.
Import PyStr.

Lemma ascii_eqb_true a b : ascii_eqb a b = true <-> a = b.
Proof. unfold ascii_eqb. apply Ascii.eqb_eq. Qed.

Lemma startswith_spec p s :
  startswith p s = true <-> exists post, s = (p ++ post)%string.
Proof.
  revert s. induction p as [|a p IH]; intros s; simpl.
  - split; [intros _; by exists s | done].
  - destruct s as [|b s]; simpl.
    + split; [done | intros [post H]; discriminate].
    + rewrite andb_true_iff, ascii_eqb_true, IH. split.
      * intros [-> [post ->]]. by exists post.
      * intros [post H]. injection H as -> ->. split; [done | by exists post].
Qed.

Lemma str_app_length (a b : string) :
  String.length (a ++ b) = (String.length a + String.length b)%nat.
Proof. induction a; simpl; congruence. Qed.

Lemma str_app_assoc (a b c : string) : ((a ++ b) ++ c = a ++ (b ++ c))%string.
Proof. induction a; simpl; congruence. Qed.

Lemma take_str_app (pre rest : string) :
  take_str (String.length pre) (pre ++ rest) = pre.
Proof. induction pre; simpl; [by destruct rest | congruence]. Qed.

Lemma drop_str_app (pre rest : string) :
  drop_str (String.length pre) (pre ++ rest) = rest.
Proof. induction pre; simpl; [done | congruence]. Qed.

Lemma find_from_shift i sub s :
  find_from i sub s = (fun k => (i + k)%nat) <$> find_from 0 sub s.
Proof.
  revert i. induction s as [|c s IH]; intros i; simpl.
  - destruct (startswith sub ""); simpl; [f_equal; lia | done].
  - destruct (startswith sub (String c s)); simpl; [f_equal; lia |].
    rewrite (IH (S i)), (IH 1%nat).
    destruct (find_from 0 sub s); simpl; [f_equal; lia | done].
Qed.

(** [find] returns the position of the first occurrence. *)
Lemma find_some sub s k :
  find s sub = Some k ->
  exists pre post, s = (pre ++ sub ++ post)%string /\ String.length pre = k /\
    forall pre' post', s = (pre' ++ sub ++ post')%string ->
                       (k <= String.length pre')%nat.
Proof.
  unfold find. revert k. induction s as [|c s IH]; intros k; simpl.
  - destruct (startswith sub "") eqn:E; [|done].
    intros [= <-]. apply startswith_spec in E as [post E].
    exists "", post. repeat split; [done | intros; lia].
  - destruct (startswith sub (String c s)) eqn:E.
    + intros [= <-]. apply startswith_spec in E as [post E].
      exists "", post. repeat split; [done | intros; lia].
    + rewrite find_from_shift. destruct (find_from 0 sub s) as [k'|] eqn:F; [|done].
      simpl. intros [= <-].
      destruct (IH k' eq_refl) as (pre & post & -> & Hlen & Hmin).
      exists (String c pre), post. repeat split; [simpl; lia |].
      intros pre' post' H. destruct pre' as [|c' pre'].
      * exfalso. simpl in H.
        assert (startswith sub (String c (pre ++ sub ++ post)) = true) as E'
          by (apply startswith_spec; eauto).
        congruence.
      * simpl in H. injection H as _ H. apply Hmin in H. simpl. lia.
Qed.

Lemma find_none sub s : find s sub = None -> ~ occurs sub s.
Proof.
  unfold find. induction s as [|c s IH]; simpl.
  - destruct (startswith sub "") eqn:E; [done|]. intros _ (pre & post & H).
    destruct pre; [|done]. simpl in H.
    assert (startswith sub "" = true) by (apply startswith_spec; eauto). congruence.
  - destruct (startswith sub (String c s)) eqn:E; [done|].
    rewrite find_from_shift. destruct (find_from 0 sub s) eqn:F; [done|].
    intros _ (pre & post & H). destruct pre as [|c' pre].
    + simpl in H.
      assert (startswith sub (String c s) = true) by (apply startswith_spec; eauto).
      congruence.
    + simpl in H. injection H as _ H. apply IH; [done|]. by exists pre, post.
Qed.

Lemma find_first_split sub s pre post :
  first_split sub s pre post -> find s sub = Some (String.length pre).
Proof.
  intros [Hs Hmin]. destruct (find s sub) as [k|] eqn:F.
  - apply find_some in F as (pre0 & post0 & Hs0 & Hlen & Hmin0).
    f_equal. apply Hmin0 in Hs as H1. apply Hmin in Hs0. lia.
  - apply find_none in F. destruct F. by exists pre, post.
Qed.

Lemma first_split_parts sub s pre post :
  first_split sub s pre post ->
  take_str (String.length pre) s = pre /\
  drop_str (String.length pre + String.length sub) s = post.
Proof.
  intros [-> _]. split; [apply take_str_app|].
  rewrite <- str_app_length, <- str_app_assoc. apply drop_str_app.
Qed.

End StringFacts.

Section ParseAssert.
Import PyStr.

Lemma find_split sub s k :
  find s sub = Some k ->
  first_split sub s (take_str k s) (drop_str (k + String.length sub) s).
Proof.
  intros F. destruct (find_some _ _ _ F) as (pre & post & Hs & Hlen & Hmin).
  assert (first_split sub s pre post) as FS.
  { split; [done|]. intros pre' post' H. rewrite Hlen. eauto. }
  destruct (first_split_parts _ _ _ _ FS) as [Ht Hd].
  rewrite Hlen in Ht, Hd. by rewrite Ht, Hd.
Qed.

End ParseAssert.

(** C7. [parse_assert] splits at the first occurrence of [!=] when there is
    one, otherwise at the first occurrence of [=] (so that the expected text
    may itself contain [=]); the path is the stripped text before the
    delimiter, the expected literal the stripped text after it. It raises
    exactly when the expression contains neither delimiter, and that error,
    the invalid-expression [ValueError], is the only one [parse_assert]
    raises. Nothing is said here about the other functions of the core. *)
Theorem parse_assert_first_delimiter (e : string) :
  (forall pre post, first_split "!=" e pre post ->
     parse_assert e = Ok (PyStr.strip pre, "!=", PyStr.strip post)) /\
  (forall pre post, ~ occurs "!=" e -> first_split "=" e pre post ->
     parse_assert e = Ok (PyStr.strip pre, "=", PyStr.strip post)) /\
  ((exists err, parse_assert e = Raise err) <-> ~ occurs "=" e /\ ~ occurs "!=" e) /\
  (forall err, parse_assert e = Raise err -> err = invalid_assert e).
Proof.
  unfold parse_assert. split; [|split; [|split; [split|]]].
  - intros pre post FS. rewrite (find_first_split _ _ _ _ FS).
    destruct (first_split_parts _ _ _ _ FS) as [-> <-]. done.
  - intros pre post Hno FS.
    destruct (PyStr.find e "!=") as [k|] eqn:F.
    { destruct Hno. apply find_some in F as (p & q & -> & _). by exists p, q. }
    rewrite (find_first_split _ _ _ _ FS).
    destruct (first_split_parts _ _ _ _ FS) as [-> <-]. done.
  - destruct (PyStr.find e "!=") as [k|] eqn:F; [intros [err H]; discriminate|].
    destruct (PyStr.find e "=") as [k|] eqn:G; [intros [err H]; discriminate|].
    intros _. split; by apply find_none.
  - intros [H1 H2].
    destruct (PyStr.find e "!=") as [k|] eqn:F.
    { destruct H2. apply find_some in F as (p & q & -> & _). by exists p, q. }
    destruct (PyStr.find e "=") as [k|] eqn:G.
    { destruct H1. apply find_some in G as (p & q & -> & _). by exists p, q. }
    eauto.
  - intros err.
    destruct (PyStr.find e "!="); [done|]. destruct (PyStr.find e "="); [done|].
    by intros [= <-].
Qed.

Lemma parse_assert_first_delimiter_witness :
  parse_assert "status!=500" = Ok ("status", "!=", "500") /\
  parse_assert "body.url=http://x?a=1" = Ok ("body.url", "=", "http://x?a=1") /\
  parse_assert "nodelimiter" = Raise (invalid_assert "nodelimiter").
Proof.
  split; [|split].
  - apply (proj1 (parse_assert_first_delimiter "status!=500") "status" "500").
    apply (find_split "!=" "status!=500" 6). reflexivity.
  - apply (proj1 (proj2 (parse_assert_first_delimiter "body.url=http://x?a=1"))
             "body.url" "http://x?a=1").
    + apply find_none. reflexivity.
    + apply (find_split "=" "body.url=http://x?a=1" 8). reflexivity.
  - destruct (parse_assert "nodelimiter") as [r|err] eqn:E; [discriminate E|].
    f_equal.
    apply (proj2 (proj2 (proj2 (parse_assert_first_delimiter "nodelimiter")))). exact E.
Defined.

(** *** The assertion evaluator *)





Example evaluate_assert_spec_example :
  evaluate_on "body.missing=" 200 (JObj [("a", JNum 1)])
  = Ok (true, "ASSERT PASSED: body.missing=").
Proof. reflexivity. Qed.

Example evaluate_assert_failure_message :
  evaluate_on "status=200" 404 (JObj [("a", JNum 1)])
  = Ok (false, "ASSERT FAILED: status=200 (actual: 404)").
Proof. reflexivity. Qed.

(** A delimiter alone does not make the expression evaluable: the path
    parser raises on a slice bound that is a lone minus sign. *)
Example evaluate_assert_bad_path :
  evaluate_on "a[-:]=" 200 (JObj [("a", JNum 1)])
  = Raise (ValueError "invalid literal for int() with base 10: '-'").
Proof. reflexivity. Qed.

(** The error of [parse_assert] is not the only failure of the core. The
    expression [body.a[-:]=1] has a delimiter and [parse_assert] accepts it,
    yet [evaluate_assert] raises on it, with the [ValueError] of [int] on the
    lone minus sign, which is not the invalid-expression error; and
    [filter_response] raises [IndexError] on the spec [data[].tags[-1]]. *)
Lemma parse_assert_error_is_not_the_only_failure :
  parse_assert "body.a[-:]=1" = Ok ("body.a[-:]", "=", "1") /\
  evaluate_on "body.a[-:]=1" 200 (JObj [("a", JArr [JNum 1])])
  = Raise (ValueError "invalid literal for int() with base 10: '-'") /\
  ValueError "invalid literal for int() with base 10: '-'"
  <> invalid_assert "body.a[-:]=1" /\
  project (JObj [("data", JArr [JObj [("tags", JArr [JNum 1; JNum 2])]])])
    ["data[].tags[-1]"]
  = Raise IndexError.
Proof.
  split; [reflexivity|]. split; [reflexivity|]. split; [discriminate | reflexivity].
Qed.

(** *** The snapshot differ *)



Section CoreFacts.
Import Core.

















End CoreFacts.



Example diff_reports_both_directions :
  Core.diff_snapshot [("body", JObj [("a", JNum 1)])]
    (mkRequestResult 200 [] (JObj [("a", JNum 1); ("b", JNum 2)]) None "")
  = ["status_code: None → 200"; "body.b: (absent) → 2"].
Proof. reflexivity. Qed.

(** Equality is Python's: [True] equals 1, so these two bodies do not differ. *)
Example diff_bool_equals_int :
  Core.diff_snapshot [("status_code", JNum 200); ("body", JObj [("a", JNum 1)])]
    (mkRequestResult 200 [] (JObj [("a", JBool true)]) None "")
  = [].
Proof. reflexivity. Qed.


(** C10. The output of [diff_snapshot] depends only on the status code and
    body stored in the snapshot and on the status code and body of the live
    response: two snapshot and response pairs that agree on these give the
    same list, whatever their headers (and the other fields) are. *)
Theorem diff_snapshot_ignores_headers
  (snapshot snapshot' : list (string * json)) (result result' : RequestResult json) :
  Core.get snapshot "status_code" = Core.get snapshot' "status_code" ->
  Core.get snapshot "body" = Core.get snapshot' "body" ->
  status_code result = status_code result' ->
  body result = body result' ->
  Core.diff_snapshot snapshot result = Core.diff_snapshot snapshot' result'.
Proof.
  intros Hs Hb Hrs Hrb. unfold Core.diff_snapshot.
  by rewrite Hs, Hb, Hrs, Hrb.
Qed.

Lemma diff_snapshot_ignores_headers_witness :
  Core.diff_snapshot
    [("status_code", JNum 200); ("headers", JObj [("Server", JStr "a")]);
     ("body", JObj [("id", JNum 1)]); ("saved_at", JStr "t0")]
    (mkRequestResult 200 [("Server", "b")] (JObj [("id", JNum 1)]) None "")
  = Core.diff_snapshot
      [("status_code", JNum 200); ("headers", JObj []);
       ("body", JObj [("id", JNum 1)]); ("saved_at", JStr "t1")]
      (mkRequestResult 200 [("Date", "c"); ("Server", "d")] (JObj [("id", JNum 1)])
         (Some "ignored") "raw").
Proof.
  apply diff_snapshot_ignores_headers; reflexivity.
Defined.

(** A change of headers alone gives the empty diff. *)
Example diff_headers_only_change :
  Core.diff_snapshot
    [("status_code", JNum 200); ("headers", JObj [("Server", JStr "a")]);
     ("body", JObj [("id", JNum 1)])]
    (mkRequestResult 200 [("Server", "b")] (JObj [("id", JNum 1)]) None "")
  = [].
Proof. reflexivity. Qed.

(** *** The store and the tree builder *)

Section StoreFacts.
Implicit Types (h : heap) (a t c : nat) (v x : pyval) (segs : list segment).

Lemma bind_ok {A B : Type} (m : M A) (f : A -> M B) h r h1 :
  m h = Ok (r, h1) -> bind m f h = f r h1.
Proof. unfold bind. by intros ->. Qed.

Lemma bind_raise {A B : Type} (m : M A) (f : A -> M B) h e :
  m h = Raise e -> bind m f h = Raise e.
Proof. unfold bind. by intros ->. Qed.

Lemma dict_setitem_run a k v h kvs :
  h !! a = Some (ODict kvs) ->
  dict_setitem a k v h = Ok (tt, <[a := ODict (PyDict.setitem kvs k v)]> h).
Proof. unfold dict_setitem. by intros ->. Qed.

Lemma list_append_run a v h xs :
  h !! a = Some (OList xs) ->
  list_append a v h = Ok (tt, <[a := OList (xs ++ [v])]> h).
Proof. unfold list_append. by intros ->. Qed.

Lemma list_getitem_run a i h xs v :
  h !! a = Some (OList xs) -> PyList.getitem xs i = Some v ->
  list_getitem a i h = Ok (v, h).
Proof. unfold list_getitem. by intros -> ->. Qed.

Lemma list_setitem_run a i v h xs xs' :
  h !! a = Some (OList xs) -> PyList.setitem xs i v = Some xs' ->
  list_setitem a i v h = Ok (tt, <[a := OList xs']> h).
Proof. unfold list_setitem. by intros -> ->. Qed.

Lemma norm_index_nat {A : Type} (xs : list A) (n : nat) :
  (n < length xs)%nat -> PyList.norm_index xs (Z.of_nat n) = Some n.
Proof.
  intros H. unfold PyList.norm_index.
  replace (0 <=? Z.of_nat n) with true by (symmetry; apply Z.leb_le; lia).
  replace (Z.of_nat n <? Z.of_nat (length xs)) with true by (symmetry; apply Z.ltb_lt; lia).
  simpl. by rewrite Nat2Z.id.
Qed.

Lemma norm_index_nonneg {A : Type} (xs : list A) (i : Z) :
  0 <= i -> (Z.to_nat i < length xs)%nat ->
  PyList.norm_index xs i = Some (Z.to_nat i).
Proof.
  intros H0 H. rewrite <- (Z2Nat.id i) at 1 by done. by apply norm_index_nat.
Qed.

Lemma getitem_nonneg {A : Type} (xs : list A) (i : Z) (v : A) :
  0 <= i -> xs !! Z.to_nat i = Some v -> PyList.getitem xs i = Some v.
Proof.
  intros H0 H. unfold PyList.getitem.
  rewrite norm_index_nonneg; [done | done | by eapply lookup_lt_Some].
Qed.

Lemma setitem_nonneg {A : Type} (xs : list A) (i : Z) (v : A) :
  0 <= i -> (Z.to_nat i < length xs)%nat ->
  PyList.setitem xs i v = Some (<[Z.to_nat i := v]> xs).
Proof. intros H0 H. unfold PyList.setitem. by rewrite norm_index_nonneg. Qed.

(** [n] rounds of appending a new empty dict to the list at [a]. *)
Lemma append_new_dicts_run n : forall a h xs,
  h !! a = Some (OList xs) ->
  append_new_dicts n a h
  = Ok (tt, <[a := OList (xs ++ map VRef (seq (length h) n))]>
              (h ++ replicate n (ODict []))).
Proof.
  induction n as [|n IH]; intros a h xs Ha.
  - simpl. unfold ret. rewrite !app_nil_r. by rewrite list_insert_id.
  - cbn [append_new_dicts].
    assert (a < length h)%nat as Hlt by (by eapply lookup_lt_Some).
    rewrite (bind_ok _ _ h (VRef (length h)) (h ++ [ODict []])) by done.
    cbv beta. erewrite bind_ok; cycle 1.
    { apply list_append_run. by rewrite lookup_app_l. }
    cbv beta. erewrite IH; cycle 1.
    { apply list_lookup_insert_eq. rewrite List.length_app. simpl. lia. }
    f_equal. f_equal.
    set (h1 := <[a:=OList (xs ++ [VRef (length h)])]> (h ++ [ODict []])).
    assert (length h1 = S (length h)) as ->.
    { unfold h1. rewrite length_insert, List.length_app. simpl. lia. }
    assert (h1 ++ replicate n (ODict [])
            = <[a:=OList (xs ++ [VRef (length h)])]> (h ++ replicate (S n) (ODict [])))
      as ->.
    { unfold h1. rewrite <- insert_app_l by (rewrite List.length_app; simpl; lia).
      by rewrite <- app_assoc. }
    rewrite list_insert_insert_eq, <- app_assoc. done.
Qed.

Lemma append_nones_run n : forall a h xs,
  h !! a = Some (OList xs) ->
  append_nones n a h = Ok (tt, <[a := OList (xs ++ replicate n VNone)]> h).
Proof.
  induction n as [|n IH]; intros a h xs Ha.
  - simpl. unfold ret. rewrite app_nil_r. by rewrite list_insert_id.
  - cbn [append_nones].
    assert (a < length h)%nat as Hlt by (by eapply lookup_lt_Some).
    erewrite bind_ok by (by apply list_append_run).
    cbv beta. erewrite IH by (by apply list_lookup_insert_eq).
    rewrite list_insert_insert_eq, <- app_assoc. done.
Qed.

Lemma last_cons2 {A : Type} (a b : A) (l : list A) (d d' : A) :
  List.last (a :: b :: l) d = List.last (b :: l) d'.
Proof.
  revert a b. induction l as [|c l IH]; intros a b; [done|].
  change (List.last (b :: c :: l) d = List.last (c :: l) d').
  rewrite (IH b c). clear. revert c. induction l as [|e l IH]; intros c; [done|].
  change (List.last (e :: l) d' = List.last (e :: l) d'). done.
Qed.

(** [_set_in_result] on a path of two or more segments: one round of the
    container loop, then the same on the rest of the path. *)
Lemma set_in_result_cons target seg next rest value h :
  _set_in_result target (seg :: next :: rest) value h
  = match ensure_step target seg next h with
    | Ok (target', h1) => _set_in_result target' (next :: rest) value h1
    | Raise e => Raise e
    end.
Proof.
  unfold _set_in_result. cbn [_ensure_container]. unfold bind.
  destruct (ensure_step target seg next h) as [[target' h1]|e]; [|done].
  by rewrite (last_cons2 seg next rest seg next).
Qed.

Lemma set_in_result_single target seg value h :
  _set_in_result target [seg] value h = set_last target seg value h.
Proof. reflexivity. Qed.

End StoreFacts.


Section ChainFacts.
Implicit Types (h : heap) (a t c lo : nat) (v x : pyval) (segs : list segment).

Lemma chain_is_Some lo hi h t segs x : chain lo hi h t segs x -> is_Some (h !! t).
Proof.
  destruct segs as [|seg rest]; [done|].
  destruct seg as [k|i| |]; [| |done|done]; destruct rest as [|s rest].
  - intros H. by eexists.
  - intros (c & H & _). by eexists.
  - intros [_ H]. by eexists.
  - intros (_ & cs & c & H & _). by eexists.
Qed.

Lemma chain_mono lo lo' hi hi' h segs : forall t x,
  (lo <= lo')%nat -> (hi' <= hi)%nat ->
  chain lo' hi' h t segs x -> chain lo hi h t segs x.
Proof.
  induction segs as [|seg rest IH]; intros t x Hlo Hhi; [done|].
  destruct seg as [k|i| |]; [| |done|done]; destruct rest as [|s rest]; try done.
  - intros (c & H & Hc & Hch). exists c. split; [done|]. split; [lia|]. by apply IH.
  - intros (Hi & cs & c & H & Hlen & Hcs & Hc & Hch). split; [done|].
    exists cs, c. repeat split; try done; [|lia|lia|by apply IH].
    eapply Forall_impl; [exact Hcs|]. intros c' [? ?]. split; [lia | done].
Qed.

(** A chain only depends on its head and on the objects from [lo] up to
    [hi]. *)
Lemma chain_frame lo hi h h' segs : forall t x,
  chain lo hi h t segs x ->
  h' !! t = h !! t ->
  (forall a, (lo <= a < hi)%nat -> h' !! a = h !! a) ->
  chain lo hi h' t segs x.
Proof.
  induction segs as [|seg rest IH]; intros t x Hch Ht Hfr; [done|].
  destruct seg as [k|i| |]; [| |done|done]; destruct rest as [|s rest].
  - simpl in *. congruence.
  - destruct Hch as (c & H & Hc & Hch). exists c. split; [congruence|]. split; [done|].
    apply IH; [done | by apply Hfr | done].
  - simpl in *. destruct Hch as [Hi H]. split; [done | congruence].
  - destruct Hch as (Hi & cs & c & H & Hlen & Hcs & Hc & Hch). split; [done|].
    exists cs, c. split; [congruence|]. split; [done|]. split; [|split; [done|]].
    + eapply Forall_impl; [exact Hcs|]. intros c' [Hlo Hc']. split; [done|].
      by rewrite Hfr.
    + apply IH; [done | by apply Hfr | done].
Qed.

Lemma seq_lookup_last j n : seq j (S n) !! n = Some (j + n)%nat.
Proof. apply lookup_seq_lt. lia. Qed.

(** On a new empty container of the kind the first segment asks for,
    [_set_in_result] lays out the path: it returns, the result is a chain of
    newly created objects, and nothing else in the store changes. *)
Lemma set_builds_chain segs : forall t x h,
  buildable segs = true ->
  match segs with
  | seg :: _ => h !! t = Some (empty_for seg)
  | [] => False
  end ->
  exists h',
    _set_in_result (VRef t) segs x h = Ok (tt, h') /\
    chain (length h) (length h') h' t segs x /\
    (length h <= length h')%nat /\
    (forall a, (a < length h)%nat -> a <> t -> h' !! a = h !! a).
Proof.
  induction segs as [|seg rest IH]; intros t x h Hb Ht; [done|].
  assert (t < length h)%nat as Hlt by (by eapply lookup_lt_Some).
  destruct rest as [|next rest].
  - (* the last segment *)
    rewrite set_in_result_single. unfold set_last, bind, get_heap.
    destruct seg as [k|i| |]; simpl in Hb, Ht; try done.
    + unfold as_dict. rewrite Ht.
      erewrite dict_setitem_run by done. simpl.
      eexists. split; [done|]. split; [by apply list_lookup_insert_eq|].
      split; [by rewrite length_insert|].
      intros a Ha Hne. by rewrite list_lookup_insert_ne.
    + apply andb_prop in Hb as [Hb _]. apply andb_prop in Hb as [Hi _].
      apply Z.leb_le in Hi.
      unfold as_list. rewrite Ht. simpl length.
      replace (Z.to_nat (i + 1 - Z.of_nat 0)) with (S (Z.to_nat i)) by lia.
      erewrite append_nones_run by done. rewrite app_nil_l.
      erewrite list_setitem_run; cycle 1.
      { by apply list_lookup_insert_eq. }
      { apply setitem_nonneg; [done|]. rewrite length_replicate. lia. }
      rewrite list_insert_insert_eq.
      eexists. split; [done|]. split; [|split].
      * split; [done|]. rewrite list_lookup_insert_eq by done. do 2 f_equal.
        replace (S (Z.to_nat i)) with (Z.to_nat i + 1)%nat by lia.
        rewrite replicate_add. simpl.
        rewrite <- (Nat.add_0_r (Z.to_nat i)) at 1.
        rewrite <- (length_replicate (Z.to_nat i) VNone) at 1.
        by rewrite insert_app_r.
      * by rewrite length_insert.
      * intros a Ha Hne. by rewrite list_lookup_insert_ne.
  - (* one round of the container loop, then the rest of the path *)
    rewrite set_in_result_cons. unfold ensure_step, bind, get_heap.
    destruct seg as [k|i| |]; simpl in Hb, Ht; try done.
    + unfold as_dict. rewrite Ht.
      change (_ci_get [] k) with (@None (string * pyval)). cbv iota beta.
      unfold alloc.
      assert ((if negb (is_str next) then OList [] else ODict []) = empty_for next) as ->.
      { by destruct next. }
      erewrite dict_setitem_run; cycle 1.
      { by rewrite lookup_app_l. }
      simpl PyDict.setitem. unfold ret.
      set (h1 := <[t:=ODict [(k, VRef (length h))]]> (h ++ [empty_for next])).
      assert (length h1 = S (length h)) as Hlen1.
      { unfold h1. rewrite length_insert, List.length_app. simpl. lia. }
      destruct (IH (length h) x h1 Hb) as (h' & Hrun & Hch & Hlen & Hfr).
      { unfold h1. rewrite list_lookup_insert_ne by lia.
        rewrite lookup_app_r by lia. by rewrite Nat.sub_diag. }
      exists h'. split; [done|]. split; [|split].
      * exists (length h). split; [|split; [lia|]].
        -- rewrite Hfr by lia. unfold h1. apply list_lookup_insert_eq.
           rewrite List.length_app. lia.
        -- eapply chain_mono; [| |exact Hch]; lia.
      * lia.
      * intros a Ha Hne. rewrite Hfr by lia. unfold h1.
        rewrite list_lookup_insert_ne by done. by rewrite lookup_app_l.
    + apply andb_prop in Hb as [Hb Hrest]. apply andb_prop in Hb as [Hi Hnext].
      apply Z.leb_le in Hi.
      assert (empty_for next = ODict []) as Hnk by (by destruct next).
      unfold as_list. rewrite Ht. unfold pad_to_index. simpl length.
      replace (Z.to_nat (i + 1 - Z.of_nat 0)) with (S (Z.to_nat i)) by lia.
      erewrite append_new_dicts_run by done. rewrite app_nil_l.
      set (n := Z.to_nat i).
      set (h1 := <[t:=OList (map VRef (seq (length h) (S n)))]>
                   (h ++ replicate (S n) (ODict []))).
      assert (length h1 = (length h + S n)%nat) as Hlen1.
      { unfold h1. by rewrite length_insert, List.length_app, length_replicate. }
      assert (h1 !! t = Some (OList (map VRef (seq (length h) (S n))))) as Ht1.
      { unfold h1. apply list_lookup_insert_eq. rewrite List.length_app. lia. }
      assert (forall j, (j <= n)%nat -> h1 !! (length h + j)%nat = Some (ODict [])) as Hnew.
      { intros j Hj. unfold h1. rewrite list_lookup_insert_ne by lia.
        rewrite lookup_app_r by lia.
        replace (length h + j - length h)%nat with j by lia.
        apply lookup_replicate_2. lia. }
      erewrite list_getitem_run; cycle 1.
      { exact Ht1. }
      { apply getitem_nonneg; [done|]. fold n.
        rewrite list_lookup_fmap, seq_lookup_last. done. }
      destruct (IH (length h + n)%nat x h1 Hrest) as (h' & Hrun & Hch & Hlen & Hfr).
      { rewrite Hnk. apply Hnew. lia. }
      exists h'. split; [done|]. split; [|split].
      * split; [done|]. exists (seq (length h) n), (length h + n)%nat.
        split; [|split; [|split; [|split]]].
        -- rewrite Hfr by lia. rewrite Ht1. do 2 f_equal.
           by rewrite seq_S, map_app.
        -- by rewrite length_seq.
        -- apply Forall_forall. intros c' Hc'. apply elem_of_seq in Hc'.
           split; [lia|]. rewrite Hfr by lia.
           replace c' with (length h + (c' - length h))%nat by lia. apply Hnew. lia.
        -- lia.
        -- eapply chain_mono; [| |exact Hch]; lia.
      * lia.
      * intros a Ha Hne. rewrite Hfr by lia. unfold h1.
        rewrite list_lookup_insert_ne by done. by rewrite lookup_app_l.
Qed.

(** Extraction along a chain finds the value at its end. *)
Lemma chain_get_value lo hi h segs : forall t x,
  chain lo hi h t segs x -> _get_value h (VRef t) segs = (true, x).
Proof.
  induction segs as [|seg rest IH]; intros t x Hch; [done|].
  destruct seg as [k|i| |]; [| |done|done]; destruct rest as [|s rest].
  - simpl in Hch. cbn [_get_value]. unfold as_dict. rewrite Hch.
    unfold _ci_get. simpl. by rewrite String.eqb_refl.
  - destruct Hch as (c & H & _ & Hch). cbn [_get_value]. unfold as_dict. rewrite H.
    unfold _ci_get. simpl PyDict.lookup. rewrite String.eqb_refl. by apply IH.
  - destruct Hch as [Hi H]. cbn [_get_value]. unfold as_list. rewrite H.
    rewrite (getitem_nonneg _ i x); [done | done |].
    rewrite lookup_app_r by (by rewrite length_replicate).
    by rewrite length_replicate, Nat.sub_diag.
  - destruct Hch as (Hi & cs & c & H & Hlen & _ & _ & Hch).
    cbn [_get_value]. unfold as_list. rewrite H.
    rewrite (getitem_nonneg _ i (VRef c)); [by apply IH | done |].
    rewrite lookup_app_r by (rewrite length_map; lia).
    by rewrite length_map, Hlen, Nat.sub_diag.
Qed.

End ChainFacts.


Section Closedness.
Implicit Types (h : heap) (a n : nat) (v x : pyval) (segs : list segment).

Lemma heap_closed_obj h a o :
  heap_closed h = true -> h !! a = Some o -> obj_below (length h) o = true.
Proof.
  unfold heap_closed. rewrite forallb_forall. intros H Ha. apply H.
  apply list_elem_of_In. by eapply list_elem_of_lookup_2.
Qed.

Lemma dict_lookup_elem kvs k v : PyDict.lookup kvs k = Some v -> v ∈ map snd kvs.
Proof.
  induction kvs as [|[k' v'] kvs IH]; simpl; [done|].
  destruct (String.eqb k' k); [intros [= ->]; left | intros H; right; auto].
Qed.

Lemma scan_lower_elem kvs l k v : PyDict.scan_lower kvs l = Some (k, v) -> v ∈ map snd kvs.
Proof.
  induction kvs as [|[k' v'] kvs IH]; simpl; [done|].
  destruct (String.eqb (PyStr.lower k') l); [intros [= -> ->]; left | intros H; right; auto].
Qed.

Lemma ci_get_elem kvs k k' v : _ci_get kvs k = Some (k', v) -> v ∈ map snd kvs.
Proof.
  unfold _ci_get. destruct (PyDict.lookup kvs k) eqn:E.
  - intros [= -> ->]. by eapply dict_lookup_elem.
  - apply scan_lower_elem.
Qed.

Lemma getitem_elem {A : Type} (xs : list A) i (v : A) : PyList.getitem xs i = Some v -> v ∈ xs.
Proof.
  unfold PyList.getitem. destruct (PyList.norm_index xs i); [|done].
  apply list_elem_of_lookup_2.
Qed.

Lemma dict_val_below n kvs v :
  obj_below n (ODict kvs) = true -> v ∈ map snd kvs -> val_below n v = true.
Proof.
  simpl. rewrite forallb_forall. intros H Hv.
  apply list_elem_of_fmap in Hv as [[k v'] [-> Hin]]. apply (H (k, v')).
  by apply list_elem_of_In.
Qed.

Lemma list_val_below n xs v :
  obj_below n (OList xs) = true -> v ∈ xs -> val_below n v = true.
Proof.
  simpl. rewrite forallb_forall. intros H Hv. apply H. by apply list_elem_of_In.
Qed.

(** Extraction reads only what is reachable from its starting value: two
    stores that agree below [n] give the same result from a value below [n],
    when the objects below [n] hold no reference from [n] on. *)
Lemma get_value_frame n h h' :
  (forall a, (a < n)%nat -> h' !! a = h !! a) ->
  (forall a o, (a < n)%nat -> h !! a = Some o -> obj_below n o = true) ->
  forall segs v, val_below n v = true ->
  _get_value h' v segs = _get_value h v segs.
Proof.
  intros Hag Hcl. induction segs as [|seg rest IH]; intros v Hv; [done|].
  cbn [_get_value]. destruct v as [| | | |a]; try (by destruct seg).
  simpl in Hv. apply Nat.ltb_lt in Hv.
  destruct seg as [k|i| |]; try done.
  - unfold as_dict. rewrite (Hag a Hv).
    destruct (h !! a) as [[kvs|xs]|] eqn:Ea; try done.
    destruct (_ci_get kvs k) as [[k' val]|] eqn:Ec; [|done].
    apply IH. eapply dict_val_below; [by eapply Hcl | by eapply ci_get_elem].
  - unfold as_list. rewrite (Hag a Hv).
    destruct (h !! a) as [[kvs|xs]|] eqn:Ea; try done.
    destruct (PyList.getitem xs i) as [val|] eqn:Eg; [|done].
    apply IH. eapply list_val_below; [by eapply Hcl | by eapply getitem_elem].
Qed.

(** In a closed store, what extraction finds from a value of the store is a
    value of the store. *)
Lemma get_value_below n h :
  (forall a o, (a < n)%nat -> h !! a = Some o -> obj_below n o = true) ->
  forall segs v x, val_below n v = true ->
  _get_value h v segs = (true, x) -> val_below n x = true.
Proof.
  intros Hcl. induction segs as [|seg rest IH]; intros v x Hv.
  { by intros [= <-]. }
  cbn [_get_value]. destruct v as [| | | |a]; try (by destruct seg).
  simpl in Hv. apply Nat.ltb_lt in Hv.
  destruct seg as [k|i| |]; try done.
  - unfold as_dict. destruct (h !! a) as [[kvs|xs]|] eqn:Ea; try done.
    destruct (_ci_get kvs k) as [[k' val]|] eqn:Ec; [|done].
    apply IH. eapply dict_val_below; [by eapply Hcl | by eapply ci_get_elem].
  - unfold as_list. destruct (h !! a) as [[kvs|xs]|] eqn:Ea; try done.
    destruct (PyList.getitem xs i) as [val|] eqn:Eg; [|done].
    apply IH. eapply list_val_below; [by eapply Hcl | by eapply getitem_elem].
Qed.

(** Extraction from the source is the same in every store that extends or
    rewrites only what lies beyond the source. *)
Lemma get_value_source h h' segs v :
  heap_closed h = true ->
  (forall a, (a < length h)%nat -> h' !! a = h !! a) ->
  val_below (length h) v = true ->
  _get_value h' v segs = _get_value h v segs.
Proof.
  intros Hc Hag Hv. apply (get_value_frame (length h)); [done | | done].
  intros a o _ Ha. by eapply heap_closed_obj.
Qed.

Lemma val_below_ref h a o : h !! a = Some o -> val_below (length h) (VRef a) = true.
Proof. intros H. simpl. apply Nat.ltb_lt. by eapply lookup_lt_Some. Qed.

End Closedness.


Section SingleSpec.
Import PyStr.
Implicit Types (h : heap) (d : nat) (x : pyval) (segs : list segment).

Lemma rstrip_cons c s :
  rstrip (String c s)
  = match rstrip s with
    | EmptyString => if is_space c then EmptyString else String c EmptyString
    | String c' r => String c (String c' r)
    end.
Proof. reflexivity. Qed.

Lemma rstrip_idem s : rstrip (rstrip s) = rstrip s.
Proof.
  induction s as [|c s IH]; [done|].
  rewrite rstrip_cons. destruct (rstrip s) as [|c' r] eqn:E.
  - destruct (is_space c) eqn:Ec; [done|]. rewrite rstrip_cons. simpl. by rewrite Ec.
  - rewrite rstrip_cons. by rewrite IH.
Qed.

Lemma rstrip_head c s :
  is_space c = false -> exists r, rstrip (String c s) = String c r.
Proof.
  intros Ec. rewrite rstrip_cons. destruct (rstrip s); [rewrite Ec|]; by eexists.
Qed.

Lemma lstrip_head s :
  lstrip s = EmptyString \/ exists c s', lstrip s = String c s' /\ is_space c = false.
Proof.
  induction s as [|c s IH]; [by left|].
  cbn [lstrip]. destruct (is_space c) eqn:Ec; [done|]. right. by exists c, s.
Qed.

(** [strip] is idempotent. *)
Lemma strip_idem s : strip (strip s) = strip s.
Proof.
  unfold strip. destruct (lstrip_head s) as [->|(c & s' & -> & Ec)]; [done|].
  destruct (rstrip_head c s' Ec) as [r Er]. rewrite Er at 1.
  cbn [lstrip]. rewrite Ec, <- Er. apply rstrip_idem.
Qed.

Lemma parse_strip spec :
  Parser._parse_path_segments (strip spec) = Parser._parse_path_segments spec.
Proof. unfold Parser._parse_path_segments. by rewrite strip_idem. Qed.

Lemma parse_nonempty spec segs :
  Parser._parse_path_segments spec = Ok segs -> segs <> [] -> strip spec <> EmptyString.
Proof.
  unfold Parser._parse_path_segments. intros P Hne E. rewrite E in P.
  simpl in P. injection P as <-. done.
Qed.

(** [filter_response] with one spec on a dict: a new empty dict, and the
    spec applied to it. *)
Lemma filter_response_single d spec h kvs :
  h !! d = Some (ODict kvs) ->
  strip spec <> EmptyString -> strip spec <> "*" ->
  filter_response (VRef d) [spec] h
  = match _apply_spec (VRef d) (strip spec) (VRef (length h)) (h ++ [ODict []]) with
    | Ok (_, h') => Ok (VRef (length h), h')
    | Raise e => Raise e
    end.
Proof.
  intros Hd Hne Hstar. unfold filter_response, clean_specs.
  destruct (strip spec) as [|c0 s0] eqn:E; [done|]. cbn [nonempty].
  assert (existsb (String.eqb "*") [String c0 s0] = false) as ->.
  { cbn [existsb]. rewrite orb_false_r. apply String.eqb_neq. congruence. }
  unfold bind, get_heap, as_dict. rewrite Hd. unfold alloc.
  cbn [for_each]. unfold bind, ret.
  destruct (_apply_spec (VRef d) (String c0 s0) (VRef (length h)) (h ++ [ODict []]))
    as [[[] h']|e]; done.
Qed.

Lemma filter_response_star d spec h :
  strip spec = "*" -> filter_response (VRef d) [spec] h = Ok (VRef d, h).
Proof.
  intros E. unfold filter_response, clean_specs. rewrite E. done.
Qed.

Lemma buildable_no_collection segs :
  buildable segs = true -> first_index is_collection segs = None.
Proof.
  induction segs as [|seg rest IH]; [done|].
  destruct seg as [k|i| |]; simpl; try done.
  - intros H. by rewrite IH.
  - intros H. apply andb_prop in H as [H Hr]. apply andb_prop in H as [Hi _].
    apply Z.leb_le in Hi. assert ((i <? 0) = false) as -> by (apply Z.ltb_ge; lia).
    by rewrite IH.
Qed.

(** A found path from a dict starts with a key. *)
Lemma get_value_dict_key h d kvs segs x :
  h !! d = Some (ODict kvs) -> segs <> [] ->
  _get_value h (VRef d) segs = (true, x) ->
  starts_with_key segs = true.
Proof.
  intros Hd Hne. destruct segs as [|[k|i| |] rest]; try done.
  cbn [_get_value]. unfold as_list. by rewrite Hd.
Qed.

(** A spec without collection segment whose path is found in the source:
    the path is laid out in the new result dict. *)
Lemma apply_spec_found d spec segs (r : nat) h kvs x :
  Parser._parse_path_segments spec = Ok segs ->
  segs <> [] -> buildable segs = true ->
  h !! d = Some (ODict kvs) ->
  h !! r = Some (ODict []) ->
  _get_value h (VRef d) segs = (true, x) ->
  exists h',
    _apply_spec (VRef d) spec (VRef r) h = Ok (tt, h') /\
    chain (length h) (length h') h' r segs x /\
    (length h <= length h')%nat /\
    (forall a, (a < length h)%nat -> a <> r -> h' !! a = h !! a).
Proof.
  intros P Hne Hb Hd Hr Hg.
  pose proof (get_value_dict_key _ _ _ _ _ Hd Hne Hg) as Hk.
  unfold _apply_spec. rewrite P. unfold bind at 1. unfold lift.
  destruct segs as [|seg rest]; [done|].
  rewrite (buildable_no_collection _ Hb).
  unfold bind, get_heap. rewrite Hg.
  apply set_builds_chain; [done|].
  destruct seg; try done.
Qed.

(** When the path is not found the spec contributes nothing. *)
Lemma apply_spec_not_found d spec segs (r : nat) h x :
  Parser._parse_path_segments spec = Ok segs ->
  buildable segs = true ->
  _get_value h (VRef d) segs = (false, x) ->
  _apply_spec (VRef d) spec (VRef r) h = Ok (tt, h).
Proof.
  intros P Hb Hg. unfold _apply_spec. rewrite P. unfold bind at 1. unfold lift.
  destruct segs as [|seg rest]; [done|].
  rewrite (buildable_no_collection _ Hb).
  unfold bind, get_heap. by rewrite Hg.
Qed.

End SingleSpec.

(** C2 (as amended). For an Object-rooted value and a spec made of keys
    (and non-negative indices) that is found in the source, whatever the case
    of its keys, the projection is a single path of newly created objects and
    every key created in it is the text of the spec's segment: the output is
    named with the casing of the spec, not with the casing of the source. *)
Theorem projection_keys_take_spec_casing
  (h : heap) (d : nat) (kvs : list (string * pyval))
  (spec : string) (segs : list segment) (x : pyval) :
  heap_closed h = true ->
  h !! d = Some (ODict kvs) ->
  Parser._parse_path_segments spec = Ok segs ->
  segs <> [] -> buildable segs = true ->
  PyStr.strip spec <> "*" ->
  _get_value h (VRef d) segs = (true, x) ->
  exists h',
    filter_response (VRef d) [spec] h = Ok (VRef (length h), h') /\
    chain (S (length h)) (length h') h' (length h) segs x.
Proof.
  intros Hc Hd P Hne Hb Hstar Hg.
  rewrite (filter_response_single d spec h kvs Hd (parse_nonempty _ _ P Hne) Hstar).
  assert (d < length h)%nat as Hlt by (by eapply lookup_lt_Some).
  destruct (apply_spec_found d (PyStr.strip spec) segs (length h) (h ++ [ODict []]) kvs x)
    as (h' & -> & Hch & Hlen & Hfr).
  - by rewrite parse_strip.
  - done.
  - done.
  - by rewrite lookup_app_l.
  - rewrite lookup_app_r by lia. by rewrite Nat.sub_diag.
  - rewrite <- Hg. apply get_value_source; [done | | by eapply val_below_ref].
    intros a Ha. by rewrite lookup_app_l.
  - exists h'. split; [done|].
    rewrite List.length_app in Hch. simpl in Hch.
    by replace (length h + 1)%nat with (S (length h)) in Hch by lia.
Qed.

Lemma projection_keys_take_spec_casing_witness :
  exists h',
    filter_response (VRef 0) ["token"] [ODict [("Token", VStr "abc")]]
    = Ok (VRef 1, h') /\
    chain 2 (length h') h' 1 [Key "token"] (VStr "abc").
Proof.
  apply (projection_keys_take_spec_casing [ODict [("Token", VStr "abc")]] 0
           [("Token", VStr "abc")] "token" [Key "token"] (VStr "abc"));
    [reflexivity | reflexivity | reflexivity | discriminate | reflexivity
    | discriminate | reflexivity].
Defined.

(** The example of the claim: the output key is [token], the spec's text. *)
Lemma token_key_is_not_source_cased :
  project (JObj [("Token", JStr "abc")]) ["token"]
  = Ok (Some (JObj [("token", JStr "abc")])) /\
  project (JObj [("Token", JStr "abc")]) ["token"]
  <> Ok (Some (JObj [("Token", JStr "abc")])).
Proof. split; [reflexivity | discriminate]. Qed.

(** C3 (as amended). For an Object and a non-empty path of keys and
    non-negative indices in which no index directly follows an index: when
    extraction of the path from the source finds [x], extraction of the same
    path from the projection finds the very same [x], and the source is left
    as it was. *)
Theorem projection_preserves_simple_path
  (h : heap) (d : nat) (kvs : list (string * pyval))
  (spec : string) (segs : list segment) (x : pyval) :
  heap_closed h = true ->
  h !! d = Some (ODict kvs) ->
  Parser._parse_path_segments spec = Ok segs ->
  segs <> [] -> buildable segs = true ->
  _get_value h (VRef d) segs = (true, x) ->
  exists out h',
    filter_response (VRef d) [spec] h = Ok (out, h') /\
    _get_value h' out segs = (true, x) /\
    (forall a, (a < length h)%nat -> h' !! a = h !! a).
Proof.
  intros Hc Hd P Hne Hb Hg.
  destruct (String.eqb (PyStr.strip spec) "*") eqn:E.
  - apply String.eqb_eq in E. exists (VRef d), h.
    split; [by apply filter_response_star | done].
  - apply String.eqb_neq in E.
    rewrite (filter_response_single d spec h kvs Hd (parse_nonempty _ _ P Hne) E).
    assert (d < length h)%nat as Hlt by (by eapply lookup_lt_Some).
    destruct (apply_spec_found d (PyStr.strip spec) segs (length h) (h ++ [ODict []]) kvs x)
      as (h' & -> & Hch & Hlen & Hfr).
    + by rewrite parse_strip.
    + done.
    + done.
    + by rewrite lookup_app_l.
    + rewrite lookup_app_r by lia. by rewrite Nat.sub_diag.
    + rewrite <- Hg. apply get_value_source; [done | | by eapply val_below_ref].
      intros a Ha. by rewrite lookup_app_l.
    + exists (VRef (length h)), h'. split; [done|]. split.
      * by eapply chain_get_value.
      * intros a Ha. rewrite Hfr; [by rewrite lookup_app_l | | lia].
        rewrite List.length_app. lia.
Qed.

Lemma projection_preserves_simple_path_witness :
  exists out h',
    filter_response (VRef 2) ["user[1].Name"]
      [ODict [("name", VStr "Bob")]; OList [VInt 7; VRef 0]; ODict [("User", VRef 1)]]
    = Ok (out, h') /\
    _get_value h' out [Key "user"; Index 1; Key "Name"] = (true, VStr "Bob") /\
    (forall a, (a < 3)%nat ->
       h' !! a
       = [ODict [("name", VStr "Bob")]; OList [VInt 7; VRef 0]; ODict [("User", VRef 1)]]
           !! a).
Proof.
  apply (projection_preserves_simple_path
           [ODict [("name", VStr "Bob")]; OList [VInt 7; VRef 0]; ODict [("User", VRef 1)]]
           2 [("User", VRef 1)] "user[1].Name" [Key "user"; Index 1; Key "Name"]
           (VStr "Bob"));
    [reflexivity | reflexivity | reflexivity | discriminate | reflexivity | reflexivity].
Defined.

(** The empty path extracts the whole document, and the projection of a spec
    without segments is the empty object. *)
Lemma empty_path_is_not_preserved :
  roundtrip (JObj [("a", JNum 1)]) "."
  = Ok (Some (JObj [("a", JNum 1)]), Some (JObj [])).
Proof. reflexivity. Qed.

(** An index directly after an index is laid out as a dict: the value is
    found in the source and not in the projection. *)
Example index_after_index_is_lost :
  roundtrip (JObj [("a", JArr [JArr [JNum 5; JNum 6]])]) "a[0][1]"
  = Ok (Some (JNum 6), None)
  /\ project (JObj [("a", JArr [JArr [JNum 5; JNum 6]])]) ["a[0][1]"]
    = Ok (Some (JObj [("a", JArr [JObj []])])).
Proof. split; reflexivity. Qed.


Section IterateLoop.
Variables (h : heap) (c : nat) (suffix : list segment) (es : list nat).
Hypothesis Hclosed : heap_closed h = true.
Hypothesis Hb : buildable suffix = true.
Hypothesis Hk : starts_with_key suffix = true.
Hypothesis Hnd : NoDup es.
Hypothesis Hes : forall e, e ∈ es -> (length h <= e)%nat /\ e <> c.

Lemma enumerate_from_cons {A : Type} (i : Z) (x : A) (xs : list A) :
  PyList.enumerate_from i (x :: xs) = (i, x) :: PyList.enumerate_from (i + 1) xs.
Proof. reflexivity. Qed.

(** The loop of the iteration case with a suffix, from position [j0] on.
    The container at [c] holds the padding dicts [es]; each round fills the
    dict of its own position and touches nothing else that exists. *)
Lemma iterate_loop items : forall (j0 : nat) (hj : heap),
  (forall a, (a < length h)%nat -> hj !! a = h !! a) ->
  hj !! c = Some (OList (map VRef es)) ->
  (forall j e, (j < length items)%nat -> es !! (j0 + j)%nat = Some e ->
               hj !! e = Some (ODict [])) ->
  (j0 + length items <= length es)%nat ->
  (forall e, e ∈ es -> (e < length hj)%nat) ->
  Forall (fun item => val_below (length h) item = true) items ->
  exists h',
    for_each (iterate_body c suffix) (PyList.enumerate_from (Z.of_nat j0) items) hj
    = Ok (tt, h') /\
    (length hj <= length h')%nat /\
    (forall a, (a < length hj)%nat ->
               (forall j, (j < length items)%nat -> es !! (j0 + j)%nat <> Some a) ->
               h' !! a = hj !! a) /\
    (forall j item e, items !! j = Some item -> es !! (j0 + j)%nat = Some e ->
       match _get_value h item suffix with
       | (true, value) => chain (length hj) (length h') h' e suffix value
       | (false, _) => h' !! e = Some (ODict [])
       end).
Proof.
  destruct suffix as [|s0 suffix'] eqn:Esuf; [done|]. rewrite <- Esuf in *.
  induction items as [|item items IH]; intros j0 hj Hag Hcj Hfresh Hlen Hbound Hitems.
  { exists hj. split; [done|]. split; [done|]. split; [done|]. intros j item e H. done. }
  rewrite enumerate_from_cons. cbn [for_each].
  apply Forall_cons in Hitems as [Hitem Hitems].
  assert (exists e, es !! j0 = Some e) as [e He].
  { apply lookup_lt_is_Some. simpl in Hlen. lia. }
  assert (e ∈ es) as Hein by (by eapply list_elem_of_lookup_2).
  destruct (Hes e Hein) as [Hge Hnec].
  assert (hj !! e = Some (ODict [])) as Hej.
  { apply (Hfresh 0%nat); [simpl; lia | by rewrite Nat.add_0_r]. }
  assert (_get_value hj item suffix = _get_value h item suffix) as Hgv.
  { by apply get_value_source. }
  (* the state after the round for position [j0] *)
  assert (exists h1,
            iterate_body c suffix (Z.of_nat j0, item) hj = Ok (tt, h1) /\
            (length hj <= length h1)%nat /\
            (forall a, (a < length hj)%nat -> a <> e -> h1 !! a = hj !! a) /\
            match _get_value h item suffix with
            | (true, value) => chain (length hj) (length h1) h1 e suffix value
            | (false, _) => h1 !! e = Some (ODict [])
            end) as (h1 & Hrun & Hlen1 & Hfr1 & Hres1).
  { unfold iterate_body. rewrite Esuf. rewrite <- Esuf.
    unfold bind at 1. unfold get_heap. rewrite Hgv.
    destruct (_get_value h item suffix) as [[|] value].
    - assert (list_getitem c (Z.of_nat j0) hj = Ok (VRef e, hj)) as Hget.
      { eapply list_getitem_run; [done|]. apply getitem_nonneg; [lia|].
        by rewrite Nat2Z.id, list_lookup_fmap, He. }
      rewrite (bind_ok _ _ _ _ _ Hget). cbv beta.
      unfold bind at 1. unfold as_dict. rewrite Hej. unfold bind at 1. unfold ret at 1.
      rewrite (bind_ok _ _ _ _ _ Hget). cbv beta.
      destruct (set_builds_chain suffix e value hj Hb) as (h1 & -> & Hch & Hl & Hfr).
      { rewrite Esuf. rewrite Esuf in Hk. destruct s0; try done. }
      exists h1. done.
    - exists hj. done. }
  rewrite (bind_ok _ _ _ _ _ Hrun). cbv beta.
  replace (Z.of_nat j0 + 1) with (Z.of_nat (S j0)) by lia.
  assert (forall j e', (j < length items)%nat -> es !! (S j0 + j)%nat = Some e' -> e' <> e)
    as Hlater.
  { intros j e' Hj He' ->.
    pose proof (NoDup_lookup _ _ _ _ Hnd He He'). lia. }
  destruct (IH (S j0) h1) as (h' & Hrun' & Hlen' & Hfr' & Hres').
  - intros a Ha. rewrite Hfr1; [by apply Hag | | lia].
    destruct (Hes e Hein). pose proof (Hbound e Hein). lia.
  - rewrite Hfr1; [done | by eapply lookup_lt_Some | done].
  - intros j e' Hj He'. rewrite Hfr1.
    + apply (Hfresh (S j)); [simpl; lia|].
      by replace (j0 + S j)%nat with (S j0 + j)%nat by lia.
    + apply Hbound. by eapply list_elem_of_lookup_2.
    + by eapply Hlater.
  - simpl in Hlen. lia.
  - intros e' He'. pose proof (Hbound e' He'). lia.
  - done.
  - exists h'. split; [done|]. split; [lia|]. split.
    + intros a Ha Hnot. rewrite Hfr'.
      * apply Hfr1; [done|]. intros ->. apply (Hnot 0%nat); [simpl; lia|].
        by rewrite Nat.add_0_r.
      * lia.
      * intros j Hj. replace (S j0 + j)%nat with (j0 + S j)%nat by lia.
        apply Hnot. simpl. lia.
    + intros j item' e' Hitem' He'. destruct j as [|j].
      * simpl in Hitem'. injection Hitem' as <-.
        rewrite Nat.add_0_r in He'. rewrite He in He'. injection He' as <-.
        assert (h' !! e = h1 !! e) as Hsame.
        { apply Hfr'; [pose proof (Hbound e Hein); lia|].
          intros j Hj Hc. by eapply Hlater. }
        destruct (_get_value h item suffix) as [[|] value].
        -- eapply chain_mono; [reflexivity | exact Hlen' |].
           eapply chain_frame; [exact Hres1 | done |].
           intros a [Hlo Ha]. apply Hfr'; [done|].
           intros j Hj Hc.
           assert (a ∈ es) as Hain by (by eapply list_elem_of_lookup_2).
           pose proof (Hbound a Hain). lia.
        -- by rewrite Hsame.
      * simpl in Hitem'.
        replace (j0 + S j)%nat with (S j0 + j)%nat in He' by lia.
        specialize (Hres' j item' e' Hitem' He').
        destruct (_get_value h item' suffix) as [[|] value]; [|done].
        eapply chain_mono; [| |exact Hres']; lia.
Qed.

End IterateLoop.

Section CopyLoop.
Variable (c : nat).

(** The loop of the iteration case without suffix: element [j] of the source
    is stored at position [j] of the container. *)
Lemma copy_loop items : forall (j0 : nat) (hj : heap) (ys : list pyval),
  hj !! c = Some (OList ys) ->
  (j0 + length items <= length ys)%nat ->
  exists ys',
    for_each (iterate_body c []) (PyList.enumerate_from (Z.of_nat j0) items) hj
    = Ok (tt, <[c := OList ys']> hj) /\
    length ys' = length ys /\
    (forall j, (j < length items)%nat -> ys' !! (j0 + j)%nat = items !! j) /\
    (forall j, (j < j0)%nat -> ys' !! j = ys !! j).
Proof.
  induction items as [|item items IH]; intros j0 hj ys Hc Hlen.
  { exists ys. split; [by rewrite list_insert_id|]. split; [done|]. split; [|done].
    intros j Hj. simpl in Hj. lia. }
  rewrite enumerate_from_cons. cbn [for_each]. simpl in Hlen.
  assert (iterate_body c [] (Z.of_nat j0, item) hj
          = Ok (tt, <[c := OList (<[j0 := item]> ys)]> hj)) as Hrun.
  { unfold iterate_body. erewrite list_setitem_run; [done | done |].
    rewrite setitem_nonneg by (rewrite ?Nat2Z.id; lia). by rewrite Nat2Z.id. }
  rewrite (bind_ok _ _ _ _ _ Hrun). cbv beta.
  replace (Z.of_nat j0 + 1) with (Z.of_nat (S j0)) by lia.
  assert (c < length hj)%nat as Hclt by (by eapply lookup_lt_Some).
  destruct (IH (S j0) (<[c := OList (<[j0 := item]> ys)]> hj) (<[j0 := item]> ys))
    as (ys' & Hrun' & Hl' & Hin' & Hout').
  { by apply list_lookup_insert_eq. }
  { rewrite length_insert. lia. }
  exists ys'. split; [by rewrite Hrun', list_insert_insert_eq|].
  split; [by rewrite Hl', length_insert|]. split.
  - intros j Hj. destruct j as [|j].
    + rewrite Nat.add_0_r, Hout' by lia. simpl.
      apply list_lookup_insert_eq. lia.
    + replace (j0 + S j)%nat with (S j0 + j)%nat by lia. simpl.
      apply Hin'. simpl in Hj. lia.
  - intros j Hj. rewrite Hout' by lia. apply list_lookup_insert_ne. lia.
Qed.

End CopyLoop.


Section CollectionSpec.
Implicit Types (h : heap) (d r a : nat) (segs suffix : list segment).

Lemma parse_not_star spec seg1 seg2 rest :
  Parser._parse_path_segments spec = Ok (seg1 :: seg2 :: rest) ->
  PyStr.strip spec <> "*".
Proof.
  intros P E. rewrite <- parse_strip, E in P. discriminate P.
Qed.

Lemma first_index_after_keys ks coll suffix :
  is_collection coll = true ->
  first_index is_collection (map Key ks ++ coll :: suffix) = Some (length ks).
Proof.
  intros Hcoll. induction ks as [|k ks IH]; simpl.
  - by rewrite Hcoll.
  - by rewrite IH.
Qed.

Lemma take_keys ks (rest : list segment) :
  take (length ks) (map Key ks ++ rest) = map Key ks.
Proof.
  rewrite <- (length_map Key ks). apply take_app_length.
Qed.

Lemma nth_after_keys ks coll suffix dflt :
  nth (length ks) (map Key ks ++ coll :: suffix) dflt = coll.
Proof.
  rewrite <- (length_map Key ks). apply nth_middle.
Qed.

Lemma drop_after_keys ks coll suffix :
  drop (S (length ks)) (map Key ks ++ coll :: suffix) = suffix.
Proof.
  rewrite cons_middle, app_assoc.
  replace (S (length ks)) with (length (map Key ks ++ [coll])).
  - apply drop_app_length.
  - rewrite List.length_app, length_map. simpl. lia.
Qed.

Lemma navigate_step_new (r : nat) k h (is_last : bool) :
  h !! r = Some (ODict []) ->
  navigate_step (VRef r) (Key k) is_last h
  = Ok (VRef (length h),
        <[r := ODict [(k, VRef (length h))]]>
          (h ++ [if is_last then OList [] else ODict []])).
Proof.
  intros Hr. assert (r < length h)%nat as Hrlt by (by eapply lookup_lt_Some).
  unfold navigate_step. unfold bind at 1. unfold get_heap at 1.
  unfold as_dict at 1. rewrite Hr.
  change (_ci_get [] k) with (@None (string * pyval)). cbv iota beta.
  unfold bind at 1. unfold alloc at 1. unfold bind at 1.
  erewrite dict_setitem_run by (by rewrite lookup_app_l).
  done.
Qed.

(** The container loop of [_apply_spec] on a prefix of keys, from a new
    empty dict at [r]: it lays out the keys as a chain of new dicts ending in a
    new empty list. *)
Lemma navigate_builds ks : forall r h,
  ks <> [] ->
  h !! r = Some (ODict []) ->
  exists h',
    navigate_prefix (VRef r) (map Key ks) h
    = Ok (VRef (length h + length ks - 1)%nat, h') /\
    length h' = (length h + length ks)%nat /\
    chain (length h) (length h + length ks - 1) h' r (map Key ks)
      (VRef (length h + length ks - 1)%nat) /\
    h' !! (length h + length ks - 1)%nat = Some (OList []) /\
    (forall b, (b < length h)%nat -> b <> r -> h' !! b = h !! b).
Proof.
  induction ks as [|k ks IH]; intros r h Hne Hr; [done|].
  assert (r < length h)%nat as Hrlt by (by eapply lookup_lt_Some).
  destruct ks as [|k2 ks].
  - (* the last key: a new list *)
    cbn [map navigate_prefix length].
    rewrite (bind_ok _ _ _ _ _ (navigate_step_new r k h true Hr)). cbv beta.
    unfold ret.
    replace (length h + 1 - 1)%nat with (length h) by lia.
    eexists. split; [done|]. split; [|split; [|split]].
    + rewrite length_insert, List.length_app. simpl. lia.
    + cbn [chain]. apply list_lookup_insert_eq. rewrite List.length_app. lia.
    + rewrite list_lookup_insert_ne by lia. rewrite lookup_app_r by lia.
      by rewrite Nat.sub_diag.
    + intros b Hb Hne'. rewrite list_lookup_insert_ne by done. by rewrite lookup_app_l.
  - (* an inner key: a new dict, then the rest *)
    change (map Key (k :: k2 :: ks)) with (Key k :: map Key (k2 :: ks)).
    cbn [navigate_prefix].
    assert (match map Key (k2 :: ks) with [] => true | _ :: _ => false end = false) as ->
      by done.
    rewrite (bind_ok _ _ _ _ _ (navigate_step_new r k h false Hr)). cbv beta.
    set (h1 := <[r:=ODict [(k, VRef (length h))]]> (h ++ [ODict []])).
    assert (length h1 = S (length h)) as Hl1.
    { unfold h1. rewrite length_insert, List.length_app. simpl. lia. }
    destruct (IH (length h) h1) as (h' & Hrun & Hlen & Hch & Hc & Hfr); [done | |].
    { unfold h1. rewrite list_lookup_insert_ne by lia. rewrite lookup_app_r by lia.
      by rewrite Nat.sub_diag. }
    rewrite Hl1 in *. cbn [length] in *.
    replace (length h + S (S (length ks)) - 1)%nat
      with (S (length h) + S (length ks) - 1)%nat by lia.
    exists h'. split; [exact Hrun|]. split; [lia|]. split; [|split; [done|]].
    + change (exists c, h' !! r = Some (ODict [(k, VRef c)]) /\
                (length h <= c < S (length h) + S (length ks) - 1)%nat /\
                chain (length h) (S (length h) + S (length ks) - 1) h' c
                  (map Key (k2 :: ks))
                  (VRef (S (length h) + S (length ks) - 1)%nat)).
      exists (length h). split; [|split; [lia|]].
      * rewrite Hfr by lia. unfold h1. apply list_lookup_insert_eq.
        rewrite List.length_app. lia.
      * eapply chain_mono; [| |exact Hch]; lia.
    + intros b Hb Hne'. rewrite Hfr by lia. unfold h1.
      rewrite list_lookup_insert_ne by done. by rewrite lookup_app_l.
Qed.

(** On a chain of keys already in the result, the container loop walks to
    its end and changes nothing. *)
Lemma navigate_on_chain lo hi h ks : forall r c,
  chain lo hi h r (map Key ks) (VRef c) ->
  navigate_prefix (VRef r) (map Key ks) h = Ok (VRef c, h).
Proof.
  assert (forall (r : nat) k v (b : bool),
            h !! r = Some (ODict [(k, v)]) ->
            navigate_step (VRef r) (Key k) b h = Ok (v, h)) as Hstep.
  { intros r k v b Hr. unfold navigate_step. unfold bind at 1. unfold get_heap at 1.
    unfold as_dict at 1. rewrite Hr.
    unfold _ci_get. cbn [PyDict.lookup]. by rewrite String.eqb_refl. }
  induction ks as [|k ks IH]; intros r c Hch; [done|].
  destruct ks as [|k2 ks].
  - cbn [map chain] in Hch. cbn [map navigate_prefix].
    by rewrite (bind_ok _ _ _ _ _ (Hstep r k (VRef c) true Hch)).
  - change (exists m, h !! r = Some (ODict [(k, VRef m)]) /\ (lo <= m < hi)%nat /\
              chain lo hi h m (map Key (k2 :: ks)) (VRef c)) in Hch.
    destruct Hch as (m & Hr & _ & Hch).
    change (map Key (k :: k2 :: ks)) with (Key k :: map Key (k2 :: ks)).
    cbn [navigate_prefix].
    rewrite (bind_ok _ _ _ _ _ (Hstep r k (VRef m) _ Hr)). cbv beta.
    by apply IH.
Qed.

(** A spec made of keys, a collection segment and a suffix. When the keys
    lead to a list with a non-empty selection, the keys are laid out from the
    result dict at [r], still empty, down to a new list, and the loop over the
    selected pairs runs on that list. *)
Lemma apply_spec_collection d spec ks coll suffix r h a xs p pairs :
  Parser._parse_path_segments spec = Ok (map Key ks ++ coll :: suffix) ->
  ks <> [] ->
  is_collection coll = true ->
  _get_value h (VRef d) (map Key ks) = (true, VRef a) ->
  h !! a = Some (OList xs) ->
  _resolve_list_segment xs coll = p :: pairs ->
  h !! r = Some (ODict []) ->
  exists h1,
    let c := (length h + length ks - 1)%nat in
    length h1 = (length h + length ks)%nat /\
    chain (length h) c h1 r (map Key ks) (VRef c) /\
    h1 !! c = Some (OList []) /\
    (forall b, (b < length h)%nat -> b <> r -> h1 !! b = h !! b) /\
    _apply_spec (VRef d) spec (VRef r) h
    = (match coll with
       | Iterate =>
           let* n_arr := list_len a in
           let* n_c := list_len c in
           append_new_dicts (Z.to_nat (n_arr - n_c)) c ;;
           for_each (iterate_body c suffix) (p :: pairs)
       | _ => for_each (slice_body c suffix) (p :: pairs)
       end) h1.
Proof.
  intros P Hks Hcoll Hg Ha Hpairs Hr.
  destruct (navigate_builds ks r h Hks Hr) as (h1 & Hnav & Hl1 & Hch & Hc1 & Hfr).
  exists h1. cbv zeta. split; [done|]. split; [done|]. split; [done|]. split; [done|].
  unfold _apply_spec. rewrite P. unfold bind at 1. unfold lift.
  destruct (map Key ks ++ coll :: suffix) as [|seg0 segs0] eqn:Esegs.
  { destruct ks; done. }
  rewrite <- Esegs.
  rewrite (first_index_after_keys ks coll suffix Hcoll).
  rewrite take_keys, nth_after_keys, drop_after_keys.
  unfold bind at 1. unfold get_heap. rewrite Hg.
  cbn [negb]. unfold as_list at 1. rewrite Ha, Hpairs.
  rewrite (bind_ok _ _ _ _ _ Hnav). cbv beta.
  unfold bind at 1. unfold as_list at 1. rewrite Hc1.
  done.
Qed.

Lemma keys_then_collection_not_star spec ks coll suffix :
  Parser._parse_path_segments spec = Ok (map Key ks ++ coll :: suffix) ->
  ks <> [] ->
  PyStr.strip spec <> "*".
Proof.
  intros P Hks. destruct ks as [|k [|k2 ks]]; [done | |].
  - exact (parse_not_star spec (Key k) coll suffix P).
  - exact (parse_not_star spec (Key k) (Key k2) (map Key ks ++ coll :: suffix) P).
Qed.

End CollectionSpec.

(** The iteration case of [_apply_spec] on a new, empty result dict. *)
Lemma apply_spec_iterate
  (h : heap) (d : nat) (kvs : list (string * pyval)) (spec : string)
  (ks : list string) (suffix : list segment) (a : nat) (xs : list pyval) :
  heap_closed h = true ->
  h !! d = Some (ODict kvs) ->
  Parser._parse_path_segments spec = Ok (map Key ks ++ Iterate :: suffix) ->
  ks <> [] ->
  _get_value h (VRef d) (map Key ks) = (true, VRef a) ->
  h !! a = Some (OList xs) ->
  xs <> [] ->
  suffix = [] \/ (buildable suffix = true /\ starts_with_key suffix = true) ->
  exists h' ys,
    let c := (length h + length ks)%nat in
    _apply_spec (VRef d) spec (VRef (length h)) (h ++ [ODict []]) = Ok (tt, h') /\
    chain (S (length h)) c h' (length h) (map Key ks) (VRef c) /\
    h' !! c = Some (OList ys) /\
    length ys = length xs /\
    (forall b, (b < length h)%nat -> h' !! b = h !! b) /\
    (forall j item, xs !! j = Some item ->
       match suffix with
       | [] => ys !! j = Some item
       | _ :: _ =>
           exists e, ys !! j = Some (VRef e) /\ (c < e)%nat /\
             match _get_value h item suffix with
             | (true, value) => chain (S c) (length h') h' e suffix value
             | (false, _) => h' !! e = Some (ODict [])
             end
       end).
Proof.
  intros Hc Hd P Hks Hg Ha Hne Hsuf.
  assert (d < length h)%nat as Hdlt by (by eapply lookup_lt_Some).
  assert (a < length h)%nat as Halt by (by eapply lookup_lt_Some).
  assert (1 <= length ks)%nat as Hlk by (destruct ks; [done | simpl; lia]).
  destruct xs as [|x0 xs0] eqn:Exs; [done|]. rewrite <- Exs in *.
  assert (_resolve_list_segment xs Iterate
          = (0, x0) :: PyList.enumerate_from 1 xs0) as Hpairs.
  { rewrite Exs. reflexivity. }
  set (r := length h).
  set (h0 := h ++ [ODict []]).
  assert (length h0 = S r) as Hl0 by (unfold h0; rewrite List.length_app; simpl; lia).
  assert (_get_value h0 (VRef d) (map Key ks) = (true, VRef a)) as Hg0.
  { rewrite <- Hg. apply get_value_source; [done | | by eapply val_below_ref].
    intros b Hb. unfold h0. by rewrite lookup_app_l. }
  assert (h0 !! a = Some (OList xs)) as Ha0 by (unfold h0; by rewrite lookup_app_l).
  assert (h0 !! r = Some (ODict [])) as Hr0.
  { unfold h0, r. rewrite lookup_app_r by lia. by rewrite Nat.sub_diag. }
  destruct (apply_spec_collection d spec ks Iterate suffix r h0 a xs
              (0, x0) (PyList.enumerate_from 1 xs0) P Hks eq_refl Hg0 Ha0 Hpairs Hr0)
    as (h1 & H).
  cbv zeta in H. rewrite Hl0 in H.
  replace (S r + length ks - 1)%nat with (r + length ks)%nat in H by lia.
  replace (S r + length ks)%nat with (S (r + length ks)) in H by lia.
  set (c := (r + length ks)%nat) in *.
  destruct H as (Hl1 & Hch1 & Hc1 & Hfr1 & ->).
  cbv zeta. rewrite <- Hpairs.
  change (_resolve_list_segment xs Iterate) with (PyList.enumerate_from (Z.of_nat 0) xs).
  assert (forall b, (b < r)%nat -> h1 !! b = h !! b) as Hag1.
  { intros b Hb. rewrite Hfr1 by lia. unfold h0. by rewrite lookup_app_l. }
  (* the prefix only depends on the objects below [c] *)
  assert (forall h'', (forall b, (b < c)%nat -> h'' !! b = h1 !! b) ->
            chain (S r) c h'' r (map Key ks) (VRef c)) as Hpre.
  { intros h'' Hsame. eapply chain_frame; [exact Hch1 | |].
    - apply Hsame. unfold c. lia.
    - intros b Hb. apply Hsame. lia. }
  (* padding *)
  unfold bind at 1. unfold list_len at 1. rewrite (Hag1 a Halt), Ha.
  unfold bind at 1. unfold list_len at 1. rewrite Hc1.
  cbn [length]. rewrite Z.sub_0_r, Nat2Z.id.
  set (n := length xs).
  erewrite bind_ok by (by apply append_new_dicts_run).
  rewrite app_nil_l, Hl1.
  set (es := seq (S c) n).
  set (h2 := <[c := OList (map VRef es)]> (h1 ++ replicate n (ODict []))).
  assert (length h2 = (S c + n)%nat) as Hl2.
  { unfold h2. by rewrite length_insert, List.length_app, length_replicate, Hl1. }
  assert (forall b, (b < c)%nat -> h2 !! b = h1 !! b) as Hag2.
  { intros b Hb. unfold h2. rewrite list_lookup_insert_ne by lia.
    rewrite lookup_app_l; [done | lia]. }
  assert (h2 !! c = Some (OList (map VRef es))) as Hc2.
  { unfold h2. apply list_lookup_insert_eq. rewrite List.length_app. lia. }
  assert (forall e, e ∈ es -> h2 !! e = Some (ODict [])) as Hes2.
  { intros e He. apply elem_of_seq in He. unfold h2.
    rewrite list_lookup_insert_ne by lia. rewrite lookup_app_r by lia.
    apply lookup_replicate_2. lia. }
  assert (forall b, (b < r)%nat -> h2 !! b = h !! b) as Hsrc2.
  { intros b Hb. rewrite Hag2 by (unfold c; lia). by apply Hag1. }
  assert (Forall (fun item => val_below (length h) item = true) xs) as Hxs.
  { apply Forall_forall. intros item Hin.
    eapply list_val_below; [|exact Hin]. by eapply heap_closed_obj. }
  destruct Hsuf as [->|[Hb Hk]].
  - (* no suffix: the elements themselves *)
    destruct (copy_loop c xs 0 h2 (map VRef es) Hc2) as (ys & -> & Hlys & Hin & _).
    { unfold es. rewrite length_map, length_seq. simpl. lia. }
    exists (<[c := OList ys]> h2), ys. split; [done|].
    split; [|split; [|split; [|split]]].
    + apply Hpre. intros b Hb. rewrite list_lookup_insert_ne by lia. by apply Hag2.
    + apply list_lookup_insert_eq. lia.
    + rewrite Hlys. unfold es. by rewrite length_map, length_seq.
    + intros b Hb. rewrite list_lookup_insert_ne by (unfold c, r; lia).
      by apply Hsrc2.
    + intros j item Hj. rewrite <- Hj. apply (Hin j). by eapply lookup_lt_Some.
  - (* a suffix: one new dict per position *)
    destruct (iterate_loop h c suffix es Hc Hb Hk) with (items := xs) (j0 := 0%nat) (hj := h2)
      as (h' & -> & Hlen' & Hfr' & Hres').
    + apply NoDup_seq.
    + intros e He. apply elem_of_seq in He. unfold c, r in *. lia.
    + done.
    + done.
    + intros j e Hj He. apply Hes2. by eapply list_elem_of_lookup_2.
    + unfold es. rewrite length_seq. simpl. lia.
    + intros e He. apply elem_of_seq in He. lia.
    + done.
    + assert (forall b, (b <= c)%nat -> h' !! b = h2 !! b) as Hlow.
      { intros b Hb'. apply Hfr'; [lia|]. intros j Hj He.
        apply list_elem_of_lookup_2, elem_of_seq in He. lia. }
      exists h', (map VRef es). split; [done|].
      split; [|split; [|split; [|split]]].
      * apply Hpre. intros b Hb'. rewrite Hlow by lia. by apply Hag2.
      * by rewrite Hlow.
      * unfold es. by rewrite length_map, length_seq.
      * intros b Hb'. rewrite Hlow by (unfold c, r; lia). by apply Hsrc2.
      * intros j item Hj.
        assert (j < n)%nat as Hjn by (by eapply lookup_lt_Some).
        assert (es !! j = Some (S c + j)%nat) as Hej by (by apply lookup_seq_lt).
        specialize (Hres' j item (S c + j)%nat Hj Hej).
        destruct suffix as [|s0 suffix'] eqn:Esuf; [done|]. rewrite <- Esuf in *.
        exists (S c + j)%nat. split; [by rewrite list_lookup_fmap, Hej|].
        split; [lia|].
        destruct (_get_value h item suffix) as [[|] value]; [|done].
        eapply chain_mono; [| |exact Hres']; lia.
Qed.

(** C4 (as amended). Take an Object and a spec made of one or more keys, the
    iteration marker and a suffix (empty, or a path of keys and non-negative
    indices starting with a key, no index directly after an index), where the
    keys lead, in the source, to a non-empty array. The projection is the
    chain of the spec's keys, laid out in new objects and ending in a new
    array as long as the source array. Without suffix, position [j] holds
    element [j] of the source itself. With a suffix, position [j] holds a new
    dict: the suffix path laid out with the extracted value when the suffix is
    found in element [j], the empty dict when it is not. The source is left as
    it was. *)
Theorem iterate_spec_is_aligned
  (h : heap) (d : nat) (kvs : list (string * pyval)) (spec : string)
  (ks : list string) (suffix : list segment) (a : nat) (xs : list pyval) :
  heap_closed h = true ->
  h !! d = Some (ODict kvs) ->
  Parser._parse_path_segments spec = Ok (map Key ks ++ Iterate :: suffix) ->
  ks <> [] ->
  _get_value h (VRef d) (map Key ks) = (true, VRef a) ->
  h !! a = Some (OList xs) ->
  xs <> [] ->
  suffix = [] \/ (buildable suffix = true /\ starts_with_key suffix = true) ->
  exists h' ys,
    let c := (length h + length ks)%nat in
    filter_response (VRef d) [spec] h = Ok (VRef (length h), h') /\
    chain (S (length h)) c h' (length h) (map Key ks) (VRef c) /\
    h' !! c = Some (OList ys) /\
    length ys = length xs /\
    (forall b, (b < length h)%nat -> h' !! b = h !! b) /\
    (forall j item, xs !! j = Some item ->
       match suffix with
       | [] => ys !! j = Some item
       | _ :: _ =>
           exists e, ys !! j = Some (VRef e) /\ (c < e)%nat /\
             match _get_value h item suffix with
             | (true, value) => chain (S c) (length h') h' e suffix value
             | (false, _) => h' !! e = Some (ODict [])
             end
       end).
Proof.
  intros Hc Hd P Hks Hg Ha Hne Hsuf.
  rewrite (filter_response_single d spec h kvs Hd).
  2: { eapply parse_nonempty; [exact P | by destruct ks]. }
  2: { by eapply keys_then_collection_not_star. }
  destruct (apply_spec_iterate h d kvs (PyStr.strip spec) ks suffix a xs)
    as (h' & ys & H); try done.
  - by rewrite parse_strip.
  - cbv zeta in H. destruct H as (-> & H). by exists h', ys.
Qed.


Lemma iterate_spec_is_aligned_witness :
  exists h' ys,
    filter_response (VRef 3) ["data[].id"]
      [ODict [("id", VInt 1); ("name", VStr "A")];
       ODict [("id", VInt 2); ("name", VStr "B")];
       OList [VRef 0; VRef 1];
       ODict [("data", VRef 2)]]
    = Ok (VRef 4, h') /\
    h' !! 4%nat = Some (ODict [("data", VRef 5)]) /\
    h' !! 5%nat = Some (OList ys) /\
    length ys = 2%nat.
Proof.
  destruct (iterate_spec_is_aligned
              [ODict [("id", VInt 1); ("name", VStr "A")];
               ODict [("id", VInt 2); ("name", VStr "B")];
               OList [VRef 0; VRef 1];
               ODict [("data", VRef 2)]]
              3 [("data", VRef 2)] "data[].id" ["data"] [Key "id"] 2
              [VRef 0; VRef 1])
    as (h' & ys & Hrun & Hr & Hc & Hlen & _);
    [reflexivity | reflexivity | reflexivity | discriminate | reflexivity
    | reflexivity | discriminate | right; split; reflexivity |].
  exists h', ys. done.
Defined.

(** The example of the claim. *)
Example iterate_alignment_example :
  project (JObj [("data", JArr [JObj [("id", JNum 1); ("name", JStr "A")];
                                JObj [("id", JNum 2); ("name", JStr "B")]])])
    ["data[].id"]
  = Ok (Some (JObj [("data", JArr [JObj [("id", JNum 1)]; JObj [("id", JNum 2)]])])).
Proof. reflexivity. Qed.

(** The same below a nested key. *)
Example iterate_nested_prefix_example :
  project (JObj [("page", JObj [("items", JArr [JObj [("id", JNum 1); ("x", JNum 0)];
                                                 JObj [("id", JNum 2)]])])])
    ["page.items[].id"]
  = Ok (Some (JObj [("page", JObj [("items", JArr [JObj [("id", JNum 1)];
                                                    JObj [("id", JNum 2)]])])])).
Proof. reflexivity. Qed.

(** Elements without the field keep their place as empty objects. *)
Example iterate_missing_field_example :
  project (JObj [("data", JArr [JObj [("id", JNum 1)]; JObj [("x", JNum 2)]])])
    ["data[].x"]
  = Ok (Some (JObj [("data", JArr [JObj []; JObj [("x", JNum 2)]])])).
Proof. reflexivity. Qed.

(** An empty source array has an empty selection, and the spec contributes
    nothing: no output array is produced at all. *)
Lemma iterate_empty_array_gives_no_array :
  project (JObj [("data", JArr [])]) ["data[]"] = Ok (Some (JObj [])) /\
  project (JObj [("data", JArr [])]) ["data[]"]
  <> Ok (Some (JObj [("data", JArr [])])).
Proof. split; [reflexivity | discriminate]. Qed.

(** A negative index inside the suffix is found by extraction and cannot be
    written into the new list: the call raises. *)
Example iterate_negative_suffix_raises :
  project (JObj [("data", JArr [JObj [("tags", JArr [JNum 1; JNum 2])]])])
    ["data[].tags[-1]"]
  = Raise IndexError.
Proof. reflexivity. Qed.

Section SliceLoop.
Variables (h : heap) (c : nat) (suffix : list segment).
Hypothesis Hclosed : heap_closed h = true.
Hypothesis Hb : buildable suffix = true.
Hypothesis Hk : starts_with_key suffix = true.
Hypothesis Hcge : (length h <= c)%nat.

Lemma found_values_cons j item pairs :
  found_values h suffix ((j, item) :: pairs)
  = match _get_value h item suffix with
    | (true, value) => value :: found_values h suffix pairs
    | (false, _) => found_values h suffix pairs
    end.
Proof.
  unfold found_values. cbn [omap list_omap snd].
  by destruct (_get_value h item suffix) as [[|] value].
Qed.

(** The loop of the slice case with a suffix: each selected element in which
    the suffix is found appends one new dict, the suffix path laid out in it;
    the other elements append nothing. *)
Lemma slice_loop pairs : forall (hj : heap) (ys0 : list pyval),
  (forall a, (a < length h)%nat -> hj !! a = h !! a) ->
  (length h <= length hj)%nat ->
  hj !! c = Some (OList ys0) ->
  Forall (fun p => val_below (length h) (snd p) = true) pairs ->
  exists h' es,
    for_each (slice_body c suffix) pairs hj = Ok (tt, h') /\
    h' !! c = Some (OList (ys0 ++ map VRef es)) /\
    (length hj <= length h')%nat /\
    (forall a, (a < length hj)%nat -> a <> c -> h' !! a = hj !! a) /\
    Forall2 (fun e value => (length hj <= e)%nat /\
                            chain (length hj) (length h') h' e suffix value)
      es (found_values h suffix pairs).
Proof.
  destruct suffix as [|s0 suffix'] eqn:Esuf; [done|]. rewrite <- Esuf in *.
  induction pairs as [|[j item] pairs IH]; intros hj ys0 Hag Hge Hc Hitems.
  { exists hj, []. split; [done|]. rewrite app_nil_r. split; [done|].
    split; [done|]. split; [done|]. constructor. }
  cbn [for_each]. rewrite found_values_cons.
  apply Forall_cons in Hitems as [Hitem Hitems]. simpl in Hitem.
  assert (c < length hj)%nat as Hclt by (by eapply lookup_lt_Some).
  assert (_get_value hj item suffix = _get_value h item suffix) as Hgv.
  { by apply get_value_source. }
  destruct (_get_value h item suffix) as [[|] value] eqn:Eg.
  - (* found: a new entry *)
    set (e := length hj).
    set (h1 := hj ++ [ODict []]).
    destruct (set_builds_chain suffix e value h1 Hb) as (h2 & Hset & Hch & Hl2 & Hfr2).
    { rewrite Esuf. rewrite Esuf in Hk. destruct s0; try done.
      unfold h1, e. rewrite lookup_app_r by lia. by rewrite Nat.sub_diag. }
    assert (length h1 = S e) as Hl1 by (unfold h1; rewrite List.length_app; simpl; lia).
    assert (h2 !! c = Some (OList ys0)) as Hc2.
    { rewrite Hfr2 by lia. unfold h1. by rewrite lookup_app_l. }
    set (h3 := <[c := OList (ys0 ++ [VRef e])]> h2).
    assert (slice_body c suffix (j, item) hj = Ok (tt, h3)) as Hrun.
    { unfold slice_body. rewrite Esuf. rewrite <- Esuf.
      unfold bind at 1. unfold get_heap. rewrite Hgv.
      unfold bind at 1. unfold alloc. fold e. fold h1.
      rewrite (bind_ok _ _ _ _ _ Hset). cbv beta.
      by apply list_append_run. }
    rewrite (bind_ok _ _ _ _ _ Hrun). cbv beta.
    destruct (IH h3 (ys0 ++ [VRef e])) as (h' & es & Hrun' & Hc' & Hl' & Hfr' & Hall).
    + intros a Ha. unfold h3. rewrite list_lookup_insert_ne by lia.
      rewrite Hfr2 by lia. unfold h1. rewrite lookup_app_l by lia. by apply Hag.
    + unfold h3. rewrite length_insert. lia.
    + unfold h3. apply list_lookup_insert_eq. lia.
    + done.
    + assert (length h3 = length h2) as Hl3 by (unfold h3; by rewrite length_insert).
      exists h', (e :: es). split; [done|]. split.
      { rewrite Hc'. by rewrite <- app_assoc. }
      split; [lia|]. split.
      { intros a Ha Hne. rewrite Hfr' by lia. unfold h3.
        rewrite list_lookup_insert_ne by done. rewrite Hfr2 by lia.
        unfold h1. by rewrite lookup_app_l. }
      constructor.
      * split; [unfold e; lia|].
        eapply chain_mono with (lo' := length h1) (hi' := length h2); [lia | lia |].
        eapply chain_frame; [exact Hch | |].
        -- rewrite Hfr' by lia. unfold h3. by rewrite list_lookup_insert_ne by lia.
        -- intros a [Hlo Ha]. rewrite Hfr' by lia. unfold h3.
           by rewrite list_lookup_insert_ne by lia.
      * eapply Forall2_impl; [exact Hall|]. intros e' v' [He' Hch']. split; [lia|].
        eapply chain_mono; [| |exact Hch']; lia.
  - (* not found: nothing is appended *)
    assert (slice_body c suffix (j, item) hj = Ok (tt, hj)) as Hrun.
    { unfold slice_body. rewrite Esuf. rewrite <- Esuf.
      unfold bind at 1. unfold get_heap. by rewrite Hgv. }
    rewrite (bind_ok _ _ _ _ _ Hrun). cbv beta.
    by apply IH.
Qed.

End SliceLoop.

(** The loop of the slice case without suffix appends the selected elements
    themselves. *)
Lemma slice_copy_loop (c : nat) pairs : forall (hj : heap) (ys0 : list pyval),
  hj !! c = Some (OList ys0) ->
  for_each (slice_body c []) pairs hj
  = Ok (tt, <[c := OList (ys0 ++ map snd pairs)]> hj).
Proof.
  induction pairs as [|[j item] pairs IH]; intros hj ys0 Hc.
  { simpl. unfold ret. by rewrite app_nil_r, list_insert_id. }
  cbn [for_each].
  assert (c < length hj)%nat as Hclt by (by eapply lookup_lt_Some).
  erewrite bind_ok; cycle 1.
  { unfold slice_body. by apply list_append_run. }
  cbv beta. erewrite IH by (by apply list_lookup_insert_eq).
  rewrite list_insert_insert_eq, <- app_assoc. done.
Qed.

Lemma resolve_elem xs coll j item :
  (j, item) ∈ _resolve_list_segment xs coll -> item ∈ xs.
Proof.
  destruct coll as [k|i| |start stop]; simpl.
  - intros H. inversion H.
  - destruct (PyList.getitem xs i) eqn:E; [|intros H; inversion H].
    intros H. apply list_elem_of_singleton in H. injection H as _ ->.
    by eapply getitem_elem.
  - generalize 0. induction xs as [|x xs IH]; intros z; simpl; [intros H; inversion H|].
    intros H. apply elem_of_cons in H as [[= _ ->]|H]; [left | right; eauto].
  - unfold PyList.getslice.
    destruct (PyList.slice_indices (Z.of_nat (length xs)) start stop) as [lo hi].
    generalize (PyList.range lo hi).
    assert (forall (l : list Z) (ys : list pyval), (j, item) ∈ PyList.zip l ys -> item ∈ ys)
      as Hzip.
    { induction l as [|z l IH]; intros [|y ys]; simpl; try (intros H; by inversion H).
      intros H. apply elem_of_cons in H as [[= _ ->]|H]; [left | right; eauto]. }
    intros l H. apply Hzip in H.
    apply subseteq_take in H. by apply subseteq_drop in H.
Qed.

(** C5 (as amended). Take an Object and a spec made of one or more keys, a
    slice or a negative index as collection point, and a suffix (empty, or a
    path of keys and non-negative indices starting with a key, no index
    directly after an index), where the keys lead, in the source, to an array
    in which the selection is not empty. The projection is the chain of the
    spec's keys, laid out in new objects and ending in a new, compact array.
    Without suffix the array holds the selected elements themselves, in
    selection order. With a suffix it holds one new dict for each selected
    element in which the suffix is found, the suffix path laid out in it with
    the extracted value, and nothing for the elements in which it is not
    found. No padding takes place and source indices play no role. The source
    is left as it was. *)
Theorem slice_spec_is_compact
  (h : heap) (d : nat) (kvs : list (string * pyval)) (spec : string)
  (ks : list string) (coll : segment) (suffix : list segment)
  (a : nat) (xs : list pyval) :
  heap_closed h = true ->
  h !! d = Some (ODict kvs) ->
  Parser._parse_path_segments spec = Ok (map Key ks ++ coll :: suffix) ->
  ks <> [] ->
  is_collection coll = true -> coll <> Iterate ->
  _get_value h (VRef d) (map Key ks) = (true, VRef a) ->
  h !! a = Some (OList xs) ->
  _resolve_list_segment xs coll <> [] ->
  suffix = [] \/ (buildable suffix = true /\ starts_with_key suffix = true) ->
  exists h' ys,
    let c := (length h + length ks)%nat in
    filter_response (VRef d) [spec] h = Ok (VRef (length h), h') /\
    chain (S (length h)) c h' (length h) (map Key ks) (VRef c) /\
    h' !! c = Some (OList ys) /\
    (forall b, (b < length h)%nat -> h' !! b = h !! b) /\
    match suffix with
    | [] => ys = map snd (_resolve_list_segment xs coll)
    | _ :: _ =>
        exists es, ys = map VRef es /\
          Forall2 (fun e value => (c < e)%nat /\
                                  chain (S c) (length h') h' e suffix value)
            es (found_values h suffix (_resolve_list_segment xs coll))
    end.
Proof.
  intros Hc Hd P Hks Hcoll Hnit Hg Ha Hne Hsuf.
  assert (d < length h)%nat as Hdlt by (by eapply lookup_lt_Some).
  assert (a < length h)%nat as Halt by (by eapply lookup_lt_Some).
  assert (1 <= length ks)%nat as Hlk by (destruct ks; [done | simpl; lia]).
  rewrite (filter_response_single d spec h kvs Hd).
  2: { eapply parse_nonempty; [exact P | by destruct ks]. }
  2: { by eapply keys_then_collection_not_star. }
  destruct (_resolve_list_segment xs coll) as [|p ps] eqn:Hpairs; [done|].
  set (r := length h).
  set (h0 := h ++ [ODict []]).
  assert (length h0 = S r) as Hl0 by (unfold h0; rewrite List.length_app; simpl; lia).
  assert (_get_value h0 (VRef d) (map Key ks) = (true, VRef a)) as Hg0.
  { rewrite <- Hg. apply get_value_source; [done | | by eapply val_below_ref].
    intros b Hb. unfold h0. by rewrite lookup_app_l. }
  assert (h0 !! a = Some (OList xs)) as Ha0 by (unfold h0; by rewrite lookup_app_l).
  assert (h0 !! r = Some (ODict [])) as Hr0.
  { unfold h0, r. rewrite lookup_app_r by lia. by rewrite Nat.sub_diag. }
  assert (Parser._parse_path_segments (PyStr.strip spec)
          = Ok (map Key ks ++ coll :: suffix)) as P' by (by rewrite parse_strip).
  destruct (apply_spec_collection d (PyStr.strip spec) ks coll suffix r h0 a xs p ps
              P' Hks Hcoll Hg0 Ha0 Hpairs Hr0) as (h1 & H).
  cbv zeta in H. rewrite Hl0 in H.
  replace (S r + length ks - 1)%nat with (r + length ks)%nat in H by lia.
  replace (S r + length ks)%nat with (S (r + length ks)) in H by lia.
  set (c := (r + length ks)%nat) in *.
  destruct H as (Hl1 & Hch1 & Hc1 & Hfr1 & ->).
  cbv zeta.
  assert (forall b, (b < r)%nat -> h1 !! b = h !! b) as Hag1.
  { intros b Hb. rewrite Hfr1 by lia. unfold h0. by rewrite lookup_app_l. }
  assert (forall h'', (forall b, (b < c)%nat -> h'' !! b = h1 !! b) ->
            chain (S r) c h'' r (map Key ks) (VRef c)) as Hpre.
  { intros h'' Hsame. eapply chain_frame; [exact Hch1 | |].
    - apply Hsame. unfold c. lia.
    - intros b Hb. apply Hsame. lia. }
  assert (match coll with
          | Iterate =>
              let* n_arr := list_len a in
              let* n_c := list_len c in
              append_new_dicts (Z.to_nat (n_arr - n_c)) c ;;
              for_each (iterate_body c suffix) (p :: ps)
          | _ => for_each (slice_body c suffix) (p :: ps)
          end = for_each (slice_body c suffix) (p :: ps)) as ->.
  { by destruct coll. }
  destruct Hsuf as [->|[Hb Hk]].
  - rewrite (slice_copy_loop c (p :: ps) h1 [] Hc1). rewrite app_nil_l.
    eexists _, _. split; [done|]. split; [|split; [|split]].
    + apply Hpre. intros b Hb. by rewrite list_lookup_insert_ne by lia.
    + apply list_lookup_insert_eq. lia.
    + intros b Hb. rewrite list_lookup_insert_ne by (unfold c, r; lia). by apply Hag1.
    + done.
  - destruct (slice_loop h c suffix Hc Hb Hk) with (pairs := p :: ps) (hj := h1)
      (ys0 := @nil pyval) as (h' & es & -> & Hc' & Hl' & Hfr' & Hall).
    + unfold c, r. lia.
    + done.
    + lia.
    + done.
    + apply Forall_forall. intros [j item] Hin. simpl.
      rewrite <- Hpairs in Hin. apply resolve_elem in Hin.
      eapply list_val_below; [|exact Hin]. by eapply heap_closed_obj.
    + exists h', (map VRef es). split; [done|]. split; [|split; [|split]].
      * apply Hpre. intros b Hb'. apply Hfr'; lia.
      * by rewrite Hc'.
      * intros b Hb'. rewrite Hfr' by (unfold c, r; lia). by apply Hag1.
      * destruct suffix as [|s0 suffix'] eqn:Esuf; [done|]. rewrite <- Esuf in *.
        exists es. split; [done|].
        eapply Forall2_impl; [exact Hall|]. intros e v [He Hch]. split; [lia|].
        eapply chain_mono; [| |exact Hch]; lia.
Qed.

Lemma slice_spec_is_compact_witness :
  exists h' ys,
    filter_response (VRef 4) ["items[-1].id"]
      [ODict [("id", VInt 1)]; ODict [("id", VInt 2)]; ODict [("id", VInt 3)];
       OList [VRef 0; VRef 1; VRef 2];
       ODict [("items", VRef 3)]]
    = Ok (VRef 5, h') /\
    h' !! 5%nat = Some (ODict [("items", VRef 6)]) /\
    h' !! 6%nat = Some (OList ys) /\
    exists es, ys = map VRef es /\
      Forall2 (fun e value => (6 < e)%nat /\ chain 7 (length h') h' e [Key "id"] value)
        es [VInt 3].
Proof.
  destruct (slice_spec_is_compact
              [ODict [("id", VInt 1)]; ODict [("id", VInt 2)]; ODict [("id", VInt 3)];
               OList [VRef 0; VRef 1; VRef 2];
               ODict [("items", VRef 3)]]
              4 [("items", VRef 3)] "items[-1].id" ["items"] (Index (-1)) [Key "id"]
              3 [VRef 0; VRef 1; VRef 2])
    as (h' & ys & Hrun & Hr & Hc & _ & Hys);
    [reflexivity | reflexivity | reflexivity | discriminate | reflexivity
    | discriminate | reflexivity | reflexivity | discriminate
    | right; split; reflexivity |].
  exists h', ys. done.
Defined.

(** The examples of the claim. *)
Example negative_index_example :
  project (JObj [("items", JArr [JObj [("id", JNum 1)]; JObj [("id", JNum 2)];
                                 JObj [("id", JNum 3)]])])
    ["items[-1].id"]
  = Ok (Some (JObj [("items", JArr [JObj [("id", JNum 3)]])])).
Proof. reflexivity. Qed.

Example slice_compaction_example :
  project (JObj [("items", JArr [JObj [("id", JNum 1)]; JObj [("id", JNum 2)];
                                 JObj [("id", JNum 3)]])])
    ["items[1:3]"]
  = Ok (Some (JObj [("items", JArr [JObj [("id", JNum 2)]; JObj [("id", JNum 3)]])])).
Proof. reflexivity. Qed.

(** The same below a nested key. *)
Example slice_nested_prefix_example :
  project (JObj [("page", JObj [("items", JArr [JNum 1; JNum 2; JNum 3])])])
    ["page.items[1:]"]
  = Ok (Some (JObj [("page", JObj [("items", JArr [JNum 2; JNum 3])])])).
Proof. reflexivity. Qed.

(** Two elements are selected, the suffix is found in the first only: the
    output has one entry, and the second element is not appended. *)
Lemma slice_skips_elements_without_suffix :
  project (JObj [("items", JArr [JObj [("id", JNum 1)]; JObj [("x", JNum 2)]])])
    ["items[0:2].id"]
  = Ok (Some (JObj [("items", JArr [JObj [("id", JNum 1)]])])) /\
  project (JObj [("items", JArr [JObj [("id", JNum 1)]; JObj [("x", JNum 2)]])])
    ["items[0:2].id"]
  <> Ok (Some (JObj [("items", JArr [JObj [("id", JNum 1)]; JObj [("x", JNum 2)]])])).
Proof. split; [reflexivity | discriminate]. Qed.


(** C1. [filter_response] stores references to sub-objects of its input in
    the result and later writes through them. Here the first spec copies the
    source object under [a] into the output and the second spec, spelled with
    another case, writes key [B] through that output location: after the call
    the input document itself has the extra key. The second component is the
    input as it is after the call. *)
Theorem filter_response_writes_into_its_input :
  project_json (JObj [("a", JObj [("b", JNum 1)])]) ["a"; "a.B"]
  = Ok (Some (JObj [("a", JObj [("b", JNum 1); ("B", JNum 1)])]),
        Some (JObj [("a", JObj [("b", JNum 1); ("B", JNum 1)])])).
Proof. reflexivity. Qed.

(** The same through a list: the source array is copied by reference and the
    slice spec appends to it. *)
Example filter_response_appends_to_source_list :
  project_json (JObj [("items", JArr [JNum 1; JNum 2; JNum 3])]) ["items"; "items[1:3]"]
  = Ok (Some (JObj [("items", JArr [JNum 1; JNum 2; JNum 3; JNum 2; JNum 3])]),
        Some (JObj [("items", JArr [JNum 1; JNum 2; JNum 3; JNum 2; JNum 3])])).
Proof. reflexivity. Qed.

Section Repeat.
Implicit Types (h : heap) (d r t : nat) (segs suffix : list segment).

(** Writing along an existing chain the value it already ends in changes
    nothing. *)
Lemma set_on_chain lo hi h segs : forall t x,
  chain lo hi h t segs x -> _set_in_result (VRef t) segs x h = Ok (tt, h).
Proof.
  induction segs as [|seg rest IH]; intros t x Hch; [done|].
  destruct seg as [k|i| |]; [| |done|done]; destruct rest as [|next rest].
  - simpl in Hch. rewrite set_in_result_single. unfold set_last, bind, get_heap, as_dict.
    rewrite Hch. erewrite dict_setitem_run by done.
    cbn [PyDict.setitem]. rewrite String.eqb_refl. by rewrite list_insert_id.
  - destruct Hch as (c & H & _ & Hch). rewrite set_in_result_cons.
    unfold ensure_step, bind, get_heap, as_dict. rewrite H.
    unfold _ci_get. cbn [PyDict.lookup]. rewrite String.eqb_refl.
    unfold ret. by apply IH.
  - destruct Hch as [Hi H]. rewrite set_in_result_single.
    unfold set_last, bind, get_heap, as_list. rewrite H.
    rewrite List.length_app, length_replicate. cbn [length].
    replace (Z.to_nat (i + 1 - Z.of_nat (Z.to_nat i + 1))) with 0%nat by lia.
    cbn [append_nones]. unfold ret.
    erewrite list_setitem_run; [| exact H |]; cycle 1.
    { apply setitem_nonneg; [done|]. rewrite List.length_app, length_replicate. simpl. lia. }
    f_equal. f_equal. apply list_insert_id. rewrite H. do 2 f_equal.
    symmetry. apply list_insert_id.
    rewrite lookup_app_r by (by rewrite length_replicate).
    by rewrite length_replicate, Nat.sub_diag.
  - destruct Hch as (Hi & cs & c & H & Hlen & _ & _ & Hch). rewrite set_in_result_cons.
    unfold ensure_step, bind, get_heap, as_list. rewrite H.
    unfold pad_to_index. rewrite List.length_app, length_map, Hlen. cbn [length].
    replace (Z.to_nat (i + 1 - Z.of_nat (Z.to_nat i + 1))) with 0%nat by lia.
    cbn [append_new_dicts]. unfold ret.
    erewrite list_getitem_run; [| exact H |]; cycle 1.
    { apply getitem_nonneg; [done|].
      rewrite lookup_app_r by (rewrite length_map; lia).
      by rewrite length_map, Hlen, Nat.sub_diag. }
    by apply IH.
Qed.

Lemma chain_head_dict lo hi h t segs x :
  starts_with_key segs = true -> chain lo hi h t segs x ->
  exists kvs, h !! t = Some (ODict kvs).
Proof.
  destruct segs as [|[k|i| |] [|s rest]]; try done; intros _ Hch.
  - simpl in Hch. by eexists.
  - destruct Hch as (c & H & _). by eexists.
Qed.

(** [filter_response] with the same spec twice on a dict. *)
Lemma filter_response_twice d spec h kvs :
  h !! d = Some (ODict kvs) ->
  PyStr.strip spec <> EmptyString -> PyStr.strip spec <> "*" ->
  filter_response (VRef d) [spec; spec] h
  = match _apply_spec (VRef d) (PyStr.strip spec) (VRef (length h)) (h ++ [ODict []]) with
    | Ok (_, h1) =>
        match _apply_spec (VRef d) (PyStr.strip spec) (VRef (length h)) h1 with
        | Ok (_, h2) => Ok (VRef (length h), h2)
        | Raise e => Raise e
        end
    | Raise e => Raise e
    end.
Proof.
  intros Hd Hne Hstar. unfold filter_response, clean_specs.
  destruct (PyStr.strip spec) as [|c0 s0] eqn:E; [done|]. cbn [PyStr.nonempty].
  assert (existsb (String.eqb "*") [String c0 s0; String c0 s0] = false) as ->.
  { cbn [existsb]. rewrite orb_false_r.
    assert (String.eqb "*" (String c0 s0) = false) as -> by (apply String.eqb_neq; congruence).
    done. }
  unfold bind at 1. unfold get_heap, as_dict. rewrite Hd.
  unfold bind at 1. unfold alloc.
  cbn [for_each]. unfold bind, ret.
  destruct (_apply_spec (VRef d) (String c0 s0) (VRef (length h)) (h ++ [ODict []]))
    as [[[] h1]|e]; [|done].
  destruct (_apply_spec (VRef d) (String c0 s0) (VRef (length h)) h1)
    as [[[] h2]|e]; done.
Qed.

(** A collection spec whose keys are not found, do not lead to a list, or
    lead to a list with an empty selection contributes nothing. *)
Lemma apply_spec_collection_nothing d spec ks coll suffix (r : nat) h :
  Parser._parse_path_segments spec = Ok (map Key ks ++ coll :: suffix) ->
  ks <> [] ->
  is_collection coll = true ->
  match _get_value h (VRef d) (map Key ks) with
  | (false, _) => True
  | (true, v) =>
      match as_list h v with
      | None => True
      | Some (_, xs) => _resolve_list_segment xs coll = []
      end
  end ->
  _apply_spec (VRef d) spec (VRef r) h = Ok (tt, h).
Proof.
  intros P Hks Hcoll Hnothing.
  unfold _apply_spec. rewrite P. unfold bind at 1. unfold lift.
  destruct (map Key ks ++ coll :: suffix) as [|seg0 segs0] eqn:Esegs.
  { destruct ks; done. }
  rewrite <- Esegs.
  rewrite (first_index_after_keys ks coll suffix Hcoll).
  rewrite take_keys, nth_after_keys.
  unfold bind at 1. unfold get_heap.
  destruct (_get_value h (VRef d) (map Key ks)) as [[|] v]; [|done].
  cbn [negb]. destruct (as_list h v) as [[a xs]|]; [|done].
  by rewrite Hnothing.
Qed.

(** The second run of an iteration spec over the result of its first run
    finds every container in place and rewrites what is already there. *)
Lemma iterate_loop_again h h' (c : nat) suffix ys items : forall (j0 : nat),
  heap_closed h = true ->
  (forall a, (a < length h)%nat -> h' !! a = h !! a) ->
  h' !! c = Some (OList ys) ->
  Forall (fun item => val_below (length h) item = true) items ->
  (forall j item, items !! j = Some item ->
     match suffix with
     | [] => ys !! (j0 + j)%nat = Some item
     | _ :: _ =>
         exists e, ys !! (j0 + j)%nat = Some (VRef e) /\
           match _get_value h item suffix with
           | (true, value) =>
               (exists kvs, h' !! e = Some (ODict kvs)) /\
               _set_in_result (VRef e) suffix value h' = Ok (tt, h')
           | (false, _) => True
           end
     end) ->
  for_each (iterate_body c suffix) (PyList.enumerate_from (Z.of_nat j0) items) h'
  = Ok (tt, h').
Proof.
  intros j0 Hc Hag Hcl. revert j0.
  induction items as [|item items IH]; intros j0 Hitems Hall; [done|].
  rewrite enumerate_from_cons. cbn [for_each].
  apply Forall_cons in Hitems as [Hitem Hitems].
  assert (iterate_body c suffix (Z.of_nat j0, item) h' = Ok (tt, h')) as Hrun.
  { specialize (Hall 0%nat item eq_refl). rewrite Nat.add_0_r in Hall.
    unfold iterate_body. destruct suffix as [|s0 suffix'] eqn:Esuf.
    - erewrite list_setitem_run; [| exact Hcl |]; cycle 1.
      { apply setitem_nonneg; [lia|]. rewrite Nat2Z.id. by eapply lookup_lt_Some. }
      rewrite Nat2Z.id. rewrite (list_insert_id ys) by done. by rewrite list_insert_id.
    - rewrite <- Esuf in *. unfold bind at 1. unfold get_heap.
      rewrite (get_value_source h h') by done.
      destruct Hall as (e & He & Hres).
      destruct (_get_value h item suffix) as [[|] value]; [|done].
      destruct Hres as [[kvs Hkvs] Hset].
      assert (list_getitem c (Z.of_nat j0) h' = Ok (VRef e, h')) as Hget.
      { eapply list_getitem_run; [done|]. apply getitem_nonneg; [lia|].
        by rewrite Nat2Z.id. }
      rewrite (bind_ok _ _ _ _ _ Hget). cbv beta.
      unfold bind at 1. unfold as_dict. rewrite Hkvs. unfold bind at 1. unfold ret at 1.
      rewrite (bind_ok _ _ _ _ _ Hget). cbv beta. done. }
  rewrite (bind_ok _ _ _ _ _ Hrun). cbv beta.
  replace (Z.of_nat j0 + 1) with (Z.of_nat (S j0)) by lia.
  apply IH; [done|]. intros j item' Hj.
  specialize (Hall (S j) item' Hj).
  by replace (S j0 + j)%nat with (j0 + S j)%nat by lia.
Qed.

Lemma apply_spec_iterate_again
  h h' d kvs spec ks suffix (a r c : nat) xs ys lo hi lo' :
  heap_closed h = true ->
  h !! d = Some (ODict kvs) ->
  Parser._parse_path_segments spec = Ok (map Key ks ++ Iterate :: suffix) ->
  ks <> [] ->
  _get_value h (VRef d) (map Key ks) = (true, VRef a) ->
  h !! a = Some (OList xs) ->
  xs <> [] ->
  suffix_ok suffix = true ->
  (forall b, (b < length h)%nat -> h' !! b = h !! b) ->
  chain lo hi h' r (map Key ks) (VRef c) ->
  h' !! c = Some (OList ys) ->
  length ys = length xs ->
  (forall j item, xs !! j = Some item ->
     match suffix with
     | [] => ys !! j = Some item
     | _ :: _ =>
         exists e, ys !! j = Some (VRef e) /\ (c < e)%nat /\
           match _get_value h item suffix with
           | (true, value) => chain lo' (length h') h' e suffix value
           | (false, _) => h' !! e = Some (ODict [])
           end
     end) ->
  _apply_spec (VRef d) spec (VRef r) h' = Ok (tt, h').
Proof.
  intros Hc Hd P Hks Hg Ha Hne Hsuf Hag Hch Hcl Hlen Hall.
  assert (d < length h)%nat as Hdlt by (by eapply lookup_lt_Some).
  assert (a < length h)%nat as Halt by (by eapply lookup_lt_Some).
  unfold _apply_spec. rewrite P. unfold bind at 1. unfold lift.
  destruct (map Key ks ++ Iterate :: suffix) as [|seg0 segs0] eqn:Esegs.
  { destruct ks; done. }
  rewrite <- Esegs.
  rewrite (first_index_after_keys ks Iterate suffix eq_refl).
  rewrite take_keys, nth_after_keys, drop_after_keys.
  unfold bind at 1. unfold get_heap.
  assert (_get_value h' (VRef d) (map Key ks) = (true, VRef a)) as ->.
  { rewrite <- Hg. apply get_value_source; [done | done | by eapply val_below_ref]. }
  cbn [negb]. unfold as_list at 1. rewrite (Hag a Halt), Ha.
  destruct (_resolve_list_segment xs Iterate) as [|p ps] eqn:Hp.
  { destruct xs; [done | discriminate Hp]. }
  rewrite (bind_ok _ _ _ _ _ (navigate_on_chain lo hi h' ks r c Hch)). cbv beta.
  unfold bind at 1. unfold as_list at 1. rewrite Hcl.
  unfold bind at 1. unfold list_len at 1. rewrite (Hag a Halt), Ha.
  unfold bind at 1. unfold list_len at 1. rewrite Hcl.
  rewrite Hlen, Z.sub_diag. cbn [Z.to_nat append_new_dicts].
  unfold bind at 1. cbv beta iota delta [ret]. rewrite <- Hp.
  apply (iterate_loop_again h h' c suffix ys xs 0); try done.
  - apply Forall_forall. intros item Hin.
    eapply list_val_below; [|exact Hin]. by eapply heap_closed_obj.
  - intros j item Hj. specialize (Hall j item Hj). cbn [Nat.add].
    destruct suffix as [|s0 suffix'] eqn:Esuf; [done|]. rewrite <- Esuf in *.
    destruct Hall as (e & He & _ & Hres). exists e. split; [done|].
    destruct (_get_value h item suffix) as [[|] value]; [|done].
    split.
    + eapply chain_head_dict; [|exact Hres]. rewrite Esuf in Hsuf |- *.
      cbn [suffix_ok] in Hsuf. by apply andb_prop in Hsuf as [_ ?].
    + by eapply set_on_chain.
Qed.

End Repeat.


Section RepeatTheorem.
Implicit Types (h : heap) (d r : nat) (segs suffix : list segment).

Lemma keys_then_iterate_inv segs :
  keys_then_iterate segs = true ->
  exists ks suffix,
    ks <> [] /\ segs = map Key ks ++ Iterate :: suffix /\ suffix_ok suffix = true.
Proof.
  induction segs as [|seg rest IH]; [done|].
  destruct seg as [k|i| |st sp]; try done.
  destruct rest as [|[k2|i| |st sp] rest']; try done.
  - intros H. destruct (IH H) as (ks & suffix & Hks & E & Hsuf).
    exists (k :: ks), suffix. split; [done|]. split; [|done].
    cbn [map app]. by rewrite E.
  - cbn [keys_then_iterate]. intros H. by exists [k], rest'.
Qed.

Lemma repeatable_cases segs :
  repeatable segs = true ->
  (exists ks suffix,
     ks <> [] /\ segs = map Key ks ++ Iterate :: suffix /\ suffix_ok suffix = true)
  \/ buildable segs = true.
Proof.
  unfold repeatable. intros H. apply orb_prop in H as [H|H]; [by right | left].
  by apply keys_then_iterate_inv.
Qed.

Lemma suffix_ok_cases suffix :
  suffix_ok suffix = true ->
  suffix = [] \/ (buildable suffix = true /\ starts_with_key suffix = true).
Proof.
  destruct suffix as [|s rest]; [by left|]. intros H. right.
  cbn [suffix_ok] in H. by apply andb_prop in H.
Qed.

(** The second run of a spec without collection segment. *)
Lemma apply_spec_simple_again h h1 d kvs spec segs (r : nat) x lo hi :
  heap_closed h = true ->
  h !! d = Some (ODict kvs) ->
  Parser._parse_path_segments spec = Ok segs ->
  buildable segs = true ->
  (forall b, (b < length h)%nat -> h1 !! b = h !! b) ->
  _get_value h (VRef d) segs = (true, x) ->
  chain lo hi h1 r segs x ->
  _apply_spec (VRef d) spec (VRef r) h1 = Ok (tt, h1).
Proof.
  intros Hc Hd P Hb Hag Hg Hch.
  unfold _apply_spec. rewrite P. unfold bind at 1. unfold lift.
  destruct segs as [|seg rest] eqn:E; [done|]. rewrite <- E in *.
  rewrite (buildable_no_collection _ Hb).
  unfold bind, get_heap.
  rewrite (get_value_source h h1) by (try done; by eapply val_below_ref).
  rewrite Hg. by eapply set_on_chain.
Qed.

Lemma filter_response_blank d spec specs h :
  PyStr.strip spec = EmptyString ->
  filter_response (VRef d) (spec :: specs) h = filter_response (VRef d) (spec :: spec :: specs) h.
Proof.
  intros E. unfold filter_response. cbn [clean_specs]. by rewrite E.
Qed.

Lemma filter_response_star_twice d spec h :
  PyStr.strip spec = "*" -> filter_response (VRef d) [spec; spec] h = Ok (VRef d, h).
Proof.
  intros E. unfold filter_response, clean_specs. rewrite E. done.
Qed.

End RepeatTheorem.

(** C6 (as amended). For an Object and a spec that is a path of keys and
    non-negative indices (no index directly after an index), or one or more
    keys followed by the iteration marker and a suffix that can be laid out,
    listing the spec twice gives exactly what listing it once gives: the same
    result and the same store. This does not extend to slice or negative-index
    specs, whose every application appends, nor to permutations of the list of
    specs. *)
Theorem repeated_spec_is_harmless
  (h : heap) (d : nat) (kvs : list (string * pyval)) (spec : string)
  (segs : list segment) :
  heap_closed h = true ->
  h !! d = Some (ODict kvs) ->
  Parser._parse_path_segments spec = Ok segs ->
  repeatable segs = true ->
  filter_response (VRef d) [spec; spec] h = filter_response (VRef d) [spec] h.
Proof.
  intros Hc Hd P Hrep.
  assert (d < length h)%nat as Hdlt by (by eapply lookup_lt_Some).
  destruct (String.eqb (PyStr.strip spec) EmptyString) eqn:E0.
  { apply String.eqb_eq in E0. symmetry. by apply filter_response_blank. }
  destruct (String.eqb (PyStr.strip spec) "*") eqn:E1.
  { apply String.eqb_eq in E1.
    by rewrite filter_response_star_twice, filter_response_star. }
  apply String.eqb_neq in E0, E1.
  rewrite (filter_response_twice d spec h kvs Hd E0 E1).
  rewrite (filter_response_single d spec h kvs Hd E0 E1).
  set (s := PyStr.strip spec). set (r := length h). set (h0 := h ++ [ODict []]).
  assert (Parser._parse_path_segments s = Ok segs) as Ps by (unfold s; by rewrite parse_strip).
  assert (forall b, (b < length h)%nat -> h0 !! b = h !! b) as Hag0.
  { intros b Hb. unfold h0. by rewrite lookup_app_l. }
  assert (h0 !! r = Some (ODict [])) as Hr0.
  { unfold h0, r. rewrite lookup_app_r by lia. by rewrite Nat.sub_diag. }
  (* it suffices that the second run changes nothing *)
  enough (forall h1, _apply_spec (VRef d) s (VRef r) h0 = Ok (tt, h1) ->
                     _apply_spec (VRef d) s (VRef r) h1 = Ok (tt, h1)) as Hagain.
  { destruct (_apply_spec (VRef d) s (VRef r) h0) as [[[] h1]|e] eqn:Efirst; [|done].
    by rewrite (Hagain h1 eq_refl). }
  intros h1 Hfirst.
  destruct (repeatable_cases segs Hrep) as [(ks & suffix & Hks & -> & Hsuf)|Hb].
  - (* keys, iteration, suffix *)
    destruct (_get_value h (VRef d) (map Key ks)) as [fnd v] eqn:Eg.
    assert (_get_value h0 (VRef d) (map Key ks) = (fnd, v)) as Eg0.
    { rewrite <- Eg. apply get_value_source; [done | done | by eapply val_below_ref]. }
    assert (match _get_value h0 (VRef d) (map Key ks) with
            | (false, _) => True
            | (true, v) =>
                match as_list h0 v with
                | None => True
                | Some (_, xs) => _resolve_list_segment xs Iterate = []
                end
            end -> _apply_spec (VRef d) s (VRef r) h1 = Ok (tt, h1)) as Hnothing.
    { intros Hn.
      rewrite (apply_spec_collection_nothing d s ks Iterate suffix r h0 Ps Hks eq_refl Hn)
        in Hfirst.
      injection Hfirst as <-. by apply (apply_spec_collection_nothing d s ks Iterate suffix). }
    destruct fnd; cycle 1.
    { apply Hnothing. by rewrite Eg0. }
    assert (val_below (length h) v = true) as Hv.
    { eapply get_value_below; [| |exact Eg].
      - intros a o _ Ha. by eapply heap_closed_obj.
      - by eapply val_below_ref. }
    assert (as_list h0 v = as_list h v) as Hal.
    { destruct v as [| | | |a]; try done. simpl in Hv. apply Nat.ltb_lt in Hv.
      unfold as_list. by rewrite Hag0. }
    destruct (as_list h v) as [[a xs]|] eqn:El; cycle 1.
    { apply Hnothing. by rewrite Eg0, Hal. }
    destruct xs as [|x0 xs0] eqn:Exs.
    { apply Hnothing. by rewrite Eg0, Hal. }
    rewrite <- Exs in *.
    assert (v = VRef a /\ h !! a = Some (OList xs)) as [-> Ha].
    { destruct v as [| | | |a']; try done. unfold as_list in El.
      destruct (h !! a') as [[?|?]|] eqn:Ea; try done. by injection El as -> ->. }
    destruct (apply_spec_iterate h d kvs s ks suffix a xs) as (h' & ys & H);
      [done | done | done | done | done | done | by rewrite Exs
      | by apply suffix_ok_cases |].
    cbv zeta in H. destruct H as (Hrun & Hch & Hc' & Hlen & Hag' & Hall).
    fold r h0 in Hrun. rewrite Hrun in Hfirst. injection Hfirst as <-.
    eapply (apply_spec_iterate_again h h' d kvs s ks suffix a r (r + length ks) xs ys);
      try done. by rewrite Exs.
  - (* a path without collection segment *)
    destruct (_get_value h (VRef d) segs) as [[|] x] eqn:Eg.
    + destruct segs as [|seg rest] eqn:Esegs.
      { unfold _apply_spec in *. rewrite Ps in *. done. }
      rewrite <- Esegs in *.
      destruct (apply_spec_found d s segs r h0 kvs x) as (h' & Hrun & Hch & Hlen & Hfr);
        [done | by rewrite Esegs | done | by rewrite Hag0 | done | |].
      { rewrite <- Eg. apply get_value_source; [done | done | by eapply val_below_ref]. }
      rewrite Hrun in Hfirst. injection Hfirst as <-.
      eapply (apply_spec_simple_again h h' d kvs s segs r x); try done.
      intros b Hlt. rewrite Hfr; [by apply Hag0 | | unfold r; lia].
      unfold h0. rewrite List.length_app. lia.
    + assert (_apply_spec (VRef d) s (VRef r) h0 = Ok (tt, h0)) as Hnf.
      { eapply apply_spec_not_found; [done | done |].
        rewrite <- Eg. apply get_value_source; [done | done | by eapply val_below_ref]. }
      rewrite Hnf in Hfirst. by injection Hfirst as <-.
Qed.

Lemma repeated_spec_is_harmless_witness :
  filter_response (VRef 3) ["data[].id"; "data[].id"]
    [ODict [("id", VInt 1); ("name", VStr "A")];
     ODict [("id", VInt 2); ("name", VStr "B")];
     OList [VRef 0; VRef 1];
     ODict [("data", VRef 2)]]
  = filter_response (VRef 3) ["data[].id"]
      [ODict [("id", VInt 1); ("name", VStr "A")];
       ODict [("id", VInt 2); ("name", VStr "B")];
       OList [VRef 0; VRef 1];
       ODict [("data", VRef 2)]].
Proof.
  apply (repeated_spec_is_harmless _ 3 [("data", VRef 2)] "data[].id"
           [Key "data"; Iterate; Key "id"]); reflexivity.
Defined.

(** A slice spec listed twice appends its selection twice. *)
Lemma repeated_slice_spec_appends_twice :
  project (JObj [("items", JArr [JNum 1; JNum 2; JNum 3])]) ["items[1:3]"; "items[1:3]"]
  = Ok (Some (JObj [("items", JArr [JNum 2; JNum 3; JNum 2; JNum 3])])) /\
  project (JObj [("items", JArr [JNum 1; JNum 2; JNum 3])]) ["items[1:3]"]
  = Ok (Some (JObj [("items", JArr [JNum 2; JNum 3])])).
Proof. split; reflexivity. Qed.

(** The order of two slice specs is the order of the output elements. *)
Example slice_specs_do_not_commute :
  project (JObj [("items", JArr [JNum 1; JNum 2; JNum 3])]) ["items[0:1]"; "items[1:2]"]
  = Ok (Some (JObj [("items", JArr [JNum 1; JNum 2])])) /\
  project (JObj [("items", JArr [JNum 1; JNum 2; JNum 3])]) ["items[1:2]"; "items[0:1]"]
  = Ok (Some (JObj [("items", JArr [JNum 2; JNum 1])])).
Proof. split; reflexivity. Qed.

(** The first spec to create a key fixes its casing: two specs that differ in
    case give differently named output in the two orders. *)
Example key_specs_do_not_commute :
  project (JObj [("x", JObj [("a", JNum 1); ("b", JNum 2)])]) ["x.a"; "X.b"]
  = Ok (Some (JObj [("x", JObj [("a", JNum 1); ("b", JNum 2)])])) /\
  project (JObj [("x", JObj [("a", JNum 1); ("b", JNum 2)])]) ["X.b"; "x.a"]
  = Ok (Some (JObj [("X", JObj [("b", JNum 2); ("a", JNum 1)])])).
Proof. split; reflexivity. Qed.

(** The two iteration specs of the specification's open question merge into
    the same array in either order, up to the order of the keys. *)
Example iterate_specs_merge :
  project (JObj [("data", JArr [JObj [("id", JNum 1); ("name", JStr "A")];
                                JObj [("id", JNum 2); ("name", JStr "B")]])])
    ["data[].id"; "data[].name"]
  = Ok (Some (JObj [("data", JArr [JObj [("id", JNum 1); ("name", JStr "A")];
                                   JObj [("id", JNum 2); ("name", JStr "B")]])])) /\
  project (JObj [("data", JArr [JObj [("id", JNum 1); ("name", JStr "A")];
                                JObj [("id", JNum 2); ("name", JStr "B")]])])
    ["data[].name"; "data[].id"]
  = Ok (Some (JObj [("data", JArr [JObj [("name", JStr "A"); ("id", JNum 1)];
                                   JObj [("name", JStr "B"); ("id", JNum 2)]])])).
Proof. split; reflexivity. Qed.

(** * Further properties of the code *)

(** *** Further properties of extraction and selection *)

Section ExtractionFacts.
Implicit Types (h : heap) (v x : pyval) (segs : list segment) (xs : list pyval).

Lemma get_value_app h segs1 : forall v segs2,
  _get_value h v (segs1 ++ segs2)
  = (let '(found, x) := _get_value h v segs1 in
     if found then _get_value h x segs2 else (false, VNone)).
Proof.
  induction segs1 as [|seg rest IH]; intros v segs2; [done|].
  cbn [app _get_value].
  destruct v as [| | | |a]; try done;
    destruct seg as [k|i| |st sp]; try done; cbn [as_dict as_list].
  - destruct (h !! a) as [[kvs|ys]|]; try done.
    destruct (_ci_get kvs k) as [[k' val]|]; [apply IH | done].
  - destruct (h !! a) as [[kvs|ys]|]; try done.
    destruct (PyList.getitem ys i) as [val|]; [apply IH | done].
Qed.

Lemma zip_range_enumerate {A : Type} (l : list A) : forall (lo : Z) (j : nat),
  PyList.zip (map (fun k => lo + Z.of_nat k) (seq j (length l))) l
  = PyList.enumerate_from (lo + Z.of_nat j) l.
Proof.
  induction l as [|y l IH]; intros lo j; [done|].
  cbn [length seq map PyList.zip PyList.enumerate_from]. f_equal.
  rewrite IH. f_equal. lia.
Qed.

Lemma clamp_bound_range n dflt b :
  0 <= n -> 0 <= dflt <= n -> 0 <= PyList.clamp_bound n dflt b <= n.
Proof.
  intros Hn Hd. unfold PyList.clamp_bound. destruct b as [i|]; [|done].
  destruct (i <? 0) eqn:E; [apply Z.ltb_lt in E | apply Z.ltb_ge in E]; lia.
Qed.

Lemma zip_snd {A B : Type} (l1 : list A) : forall (l2 : list B),
  (length l2 <= length l1)%nat -> map snd (PyList.zip l1 l2) = l2.
Proof.
  induction l1 as [|a l1 IH]; intros [|b l2] Hlen; simpl in *; try done; [lia|].
  f_equal. apply IH. lia.
Qed.

End ExtractionFacts.

(** X1. Extraction along a concatenated path is extraction along the first
    part followed, when that finds a value, by extraction along the second
    part from the value found; when the first part finds nothing, neither does
    the whole path. *)
Theorem get_value_composes
  (h : heap) (v : pyval) (segs1 segs2 : list segment) :
  _get_value h v (segs1 ++ segs2)
  = (let '(found, x) := _get_value h v segs1 in
     if found then _get_value h x segs2 else (false, VNone)).
Proof. apply get_value_app. Qed.

(** X2. Whatever the segment, the pairs [_resolve_list_segment] selects are
    a contiguous window of the array, in source order, each element paired
    with its own position in the array: a negative index is normalised, a
    slice is clamped to the array, and an index out of range selects
    nothing. *)
Theorem resolve_list_segment_window (xs : list pyval) (seg : segment) :
  exists lo n : nat,
    (lo + n <= length xs)%nat /\
    _resolve_list_segment xs seg
    = PyList.enumerate_from (Z.of_nat lo) (take n (drop lo xs)).
Proof.
  destruct seg as [k|i| |start stop]; cbn [_resolve_list_segment].
  - exists 0%nat, 0%nat. split; [lia | done].
  - unfold PyList.getitem, PyList.norm_index.
    destruct ((0 <=? i) && (i <? Z.of_nat (length xs))) eqn:E1.
    + apply andb_prop in E1 as [H0 H1]. apply Z.leb_le in H0. apply Z.ltb_lt in H1.
      destruct (xs !! Z.to_nat i) as [val|] eqn:Ei.
      * exists (Z.to_nat i), 1%nat. split; [lia|].
        rewrite (take_S_r _ 0 val) by (by rewrite lookup_drop, Nat.add_0_r).
        rewrite take_0. cbn. rewrite Z2Nat.id by lia.
        by replace (0 <=? i) with true by (symmetry; by apply Z.leb_le).
      * exists 0%nat, 0%nat. split; [lia | done].
    + destruct ((i <? 0) && (- Z.of_nat (length xs) <=? i)) eqn:E2.
      * apply andb_prop in E2 as [H0 H1]. apply Z.ltb_lt in H0. apply Z.leb_le in H1.
        destruct (xs !! Z.to_nat (Z.of_nat (length xs) + i)) as [val|] eqn:Ei.
        -- exists (Z.to_nat (Z.of_nat (length xs) + i)), 1%nat. split; [lia|].
           rewrite (take_S_r _ 0 val) by (by rewrite lookup_drop, Nat.add_0_r).
           rewrite take_0. cbn. rewrite Z2Nat.id by lia.
           by replace (0 <=? i) with false by (symmetry; apply Z.leb_gt; lia).
        -- exists 0%nat, 0%nat. split; [lia | done].
      * exists 0%nat, 0%nat. split; [lia | done].
  - exists 0%nat, (length xs). split; [lia|].
    by rewrite drop_0, firstn_all.
  - unfold PyList.getslice, PyList.slice_indices.
    set (n := Z.of_nat (length xs)).
    assert (0 <= n) as Hn by lia.
    pose proof (clamp_bound_range n 0 start Hn ltac:(lia)) as Hlo.
    pose proof (clamp_bound_range n n stop Hn ltac:(lia)) as Hhi.
    set (lo := PyList.clamp_bound n 0 start) in *.
    set (hi := PyList.clamp_bound n n stop) in *.
    exists (Z.to_nat lo), (Z.to_nat (hi - lo)). split; [lia|].
    unfold PyList.range.
    assert (length (take (Z.to_nat (hi - lo)) (drop (Z.to_nat lo) xs))
            = Z.to_nat (hi - lo)) as Hlen.
    { rewrite length_take, length_drop. lia. }
    rewrite <- Hlen at 1. rewrite zip_range_enumerate.
    f_equal. lia.
Qed.

(** X3. For a slice the selected elements are exactly those of the Python
    slice [xs[start:stop]], in order: pairing them with the index range drops
    none of them. *)
Theorem resolve_slice_elements (xs : list pyval) (start stop : option Z) :
  map snd (_resolve_list_segment xs (Slice start stop)) = PyList.getslice xs start stop.
Proof.
  cbn [_resolve_list_segment]. unfold PyList.getslice.
  destruct (PyList.slice_indices (Z.of_nat (length xs)) start stop) as [lo hi].
  apply zip_snd. unfold PyList.range.
  rewrite length_map, length_seq, length_take. lia.
Qed.

(** *** Further properties of the path parser and of the lookup *)

Section ParserErrors.
Import PyStr Parser.








End ParserErrors.



Section CiGet.
Import PyStr.

Lemma dict_lookup_in kvs k v : PyDict.lookup kvs k = Some v -> (k, v) ∈ kvs.
Proof.
  induction kvs as [|[k' v'] kvs IH]; simpl; [done|].
  destruct (String.eqb_spec k' k) as [->|_].
  - intros [= ->]. left.
  - intros H. right. auto.
Qed.

Lemma scan_lower_spec kvs l :
  match PyDict.scan_lower kvs l with
  | Some (k', v) =>
      exists pre post, kvs = pre ++ (k', v) :: post /\ lower k' = l /\
        Forall (fun kv => lower (fst kv) <> l) pre
  | None => Forall (fun kv => lower (fst kv) <> l) kvs
  end.
Proof.
  induction kvs as [|[k v] kvs IH]; simpl; [constructor|].
  destruct (String.eqb_spec (lower k) l) as [E|E].
  - exists [], kvs. split; [done|]. split; [done | constructor].
  - destruct (PyDict.scan_lower kvs l) as [[k' v']|].
    + destruct IH as (pre & post & -> & Hl & Hpre).
      exists ((k, v) :: pre), post. split; [done|]. split; [done|].
      by constructor.
    + by constructor.
Qed.

End CiGet.

(** X5. [_ci_get] prefers the exact key: when the dict has the key as
    spelled, that item is returned. Otherwise it returns the first item, in
    insertion order, whose key equals the requested one up to case; and it
    returns nothing exactly when no key of the dict does. *)
Theorem ci_get_exact_then_first (d : list (string * pyval)) (k : string) :
  match PyDict.lookup d k with
  | Some v => _ci_get d k = Some (k, v) /\ (k, v) ∈ d
  | None =>
      match _ci_get d k with
      | Some (k', v) =>
          exists pre post, d = pre ++ (k', v) :: post /\
            PyStr.lower k' = PyStr.lower k /\
            Forall (fun kv => PyStr.lower (fst kv) <> PyStr.lower k) pre
      | None => Forall (fun kv => PyStr.lower (fst kv) <> PyStr.lower k) d
      end
  end.
Proof.
  unfold _ci_get. destruct (PyDict.lookup d k) as [v|] eqn:E.
  - split; [done | by apply dict_lookup_in].
  - apply scan_lower_spec.
Qed.

Section SummarizeFacts.
Import PyStr.

Lemma take_str_length n s :
  String.length (take_str n s) = Nat.min n (String.length s).
Proof.
  revert s. induction n as [|n IH]; intros [|c s]; simpl; try done.
  by rewrite IH.
Qed.

End SummarizeFacts.

(** X6. A summary in a diff line is never longer than 80 characters: a
    rendering of up to 80 characters is kept as it is, a longer one is cut to
    its first 77 characters followed by three dots. *)
Theorem summarize_at_most_80 (value : json) :
  (String.length (Core._summarize value) <= 80)%nat /\
  (let s := if Core.is_container value then Render.dumps value else Render.str value in
   Core._summarize value
   = if (String.length s <=? 80)%nat then s
     else (PyStr.take_str 77 s ++ "...")%string).
Proof.
  unfold Core._summarize.
  set (s := if Core.is_container value then Render.dumps value else Render.str value).
  cbv zeta. destruct (80 <? String.length s)%nat eqn:E.
  - apply Nat.ltb_lt in E. split.
    + rewrite str_app_length, take_str_length. cbn [String.length]. lia.
    + by replace (String.length s <=? 80)%nat with false
        by (symmetry; apply Nat.leb_gt; lia).
  - apply Nat.ltb_ge in E. split; [done|].
    by replace (String.length s <=? 80)%nat with true
      by (symmetry; apply Nat.leb_le; lia).
Qed.

(** *** Dotted paths *)

Section DottedPaths.
Import PyStr Parser.

Lemma split_nonempty sep s : split sep s <> [].
Proof.
  destruct s as [|c s]; [done|]. simpl.
  destruct (ascii_eqb c sep); [done|]. by destruct (split sep s).
Qed.

Lemma split_app_sep sep p q :
  split sep (p ++ String sep q) = split sep p ++ split sep q.
Proof.
  induction p as [|c p IH]; simpl.
  - unfold ascii_eqb. by rewrite Ascii.eqb_refl.
  - destruct (ascii_eqb c sep); [by rewrite IH|].
    rewrite IH. destruct (split sep p) as [|f r] eqn:E; [|done].
    by apply split_nonempty in E.
Qed.

Lemma split_single sep s : forall p, split sep s = [p] -> p = s.
Proof.
  induction s as [|c s IH]; intros p; simpl.
  - by intros [= <-].
  - destruct (ascii_eqb c sep).
    + intros [= _ E]. by apply split_nonempty in E.
    + destruct (split sep s) as [|f r] eqn:E; [by apply split_nonempty in E|].
      intros [= <- ->]. by rewrite (IH f).
Qed.

Lemma lstrip_lstrip s : lstrip (lstrip s) = lstrip s.
Proof.
  destruct (lstrip_head s) as [->|(c & s' & -> & Ec)]; [done|].
  cbn [lstrip]. by rewrite Ec.
Qed.

Lemma lstrip_rstrip_comm s : lstrip (rstrip s) = rstrip (lstrip s).
Proof.
  induction s as [|c s IH]; [done|].
  cbn [lstrip]. destruct (is_space c) eqn:Ec.
  - rewrite rstrip_cons. destruct (rstrip s) as [|c' r] eqn:E.
    + by rewrite Ec, <- IH.
    + cbn [lstrip]. by rewrite Ec, <- IH.
  - destruct (rstrip_head c s Ec) as [r ->]. cbn [lstrip]. by rewrite Ec.
Qed.

Lemma strip_lstrip s : strip (lstrip s) = strip s.
Proof. unfold strip. by rewrite lstrip_lstrip. Qed.

Lemma strip_rstrip s : strip (rstrip s) = strip s.
Proof. unfold strip. by rewrite lstrip_rstrip_comm, rstrip_idem. Qed.

Lemma parse_part_lstrip p : parse_part (lstrip p) = parse_part p.
Proof. unfold parse_part. by rewrite strip_lstrip. Qed.

Lemma parse_part_rstrip p : parse_part (rstrip p) = parse_part p.
Proof. unfold parse_part. by rewrite strip_rstrip. Qed.

(** Stripping on the left only touches the first part. *)
Lemma split_lstrip s :
  exists f r, split "." s = f :: r /\ split "." (lstrip s) = lstrip f :: r.
Proof.
  induction s as [|c s (f & r & E1 & E2)]; [by exists EmptyString, []|].
  cbn [lstrip]. destruct (is_space c) eqn:Ec.
  - assert (ascii_eqb c "." = false) as Hc.
    { destruct (ascii_eqb c ".") eqn:E; [|done].
      apply ascii_eqb_true in E as ->. done. }
    cbn [split]. rewrite Hc, E1. exists (String c f), r. split; [done|].
    rewrite E2. cbn [lstrip]. by rewrite Ec.
  - cbn [split]. destruct (ascii_eqb c ".").
    + by exists EmptyString, (split "." s).
    + rewrite E1. exists (String c f), r. split; [done|].
      cbn [lstrip]. by rewrite Ec.
Qed.

Lemma split_cons sep c s :
  split sep (String c s)
  = if ascii_eqb c sep then EmptyString :: split sep s
    else match split sep s with
         | p :: ps => String c p :: ps
         | [] => [String c EmptyString]
         end.
Proof. reflexivity. Qed.

(** Stripping on the right only touches the last part. *)
Lemma split_rstrip s :
  exists init lst,
    split "." s = init ++ [lst] /\ split "." (rstrip s) = init ++ [rstrip lst].
Proof.
  induction s as [|c s (init & lst & E1 & E2)]; [by exists (@nil string), EmptyString|].
  rewrite rstrip_cons, (split_cons "." c s), E1.
  destruct (ascii_eqb c ".") eqn:Hc.
  - apply ascii_eqb_true in Hc as ->.
    exists (EmptyString :: init), lst. split; [done|].
    destruct (rstrip s) as [|c' r] eqn:Er.
    + change (is_space ".") with false. cbv iota.
      simpl in E2. destruct init as [|i0 init]; [|by destruct init].
      injection E2 as E2. by rewrite <- E2.
    + rewrite (split_cons "." "." (String c' r)), E2. done.
  - destruct (rstrip s) as [|c' r] eqn:Er.
    + simpl in E2. destruct init as [|i0 init]; [|by destruct init].
      injection E2 as E2. cbn [app] in *.
      apply split_single in E1 as ->.
      exists (@nil string), (String c s). split; [done|].
      rewrite rstrip_cons, Er. cbn [app].
      destruct (is_space c); [done|].
      by rewrite split_cons, Hc.
    + rewrite (split_cons "." c (String c' r)), Hc, E2.
      destruct init as [|i0 init].
      * exists (@nil string), (String c lst). split; [done|]. cbn [app].
        cbn [app] in E2. pose proof (split_single _ _ _ E2) as Hl.
        rewrite rstrip_cons, Hl. done.
      * exists (String c i0 :: init), lst. done.
Qed.

Lemma parse_parts_app a : forall b,
  parse_parts (a ++ b)
  = res_bind (parse_parts a) (fun x =>
    res_bind (parse_parts b) (fun y => Ok (x ++ y))).
Proof.
  induction a as [|p a IH]; intros b; cbn [app parse_parts].
  - simpl. by destruct (parse_parts b).
  - rewrite IH. destruct (parse_part p) as [x|e]; [|done]. simpl.
    destruct (parse_parts a) as [y|e]; [|done]. simpl.
    destruct (parse_parts b) as [z|e]; [|done]. simpl.
    by rewrite app_assoc.
Qed.

(** The outer [strip] of the parser is subsumed by the [strip] of every
    part. *)
Lemma parse_unstripped s :
  _parse_path_segments s = parse_parts (split "." s).
Proof.
  unfold _parse_path_segments, strip.
  destruct (split_rstrip (lstrip s)) as (init & lst & E1 & E2).
  destruct (split_lstrip s) as (f & r & E3 & E4).
  rewrite E2, E3, parse_parts_app. cbn [parse_parts].
  rewrite parse_part_rstrip.
  change (res_bind (parse_part lst) (fun a => res_bind (Ok []) (fun b => Ok (a ++ b))))
    with (parse_parts [lst]).
  rewrite <- parse_parts_app, <- E1, E4. cbn [parse_parts].
  by rewrite parse_part_lstrip.
Qed.

End DottedPaths.

(** X7. Joining two paths with a dot concatenates their segments: the path
    [p.q] parses to the segments of [p] followed by those of [q], and raises
    when either of them does, the error of [p] first. Blanks around either
    path play no role. *)
Theorem parse_path_segments_dot (p q : string) :
  Parser._parse_path_segments (p ++ "." ++ q)
  = res_bind (Parser._parse_path_segments p) (fun a =>
    res_bind (Parser._parse_path_segments q) (fun b => Ok (a ++ b))).
Proof.
  rewrite !parse_unstripped.
  change (p ++ "." ++ q)%string with (p ++ String "." q)%string.
  rewrite split_app_sep. apply parse_parts_app.
Qed.

(** *** Further properties of [extract_value] and of the assertions *)

Section ExtractValueFacts.
Import PyStr.
Implicit Types (h : heap) (segs suffix : list segment).

Lemma collect_body_run (r : nat) suffix j item h0 ys0 :
  length h0 = r ->
  collect_body r suffix (j, item) (h0 ++ [OList ys0])
  = Ok (tt, h0 ++ [OList (ys0 ++ match suffix with
                                 | [] => [item]
                                 | _ :: _ =>
                                     let '(ok, val) :=
                                       _get_value (h0 ++ [OList ys0]) item suffix in
                                     if ok then [val] else []
                                 end)]).
Proof.
  intros Hr.
  assert (forall val, list_append r val (h0 ++ [OList ys0])
                      = Ok (tt, h0 ++ [OList (ys0 ++ [val])])) as Happ.
  { intros val. unfold list_append.
    rewrite lookup_app_r by lia. rewrite Hr, Nat.sub_diag. cbn [lookup list_lookup].
    rewrite insert_app_r_alt by lia. by rewrite Hr, Nat.sub_diag. }
  unfold collect_body. destruct suffix as [|s suffix]; [apply Happ|].
  unfold bind, get_heap.
  destruct (_get_value (h0 ++ [OList ys0]) item (s :: suffix)) as [[|] val].
  - apply Happ.
  - unfold ret. by rewrite app_nil_r.
Qed.

Lemma collect_loop_extends (r : nat) suffix pairs : forall h0 ys0,
  length h0 = r ->
  exists ys, for_each (collect_body r suffix) pairs (h0 ++ [OList ys0])
             = Ok (tt, h0 ++ [OList ys]).
Proof.
  induction pairs as [|[j item] pairs IH]; intros h0 ys0 Hr; cbn [for_each].
  - by exists ys0.
  - unfold bind at 1. rewrite collect_body_run by done. by apply IH.
Qed.

Lemma found_values_step h suffix j item pairs :
  found_values h suffix ((j, item) :: pairs)
  = match suffix with
    | [] => [item]
    | _ :: _ => let '(ok, val) := _get_value h item suffix in if ok then [val] else []
    end ++ found_values h suffix pairs.
Proof.
  unfold found_values. cbn [omap list_omap snd].
  destruct suffix as [|s suffix]; [done|].
  by destruct (_get_value h item (s :: suffix)) as [[|] val].
Qed.

Lemma collect_loop_found h (r : nat) suffix pairs : forall ys0,
  heap_closed h = true -> length h = r ->
  Forall (fun p => val_below (length h) (snd p) = true) pairs ->
  for_each (collect_body r suffix) pairs (h ++ [OList ys0])
  = Ok (tt, h ++ [OList (ys0 ++ found_values h suffix pairs)]).
Proof.
  induction pairs as [|[j item] pairs IH]; intros ys0 Hc Hr Hall; cbn [for_each].
  - unfold found_values. cbn [omap list_omap]. by rewrite app_nil_r.
  - apply Forall_cons in Hall as [Hitem Hall]. cbn [snd] in Hitem.
    unfold bind at 1. rewrite collect_body_run by done.
    rewrite IH by done. rewrite found_values_step, <- app_assoc.
    rewrite (get_value_source h (h ++ [OList ys0])); [done | done | | done].
    intros b Hb. by rewrite lookup_app_l.
Qed.

End ExtractValueFacts.

(** X8. [extract_value] only reads the document: whenever it returns, the
    objects of the store are what they were before the call. On a path with
    an iteration or a slice whose prefix leads to an array the store has one
    more object, the new list of results that the call returns; on every
    other path the store is the same. *)
Theorem extract_value_reads_only
  (data : pyval) (path : string) (h h' : heap) (v : pyval) :
  extract_value data path h = Ok (v, h') ->
  h' = h \/ exists ys, h' = h ++ [OList ys] /\ v = VRef (length h).
Proof.
  unfold extract_value. unfold bind at 1. unfold lift.
  destruct (Parser._parse_path_segments (strip_body_prefix path)) as [segs|e]; [|done].
  destruct (first_index is_iter_or_slice segs) as [ci|].
  - unfold bind at 1. unfold get_heap.
    destruct (_get_value h data (take ci segs)) as [found arr].
    destruct found; cbn [negb]; [|intros [= _ <-]; by left].
    destruct (as_list h arr) as [[a items]|]; [|intros [= _ <-]; by left].
    unfold bind at 1. unfold alloc. unfold bind at 1.
    destruct (collect_loop_extends (length h) (drop (S ci) segs)
                (_resolve_list_segment items (nth ci segs Iterate)) h [] eq_refl)
      as [ys ->].
    intros [= <- <-]. right. by exists ys.
  - unfold bind, get_heap. destruct (_get_value h data segs) as [found value].
    intros [= _ <-]. by left.
Qed.

Lemma extract_value_reads_only_witness :
  [OList [VInt 1; VInt 2]; ODict [("xs", VRef 0)]; OList [VInt 1; VInt 2]]
  = [OList [VInt 1; VInt 2]; ODict [("xs", VRef 0)]]
  \/ exists ys,
       [OList [VInt 1; VInt 2]; ODict [("xs", VRef 0)]; OList [VInt 1; VInt 2]]
       = [OList [VInt 1; VInt 2]; ODict [("xs", VRef 0)]] ++ [OList ys]
       /\ VRef 2 = VRef (length [OList [VInt 1; VInt 2]; ODict [("xs", VRef 0)]]).
Proof.
  apply (extract_value_reads_only (VRef 1) "body.xs[]"
           [OList [VInt 1; VInt 2]; ODict [("xs", VRef 0)]]).
  reflexivity.
Defined.

(** X9. On a path with an iteration or a slice whose prefix leads to an
    array, [extract_value] returns a new list holding, in selection order, the
    value found through the suffix in each selected element; an element in
    which the suffix is not found contributes nothing (no filler, unlike the
    projection), and without suffix the selected elements themselves are
    listed. *)
Theorem extract_value_collects
  (h : heap) (data : pyval) (path : string) (segs : list segment)
  (ci a : nat) (items : list pyval) :
  heap_closed h = true ->
  Parser._parse_path_segments (strip_body_prefix path) = Ok segs ->
  first_index is_iter_or_slice segs = Some ci ->
  _get_value h data (take ci segs) = (true, VRef a) ->
  h !! a = Some (OList items) ->
  extract_value data path h
  = Ok (VRef (length h),
        h ++ [OList (found_values h (drop (S ci) segs)
                       (_resolve_list_segment items (nth ci segs Iterate)))]).
Proof.
  intros Hc P F Hg Ha.
  unfold extract_value. rewrite P. unfold bind at 1. unfold lift. rewrite F.
  unfold bind at 1. unfold get_heap. rewrite Hg. cbn [negb].
  unfold as_list. rewrite Ha.
  unfold bind at 1. unfold alloc. unfold bind at 1.
  rewrite (collect_loop_found h (length h)); [done | done | done |].
  apply Forall_forall. intros [j item] Hin. cbn [snd].
  apply resolve_elem in Hin.
  eapply list_val_below; [|exact Hin]. by eapply heap_closed_obj.
Qed.

Lemma extract_value_collects_witness :
  extract_value (VRef 3) "items[0:2].id"
    [ODict [("id", VInt 1)]; ODict [("x", VInt 2)]; OList [VRef 0; VRef 1];
     ODict [("items", VRef 2)]]
  = Ok (VRef 4,
        [ODict [("id", VInt 1)]; ODict [("x", VInt 2)]; OList [VRef 0; VRef 1];
         ODict [("items", VRef 2)]; OList [VInt 1]]).
Proof.
  apply (extract_value_collects
           [ODict [("id", VInt 1)]; ODict [("x", VInt 2)]; OList [VRef 0; VRef 1];
            ODict [("items", VRef 2)]]
           (VRef 3) "items[0:2].id" [Key "items"; Slice (Some 0) (Some 2); Key "id"]
           1 2 [VRef 0; VRef 1]); reflexivity.
Defined.

Section BodyPrefix.
Import PyStr.

Lemma rstrip_app_nonspace a c p :
  is_space c = false -> rstrip (a ++ String c p) = (a ++ rstrip (String c p))%string.
Proof.
  intros Ec. induction a as [|x a IH]; [done|].
  cbn [String.append]. rewrite rstrip_cons, IH.
  destruct (rstrip_head c p Ec) as [r ->]. by destruct a.
Qed.

Lemma rstrip_dot p : rstrip (String "." p) = String "." (rstrip p).
Proof. rewrite rstrip_cons. by destruct (rstrip p). Qed.

Lemma lower_app a b : lower (a ++ b) = (lower a ++ lower b)%string.
Proof. induction a as [|c a IH]; [done|]. cbn [String.append lower]. by rewrite IH. Qed.

Lemma lower_char_is_b c : lower_char c = "b"%char -> is_space c = false.
Proof. destruct c as [[] [] [] [] [] [] [] []]; by vm_compute. Qed.

Lemma lower_char_is_dot c : lower_char c = "."%char -> c = "."%char.
Proof. destruct c as [[] [] [] [] [] [] [] []]; by vm_compute. Qed.

(** A [body.] prefix, in any case, is dropped before parsing. *)
Lemma strip_body_prefix_drops b p :
  lower b = "body." ->
  Parser._parse_path_segments (strip_body_prefix (b ++ p))
  = Parser._parse_path_segments p.
Proof.
  intros Hb.
  destruct b as [|c1 [|c2 [|c3 [|c4 [|c5 [|c6 b]]]]]]; try discriminate Hb.
  cbn [lower] in Hb. injection Hb as H1 H2 H3 H4 H5.
  apply lower_char_is_b in H1 as Hs1. apply lower_char_is_dot in H5 as ->.
  set (b4 := String c1 (String c2 (String c3 (String c4 EmptyString)))).
  assert (strip (String c1 (String c2 (String c3 (String c4 (String "." p)))))
          = (b4 ++ String "." (rstrip p))%string) as Hstrip.
  { unfold strip. cbn [lstrip]. rewrite Hs1.
    change (String c1 (String c2 (String c3 (String c4 (String "." p)))))
      with (b4 ++ String "." p)%string.
    by rewrite rstrip_app_nonspace, rstrip_dot. }
  unfold strip_body_prefix. cbn [String.append]. rewrite Hstrip.
  assert (startswith "body." (lower (b4 ++ String "." (rstrip p))) = true) as ->.
  { unfold b4. cbn [String.append lower]. rewrite H1, H2, H3, H4. reflexivity. }
  unfold b4. cbn [String.append drop_str].
  unfold Parser._parse_path_segments. by rewrite strip_rstrip.
Qed.

End BodyPrefix.

(** X10. A leading [body.], in any case, is optional in an export or
    assertion path: on a path that does not itself begin with [body.],
    [extract_value] gives the same result with the prefix as without it. *)
Theorem extract_value_body_prefix_optional
  (data : pyval) (b p : string) (h : heap) :
  PyStr.lower b = "body." ->
  PyStr.startswith "body." (PyStr.lower (PyStr.strip p)) = false ->
  extract_value data (b ++ p) h = extract_value data p h.
Proof.
  intros Hb Hp. unfold extract_value.
  rewrite (strip_body_prefix_drops b p Hb).
  unfold strip_body_prefix at 1. rewrite Hp. by rewrite parse_strip.
Qed.

Lemma extract_value_body_prefix_optional_witness :
  extract_value (VRef 0) "Body.user" [ODict [("user", VStr "ann")]]
  = extract_value (VRef 0) "user" [ODict [("user", VStr "ann")]].
Proof.
  apply (extract_value_body_prefix_optional (VRef 0) "Body." "user"); reflexivity.
Defined.

(** The prefix is dropped once: a key that is itself named [body] is reached
    by spelling it after the prefix. *)
Example extract_value_key_named_body :
  extract_value (VRef 1) "body.x" [ODict [("x", VInt 1)]; ODict [("body", VRef 0); ("x", VInt 2)]]
  = Ok (VInt 2, [ODict [("x", VInt 1)]; ODict [("body", VRef 0); ("x", VInt 2)]]) /\
  extract_value (VRef 1) "body.body.x" [ODict [("x", VInt 1)]; ODict [("body", VRef 0); ("x", VInt 2)]]
  = Ok (VInt 1, [ODict [("x", VInt 1)]; ODict [("body", VRef 0); ("x", VInt 2)]]).
Proof. split; reflexivity. Qed.

Section AssertOperators.
Import PyStr.

Lemma str_app_inv (b : string) : forall a x y,
  (a ++ x = b ++ y)%string -> (String.length b <= String.length a)%nat ->
  exists z, a = (b ++ z)%string /\ y = (z ++ x)%string.
Proof.
  induction b as [|c b IH]; intros a x y H Hlen.
  - exists a. by simpl in *.
  - destruct a as [|c' a]; [simpl in Hlen; lia|].
    cbn [String.append] in H. injection H as -> H.
    destruct (IH a x y H) as (z & -> & ->); [simpl in Hlen; lia|].
    by exists z.
Qed.

Lemma find_not_occurs sub s : ~ occurs sub s -> find s sub = None.
Proof.
  intros Hno. destruct (find s sub) as [k|] eqn:F; [|done].
  destruct (find_some _ _ _ F) as (pre & post & -> & _). destruct Hno. by exists pre, post.
Qed.

Lemma first_split_eq p e :
  ~ occurs "=" p -> first_split "=" (p ++ "=" ++ e) p e.
Proof.
  intros Hno. split; [done|]. intros pre' post' H.
  destruct (Nat.le_gt_cases (String.length p) (String.length pre')) as [|Hlt]; [done|].
  destruct (str_app_inv pre' p _ _ H) as (z & -> & Hz); [lia|].
  destruct z as [|c z].
  { rewrite str_app_length in Hlt. simpl in Hlt. lia. }
  cbn [String.append] in Hz. injection Hz as <- _.
  destruct Hno. by exists pre', z.
Qed.

Lemma first_split_ne p e :
  ~ occurs "=" p -> first_split "!=" (p ++ "!=" ++ e) p e.
Proof.
  intros Hno. split; [done|]. intros pre' post' H.
  destruct (Nat.le_gt_cases (String.length p) (String.length pre')) as [|Hlt]; [done|].
  destruct (str_app_inv pre' p _ _ H) as (z & -> & Hz); [lia|].
  destruct z as [|c z].
  { rewrite str_app_length in Hlt. simpl in Hlt. lia. }
  cbn [String.append] in Hz. injection Hz as <- Hz.
  destruct z as [|c2 z]; [cbn [String.append] in Hz; discriminate Hz|].
  cbn [String.append] in Hz. injection Hz as <- _.
  destruct Hno. exists (pre' ++ "!")%string, z.
  by rewrite str_app_assoc.
Qed.

Lemma parse_assert_eq p e :
  ~ occurs "=" p -> ~ occurs "!=" (p ++ "=" ++ e) ->
  parse_assert (p ++ "=" ++ e) = Ok (strip p, "=", strip e).
Proof.
  intros Hp He. unfold parse_assert.
  rewrite (find_not_occurs _ _ He).
  pose proof (first_split_eq p e Hp) as FS.
  rewrite (find_first_split _ _ _ _ FS).
  destruct (first_split_parts _ _ _ _ FS) as [Ht Hd].
  cbn [String.length] in Hd. by rewrite Ht, Hd.
Qed.

Lemma parse_assert_ne p e :
  ~ occurs "=" p ->
  parse_assert (p ++ "!=" ++ e) = Ok (strip p, "!=", strip e).
Proof.
  intros Hp. unfold parse_assert.
  pose proof (first_split_ne p e Hp) as FS.
  rewrite (find_first_split _ _ _ _ FS).
  destruct (first_split_parts _ _ _ _ FS) as [Ht Hd].
  cbn [String.length] in Hd. by rewrite Ht, Hd.
Qed.

Lemma evaluate_assert_run expr path op expected (result : RequestResult pyval) h :
  parse_assert expr = Ok (path, op, expected) ->
  evaluate_assert expr result h
  = match resolve_actual path result h with
    | Raise err => Raise err
    | Ok (actual, h1) =>
        let actual_str :=
          match actual with
          | VNone => EmptyString
          | _ => py_str h1 actual
          end in
        let passed :=
          if String.eqb op "=" then String.eqb actual_str expected
          else negb (String.eqb actual_str expected) in
        Ok (passed,
            if passed then ("ASSERT PASSED: " ++ expr)%string
            else ("ASSERT FAILED: " ++ expr ++ " (actual: " ++ actual_str ++ ")")%string,
            h1)
    end.
Proof.
  intros P. unfold evaluate_assert. rewrite P.
  unfold bind, lift, get_heap.
  destruct (resolve_actual path result h) as [[actual h1]|err]; [|done].
  cbv zeta.
  by destruct (if String.eqb op "=" then _ else _).
Qed.

End AssertOperators.

(** X11. The two assertion operators are exact opposites. For a path
    without [=] and an expected text such that [!=] does not occur in
    [path=expected], the assertions [path=expected] and [path!=expected]
    either both raise the same error or both return, and then exactly one of
    them passes. *)
Theorem assert_operators_are_opposite
  (p e : string) (result : RequestResult pyval) (h : heap) :
  ~ occurs "=" p ->
  ~ occurs "!=" (p ++ "=" ++ e) ->
  match evaluate_assert (p ++ "=" ++ e) result h,
        evaluate_assert (p ++ "!=" ++ e) result h with
  | Ok ((passed_eq, _), h1), Ok ((passed_ne, _), h2) =>
      passed_eq = negb passed_ne /\ h1 = h2
  | Raise e1, Raise e2 => e1 = e2
  | _, _ => False
  end.
Proof.
  intros Hp He.
  rewrite (evaluate_assert_run _ _ _ _ result h (parse_assert_eq p e Hp He)).
  rewrite (evaluate_assert_run _ _ _ _ result h (parse_assert_ne p e Hp)).
  destruct (resolve_actual (PyStr.strip p) result h) as [[actual h1]|err]; [|done].
  cbv zeta. cbn [String.eqb Ascii.eqb Bool.eqb].
  set (actual_str := match actual with VNone => EmptyString | _ => py_str h1 actual end).
  by destruct (String.eqb actual_str (PyStr.strip e)).
Qed.

Lemma assert_operators_are_opposite_witness :
  match evaluate_assert ("status" ++ "=" ++ "200") (response_with_body 200 VNone) [],
        evaluate_assert ("status" ++ "!=" ++ "200") (response_with_body 200 VNone) [] with
  | Ok ((passed_eq, _), h1), Ok ((passed_ne, _), h2) =>
      passed_eq = negb passed_ne /\ h1 = h2
  | Raise e1, Raise e2 => e1 = e2
  | _, _ => False
  end.
Proof.
  apply (assert_operators_are_opposite "status" "200" (response_with_body 200 VNone) []).
  - intros (pre & post & H).
    assert (PyStr.find "status" "=" = None) as F by reflexivity.
    apply find_none in F. apply F. by exists pre, post.
  - intros (pre & post & H).
    assert (PyStr.find ("status" ++ "=" ++ "200") "!=" = None) as F by reflexivity.
    apply find_none in F. apply F. by exists pre, post.
Defined.

(** *** [set_at_path] *)

Section SetAtPathFacts.
Import SetAtPath.
Implicit Types (kvs : list (key * doc)) (k : key) (v : doc) (xs : list doc).

Lemma key_eqb_eq k1 k2 : key_eqb k1 k2 = true <-> k1 = k2.
Proof.
  destruct k1 as [a|a], k2 as [b|b]; simpl; try (split; [done | congruence]).
  - rewrite String.eqb_eq. split; congruence.
  - rewrite Z.eqb_eq. split; congruence.
Qed.

Lemma key_eqb_refl k : key_eqb k k = true.
Proof. by apply key_eqb_eq. Qed.


Lemma lookup_setitem_eq kvs k v : lookup (setitem kvs k v) k = Some v.
Proof.
  induction kvs as [|[k' w] kvs IH]; simpl; [by rewrite key_eqb_refl|].
  destruct (key_eqb k' k) eqn:E; simpl; by rewrite E.
Qed.


Lemma setitem_setitem kvs k v1 v2 :
  setitem (setitem kvs k v1) k v2 = setitem kvs k v2.
Proof.
  induction kvs as [|[k0 w] kvs IH]; simpl; [by rewrite key_eqb_refl|].
  destruct (key_eqb k0 k) eqn:E; simpl; rewrite E; [done | by rewrite IH].
Qed.

Lemma length_setitem kvs k v : (length kvs <= length (setitem kvs k v))%nat.
Proof.
  induction kvs as [|[k0 w] kvs IH]; simpl; [lia|].
  destruct (key_eqb k0 k); simpl; lia.
Qed.


Lemma length_pad xs i filler : (i < length (pad xs i filler))%nat.
Proof. unfold pad. rewrite List.length_app, length_replicate. lia. Qed.

Lemma pad_long xs i filler : (i < length xs)%nat -> pad xs i filler = xs.
Proof.
  intros H. unfold pad. replace (S i - length xs)%nat with 0%nat by lia.
  apply app_nil_r.
Qed.

Lemma nth_insert xs i (c d : doc) : (i < length xs)%nat -> nth i (<[i := c]> xs) d = c.
Proof.
  intros H. apply nth_lookup_Some. by apply list_lookup_insert_eq.
Qed.

Lemma set_tokens_cons current token next_token rest value :
  set_tokens current (token :: next_token :: rest) value
  = match token, current with
    | TIdx i, DList xs =>
        let xs' := pad xs i (fresh_for next_token) in
        match set_tokens (nth i xs' DNone) (next_token :: rest) value with
        | Done child => Done (DList (<[i := child]> xs'))
        | Fails e => Fails e
        end
    | TIdx i, DDict kvs =>
        if (length kvs <=? i)%nat then Fails AttributeError
        else
          match lookup kvs (KInt (Z.of_nat i)) with
          | Some child0 =>
              match set_tokens child0 (next_token :: rest) value with
              | Done child => Done (DDict (setitem kvs (KInt (Z.of_nat i)) child))
              | Fails e => Fails e
              end
          | None => Fails KeyError
          end
    | TIdx i, DStr s =>
        match String.get i s with
        | None => Fails AttributeError
        | Some c =>
            match set_tokens (DStr (String c EmptyString)) (next_token :: rest) value with
            | Done _ => Done current
            | Fails e => Fails e
            end
        end
    | TIdx _, _ => Fails TypeError
    | TKey k, DDict kvs =>
        let child0 :=
          match lookup kvs (KStr k) with
          | Some c => c
          | None => fresh_for next_token
          end in
        match set_tokens child0 (next_token :: rest) value with
        | Done child => Done (DDict (setitem kvs (KStr k) child))
        | Fails e => Fails e
        end
    | TKey _, _ => Fails TypeError
    end.
Proof. reflexivity. Qed.

(** Through a string the walk always fails: a string has no [append] and
    takes no item assignment. *)
Lemma set_tokens_str tokens : forall s v,
  exists e, set_tokens (DStr s) tokens v = Fails e.
Proof.
  induction tokens as [|t tokens IH]; intros s v; [by eexists|].
  destruct tokens as [|next rest].
  - destruct t as [k|i]; cbn; [by eexists|].
    destruct (String.length s <=? i)%nat; by eexists.
  - rewrite set_tokens_cons. destruct t as [k|i]; [by eexists|].
    destruct (String.get i s) as [c|]; [|by eexists].
    destruct (IH (String c EmptyString) v) as [e ->]. by eexists.
Qed.

Lemma set_tokens_index tokens : forall current v r,
  set_tokens current tokens v = Done r -> index_path r tokens = Some v.
Proof.
  induction tokens as [|t tokens IH]; intros current v r; [done|].
  destruct tokens as [|next rest].
  - destruct t as [k|i], current as [| | |s|xs|kvs]; cbn; try done.
    + intros [= <-]. cbn. by rewrite lookup_setitem_eq.
    + destruct (String.length s <=? i)%nat; done.
    + intros [= <-]. cbn.
      by rewrite list_lookup_insert_eq by apply length_pad.
    + destruct (length kvs <=? i)%nat; [done|]. intros [= <-]. cbn.
      by rewrite lookup_setitem_eq.
  - rewrite set_tokens_cons.
    destruct t as [k|i], current as [| | |s|xs|kvs]; cbv zeta; try done.
    + destruct (set_tokens _ (next :: rest) v) as [child|e] eqn:E; [|done].
      intros [= <-]. cbn [index_path]. rewrite lookup_setitem_eq. by eapply IH.
    + destruct (String.get i s) as [c|]; [|done].
      by destruct (set_tokens_str (next :: rest) (String c EmptyString) v) as [e ->].
    + destruct (set_tokens _ (next :: rest) v) as [child|e] eqn:E; [|done].
      intros [= <-]. cbn [index_path].
      rewrite list_lookup_insert_eq by apply length_pad. by eapply IH.
    + destruct (length kvs <=? i)%nat; [done|].
      destruct (lookup kvs (KInt (Z.of_nat i))) as [child0|]; [|done].
      destruct (set_tokens child0 (next :: rest) v) as [child|e] eqn:E; [|done].
      intros [= <-]. cbn [index_path]. rewrite lookup_setitem_eq. by eapply IH.
Qed.

Lemma set_tokens_twice tokens : forall current v1 v2 r1,
  set_tokens current tokens v1 = Done r1 ->
  set_tokens r1 tokens v2 = set_tokens current tokens v2.
Proof.
  induction tokens as [|t tokens IH]; intros current v1 v2 r1; [done|].
  destruct tokens as [|next rest].
  - destruct t as [k|i], current as [| | |s|xs|kvs]; cbn; try done.
    + intros [= <-]. cbn. by rewrite setitem_setitem.
    + destruct (String.length s <=? i)%nat; done.
    + intros [= <-]. cbn.
      rewrite pad_long by (rewrite length_insert; apply length_pad).
      by rewrite list_insert_insert_eq.
    + destruct (length kvs <=? i)%nat eqn:El; [done|]. intros [= <-]. cbn.
      apply Nat.leb_gt in El.
      pose proof (length_setitem kvs (KInt (Z.of_nat i)) v1) as Hl.
      replace (length (setitem kvs (KInt (Z.of_nat i)) v1) <=? i)%nat with false
        by (symmetry; apply Nat.leb_gt; lia).
      by rewrite setitem_setitem.
  - rewrite set_tokens_cons.
    destruct t as [k|i], current as [| | |s|xs|kvs]; cbv zeta; try done.
    + set (child0 := match lookup kvs (KStr k) with
                     | Some c => c
                     | None => fresh_for next
                     end).
      destruct (set_tokens child0 (next :: rest) v1) as [c1|e] eqn:E; [|done].
      intros [= <-]. rewrite !set_tokens_cons. cbv zeta. rewrite lookup_setitem_eq.
      fold child0.
      rewrite (IH child0 v1 v2 c1 E).
      destruct (set_tokens child0 (next :: rest) v2); [|done].
      by rewrite setitem_setitem.
    + destruct (String.get i s) as [c|]; [|done].
      by destruct (set_tokens_str (next :: rest) (String c EmptyString) v1) as [e ->].
    + set (xs' := pad xs i (fresh_for next)).
      pose proof (length_pad xs i (fresh_for next)) as Hl. fold xs' in Hl.
      destruct (set_tokens (nth i xs' DNone) (next :: rest) v1) as [c1|e] eqn:E; [|done].
      intros [= <-]. rewrite !set_tokens_cons. cbv zeta. fold xs'.
      rewrite pad_long by (by rewrite length_insert).
      rewrite nth_insert by done.
      rewrite (IH (nth i xs' DNone) v1 v2 c1 E).
      destruct (set_tokens (nth i xs' DNone) (next :: rest) v2); [|done].
      by rewrite list_insert_insert_eq.
    + destruct (length kvs <=? i)%nat eqn:El; [done|].
      destruct (lookup kvs (KInt (Z.of_nat i))) as [child0|] eqn:Ek; [|done].
      destruct (set_tokens child0 (next :: rest) v1) as [c1|e] eqn:E; [|done].
      intros [= <-]. rewrite !set_tokens_cons. rewrite El, Ek.
      apply Nat.leb_gt in El.
      pose proof (length_setitem kvs (KInt (Z.of_nat i)) c1) as Hl.
      replace (length (setitem kvs (KInt (Z.of_nat i)) c1) <=? i)%nat with false
        by (symmetry; apply Nat.leb_gt; lia).
      rewrite lookup_setitem_eq, (IH child0 v1 v2 c1 E).
      destruct (set_tokens child0 (next :: rest) v2); [|done].
      by rewrite setitem_setitem.
Qed.

(** On the empty container that fits its first token the walk succeeds. *)
Lemma set_tokens_fresh rest : forall t v,
  exists r, set_tokens (fresh_for t) (t :: rest) v = Done r.
Proof.
  induction rest as [|next rest IH]; intros t v.
  - destruct t; cbn; by eexists.
  - rewrite set_tokens_cons. destruct t as [k|i]; cbn [fresh_for lookup]; cbv zeta.
    + destruct (IH next v) as [r ->]. by eexists.
    + assert (nth i (pad [] i (fresh_for next)) DNone = fresh_for next) as ->.
      { apply nth_lookup_Some. unfold pad. cbn [app length].
        apply lookup_replicate_2. lia. }
      destruct (IH next v) as [r ->]. by eexists.
Qed.

Lemma tokens_of_part_nonempty part : tokens_of_part part <> [].
Proof.
  unfold tokens_of_part. destruct (match_index part) as [[g1 ds]|]; [|done].
  by destruct g1.
Qed.

Lemma tokenize_nonempty path : tokenize path <> [].
Proof.
  unfold tokenize. destruct (PyStr.split "." path) as [|p ps] eqn:E.
  - by apply split_nonempty in E.
  - cbn [flat_map]. intros H. apply app_eq_nil in H as [H _].
    by apply tokens_of_part_nonempty in H.
Qed.

End SetAtPathFacts.

(** X12. Setting then reading gives the value back: whenever
    [set_at_path(obj, path, value)] returns, indexing the updated document
    along the tokens of the path yields [value]. *)
Theorem set_at_path_then_index
  (obj : SetAtPath.doc) (path : string) (value r : SetAtPath.doc) :
  SetAtPath.set_at_path obj path value = SetAtPath.Done r ->
  index_path r (SetAtPath.tokenize path) = Some value.
Proof. apply set_tokens_index. Qed.

Lemma set_at_path_then_index_witness :
  index_path
    (SetAtPath.DDict
       [(SetAtPath.KStr "model", SetAtPath.DStr "m");
        (SetAtPath.KStr "messages",
         SetAtPath.DList
           [SetAtPath.DDict [];
            SetAtPath.DDict [(SetAtPath.KStr "content", SetAtPath.DStr "hi")]])])
    (SetAtPath.tokenize "messages[1].content")
  = Some (SetAtPath.DStr "hi").
Proof.
  apply (set_at_path_then_index
           (SetAtPath.DDict [(SetAtPath.KStr "model", SetAtPath.DStr "m")])
           "messages[1].content" (SetAtPath.DStr "hi")).
  reflexivity.
Defined.

(** X13. The last write wins: after a successful [set_at_path] with one
    value, setting another value at the same path behaves as setting it on
    the original document, with the same updated document or the same
    failure. In particular setting the same value twice changes nothing
    more. *)
Theorem set_at_path_last_write_wins
  (obj : SetAtPath.doc) (path : string) (v1 v2 r1 : SetAtPath.doc) :
  SetAtPath.set_at_path obj path v1 = SetAtPath.Done r1 ->
  SetAtPath.set_at_path r1 path v2 = SetAtPath.set_at_path obj path v2.
Proof. apply set_tokens_twice. Qed.

Lemma set_at_path_last_write_wins_witness :
  SetAtPath.set_at_path
    (SetAtPath.DDict
       [(SetAtPath.KStr "a",
         SetAtPath.DList [SetAtPath.DDict [(SetAtPath.KStr "b", SetAtPath.DInt 1)]])])
    "a[0].b" (SetAtPath.DInt 2)
  = SetAtPath.set_at_path (SetAtPath.DDict []) "a[0].b" (SetAtPath.DInt 2).
Proof.
  apply (set_at_path_last_write_wins (SetAtPath.DDict []) "a[0].b" (SetAtPath.DInt 1)).
  reflexivity.
Defined.

(** X14. On an empty dict [set_at_path] succeeds exactly when the path
    begins with a key: every container on the way is then created with the
    type its next token needs. A path that begins with a position, such as
    [[0].a], fails with [AttributeError], the dict having no [append]. The
    token list is never empty. *)
Theorem set_at_path_on_empty_dict (path : string) (value : SetAtPath.doc) :
  match SetAtPath.tokenize path with
  | SetAtPath.TKey _ :: _ =>
      exists r, SetAtPath.set_at_path (SetAtPath.DDict []) path value = SetAtPath.Done r
  | SetAtPath.TIdx _ :: _ =>
      SetAtPath.set_at_path (SetAtPath.DDict []) path value
      = SetAtPath.Fails SetAtPath.AttributeError
  | [] => False
  end.
Proof.
  unfold SetAtPath.set_at_path.
  pose proof (tokenize_nonempty path) as Hne.
  destruct (SetAtPath.tokenize path) as [|[k|i] rest]; [done| |].
  - apply (set_tokens_fresh rest (SetAtPath.TKey k)).
  - by destruct rest.
Qed.



(** *** Saving and comparing a snapshot *)



(** *** When the projection returns *)

Section Growth.
Implicit Types (h : heap) (a c : nat) (v : pyval) (segs suffix : list segment).

Lemma grows_refl h : grows h h.
Proof. intros a. destruct (h !! a) as [[kvs|xs]|]; eauto. Qed.

Lemma grows_trans h1 h2 h3 : grows h1 h2 -> grows h2 h3 -> grows h1 h3.
Proof.
  intros H12 H23 a. specialize (H12 a). specialize (H23 a).
  destruct (h1 !! a) as [[kvs|xs]|]; [| |done].
  - destruct H12 as [kvs' E]. by rewrite E in H23.
  - destruct H12 as (xs' & E & Hl). rewrite E in H23.
    destruct H23 as (xs'' & E' & Hl'). exists xs''. split; [done | lia].
Qed.

Lemma grows_app h l : grows h (h ++ l).
Proof.
  intros a. destruct (h !! a) as [[kvs|xs]|] eqn:E; [| |done].
  - exists kvs. by apply lookup_app_l_Some.
  - exists xs. split; [by apply lookup_app_l_Some | done].
Qed.

Lemma grows_insert_dict h a kvs kvs' :
  h !! a = Some (ODict kvs) -> grows h (<[a := ODict kvs']> h).
Proof.
  intros Ha b. destruct (decide (b = a)) as [->|Hne].
  - rewrite Ha. exists kvs'. apply list_lookup_insert_eq. by eapply lookup_lt_Some.
  - rewrite list_lookup_insert_ne by done. destruct (h !! b) as [[?|?]|]; eauto.
Qed.

Lemma grows_insert_list h a xs xs' :
  h !! a = Some (OList xs) -> (length xs <= length xs')%nat ->
  grows h (<[a := OList xs']> h).
Proof.
  intros Ha Hl b. destruct (decide (b = a)) as [->|Hne].
  - rewrite Ha. exists xs'. split; [|done].
    apply list_lookup_insert_eq. by eapply lookup_lt_Some.
  - rewrite list_lookup_insert_ne by done. destruct (h !! b) as [[?|?]|]; eauto.
Qed.

Lemma grows_list h h' a xs :
  grows h h' -> h !! a = Some (OList xs) ->
  exists xs', h' !! a = Some (OList xs') /\ (length xs <= length xs')%nat.
Proof. intros G Ha. specialize (G a). by rewrite Ha in G. Qed.

Lemma as_dict_Some h v a d :
  as_dict h v = Some (a, d) -> v = VRef a /\ h !! a = Some (ODict d).
Proof.
  unfold as_dict. destruct v as [| | | |b]; try done.
  destruct (h !! b) as [[kvs|xs]|] eqn:E; try done. by intros [= <- <-].
Qed.

Lemma as_list_Some h v a xs :
  as_list h v = Some (a, xs) -> v = VRef a /\ h !! a = Some (OList xs).
Proof.
  unfold as_list. destruct v as [| | | |b]; try done.
  destruct (h !! b) as [[kvs|ys]|] eqn:E; try done. by intros [= <- <-].
Qed.

Lemma returns_ret {A : Type} (r : A) h : returns_growing (ret r) h.
Proof. exists r, h. split; [done | apply grows_refl]. Qed.

(** Sequencing: when the first computation returns, and the second one
    returns from every store grown from the starting one. *)
Lemma returns_bind {A B : Type} (m : M A) (f : A -> M B) h :
  (exists r h1, m h = Ok (r, h1) /\ grows h h1 /\ returns_growing (f r) h1) ->
  returns_growing (bind m f) h.
Proof.
  intros (r & h1 & Hm & G1 & r' & h' & Hf & G2).
  exists r', h'. split; [by rewrite (bind_ok _ _ _ _ _ Hm) | by eapply grows_trans].
Qed.

Lemma getitem_in_range (xs : list pyval) i :
  0 <= i -> (Z.to_nat i < length xs)%nat -> exists v, PyList.getitem xs i = Some v.
Proof.
  intros H0 Hi. destruct (lookup_lt_is_Some_2 xs (Z.to_nat i) Hi) as [v Hv].
  exists v. by apply getitem_nonneg.
Qed.

(** Padding a list up to a position and reading that position. *)
Lemma pad_then_get a xs i h :
  h !! a = Some (OList xs) -> 0 <= i ->
  returns_growing (pad_to_index a (length xs) i ;; list_getitem a i) h.
Proof.
  intros Ha Hi. unfold pad_to_index.
  set (n := Z.to_nat (i + 1 - Z.of_nat (length xs))).
  pose proof (append_new_dicts_run n a h xs Ha) as Hrun.
  set (xs' := xs ++ map VRef (seq (length h) n)) in Hrun.
  set (h1 := <[a := OList xs']> (h ++ replicate n (ODict []))) in Hrun.
  assert (a < length h)%nat as Hlt by (by eapply lookup_lt_Some).
  assert (h1 !! a = Some (OList xs')) as Ha1.
  { unfold h1. apply list_lookup_insert_eq. rewrite List.length_app. lia. }
  assert (grows h h1) as G.
  { eapply grows_trans; [apply (grows_app h (replicate n (ODict [])))|].
    unfold h1. eapply grows_insert_list; [by apply lookup_app_l_Some|].
    unfold xs'. rewrite List.length_app. lia. }
  destruct (getitem_in_range xs' i Hi) as [v Hv].
  { unfold xs'. rewrite List.length_app, length_map, length_seq. lia. }
  exists v, h1. split; [|done].
  rewrite (bind_ok _ _ _ _ _ Hrun). by eapply list_getitem_run.
Qed.

Lemma new_child_in_dict a d k o h :
  h !! a = Some (ODict d) ->
  returns_growing (let* child := alloc o in dict_setitem a k child ;; ret child) h.
Proof.
  intros Ha. assert (a < length h)%nat as Hlt by (by eapply lookup_lt_Some).
  eexists _, _. split.
  - unfold bind at 1. unfold alloc. unfold bind at 1.
    erewrite dict_setitem_run by (by apply lookup_app_l_Some). reflexivity.
  - eapply grows_trans; [apply (grows_app h [o])|].
    eapply grows_insert_dict. by apply lookup_app_l_Some.
Qed.

Lemma ensure_step_returns target seg next h :
  nonneg_index seg = true -> returns_growing (ensure_step target seg next) h.
Proof.
  intros Hs. unfold ensure_step. apply returns_bind.
  exists h, h. split; [done|]. split; [apply grows_refl|].
  destruct seg as [k|i| |st sp]; try apply returns_ret.
  - destruct (as_dict h target) as [[a d]|] eqn:E; [|apply returns_ret].
    apply as_dict_Some in E as [_ Ha].
    destruct (_ci_get d k) as [[k' child]|]; [apply returns_ret|].
    by eapply new_child_in_dict.
  - destruct (as_list h target) as [[a xs]|] eqn:E; [|apply returns_ret].
    apply as_list_Some in E as [_ Ha]. simpl in Hs. apply Z.leb_le in Hs.
    by apply pad_then_get.
Qed.

Lemma navigate_step_returns container seg (is_last : bool) h :
  nonneg_index seg = true -> returns_growing (navigate_step container seg is_last) h.
Proof.
  intros Hs. unfold navigate_step. apply returns_bind.
  exists h, h. split; [done|]. split; [apply grows_refl|].
  destruct seg as [k|i| |st sp]; try apply returns_ret.
  - destruct (as_dict h container) as [[a d]|] eqn:E; [|apply returns_ret].
    apply as_dict_Some in E as [_ Ha].
    destruct (_ci_get d k) as [[k' child]|]; [apply returns_ret|].
    by eapply new_child_in_dict.
  - destruct (as_list h container) as [[a xs]|] eqn:E; [|apply returns_ret].
    apply as_list_Some in E as [_ Ha]. simpl in Hs. apply Z.leb_le in Hs.
    by apply pad_then_get.
Qed.

Lemma ensure_container_returns segs : forall target h,
  forallb nonneg_index segs = true ->
  returns_growing (_ensure_container target segs) h.
Proof.
  induction segs as [|seg rest IH]; intros target h Hs; [apply returns_ret|].
  destruct rest as [|next rest]; [apply returns_ret|].
  cbn [forallb] in Hs. apply andb_prop in Hs as [Hseg Hrest].
  change (_ensure_container target (seg :: next :: rest))
    with (let* target' := ensure_step target seg next in
          _ensure_container target' (next :: rest)).
  apply returns_bind.
  destruct (ensure_step_returns target seg next h Hseg) as (t' & h1 & E & G).
  exists t', h1. split; [done|]. split; [done|]. by apply IH.
Qed.

Lemma navigate_prefix_returns prefix : forall container h,
  forallb nonneg_index prefix = true ->
  returns_growing (navigate_prefix container prefix) h.
Proof.
  induction prefix as [|seg rest IH]; intros container h Hs; [apply returns_ret|].
  cbn [forallb] in Hs. apply andb_prop in Hs as [Hseg Hrest].
  cbn [navigate_prefix]. apply returns_bind.
  destruct (navigate_step_returns container seg
              (match rest with [] => true | _ => false end) h Hseg)
    as (t' & h1 & E & G).
  exists t', h1. split; [done|]. split; [done|]. by apply IH.
Qed.

Lemma set_last_returns target last value h :
  nonneg_index last = true -> returns_growing (set_last target last value) h.
Proof.
  intros Hs. unfold set_last. apply returns_bind.
  exists h, h. split; [done|]. split; [apply grows_refl|].
  destruct last as [k|i| |st sp]; try apply returns_ret.
  - destruct (as_dict h target) as [[a d]|] eqn:E; [|apply returns_ret].
    apply as_dict_Some in E as [_ Ha].
    eexists _, _. split; [by eapply dict_setitem_run|].
    by eapply grows_insert_dict.
  - destruct (as_list h target) as [[a xs]|] eqn:E; [|apply returns_ret].
    apply as_list_Some in E as [_ Ha]. simpl in Hs. apply Z.leb_le in Hs.
    set (n := Z.to_nat (i + 1 - Z.of_nat (length xs))).
    pose proof (append_nones_run n a h xs Ha) as Hrun.
    set (xs' := xs ++ replicate n VNone) in Hrun.
    assert (a < length h)%nat as Hlt by (by eapply lookup_lt_Some).
    assert (Z.to_nat i < length xs')%nat as Hlen.
    { unfold xs'. rewrite List.length_app, length_replicate. lia. }
    eexists _, _. split.
    + rewrite (bind_ok _ _ _ _ _ Hrun).
      eapply list_setitem_run; [by apply list_lookup_insert_eq|].
      by apply setitem_nonneg.
    + rewrite list_insert_insert_eq. eapply grows_insert_list; [done|].
      rewrite length_insert. unfold xs'. rewrite List.length_app. lia.
Qed.

Lemma forallb_last (p : segment -> bool) l d :
  forallb p l = true -> l <> [] -> p (List.last l d) = true.
Proof.
  induction l as [|x l IH]; [done|]. intros H _. cbn [forallb] in H.
  apply andb_prop in H as [Hx Hl]. destruct l as [|y l]; [done|].
  change (List.last (x :: y :: l) d) with (List.last (y :: l) d). by apply IH.
Qed.

Lemma set_in_result_returns target segs value h :
  forallb nonneg_index segs = true ->
  returns_growing (_set_in_result target segs value) h.
Proof.
  intros Hs. unfold _set_in_result. destruct segs as [|seg0 rest] eqn:E; [apply returns_ret|].
  rewrite <- E in *. apply returns_bind.
  destruct (ensure_container_returns segs target h Hs) as (t' & h1 & Hrun & G).
  exists t', h1. split; [done|]. split; [done|].
  apply set_last_returns. apply forallb_last; [done | by rewrite E].
Qed.

(** The round of the iteration loop for position [j] of a container that
    is long enough. *)
Lemma iterate_body_returns c suffix j item h ys :
  h !! c = Some (OList ys) -> 0 <= j -> (Z.to_nat j < length ys)%nat ->
  forallb nonneg_index suffix = true ->
  returns_growing (iterate_body c suffix (j, item)) h.
Proof.
  intros Hc Hj Hlen Hs. unfold iterate_body.
  assert (c < length h)%nat as Hlt by (by eapply lookup_lt_Some).
  destruct suffix as [|s suffix'] eqn:Es.
  { eexists _, _. split.
    - eapply list_setitem_run; [done | by apply setitem_nonneg].
    - eapply grows_insert_list; [done | by rewrite length_insert]. }
  rewrite <- Es in *. clear Es.
  apply returns_bind. exists h, h. split; [done|]. split; [apply grows_refl|].
  destruct (_get_value h item suffix) as [[|] value]; [|apply returns_ret].
  destruct (getitem_in_range ys j Hj Hlen) as [cj Hcj].
  apply returns_bind. exists cj, h.
  split; [by eapply list_getitem_run|]. split; [apply grows_refl|].
  apply returns_bind. exists h, h. split; [done|]. split; [apply grows_refl|].
  (* the entry at [j] is a dict, or is replaced by a new one *)
  assert (exists h1 ys1,
            (match as_dict h cj with
             | Some _ => ret tt
             | None => let* e := alloc (ODict []) in list_setitem c j e
             end) h = Ok (tt, h1) /\ grows h h1 /\
            h1 !! c = Some (OList ys1) /\ length ys1 = length ys)
    as (h1 & ys1 & Hrun1 & G1 & Hc1 & Hl1).
  { destruct (as_dict h cj) as [[? ?]|].
    - exists h, ys. split; [done|]. split; [apply grows_refl | done].
    - eexists _, _. split.
      + unfold bind, alloc. eapply list_setitem_run; [by apply lookup_app_l_Some|].
        by apply setitem_nonneg.
      + split; [|split].
        * eapply grows_trans; [apply (grows_app h [ODict []])|].
          eapply grows_insert_list; [by apply lookup_app_l_Some|].
          by rewrite length_insert.
        * apply list_lookup_insert_eq. rewrite List.length_app. lia.
        * by rewrite length_insert. }
  apply returns_bind. exists tt, h1. split; [done|]. split; [done|].
  destruct (getitem_in_range ys1 j Hj) as [cj' Hcj']; [lia|].
  apply returns_bind. exists cj', h1.
  split; [by eapply list_getitem_run|]. split; [apply grows_refl|].
  by apply set_in_result_returns.
Qed.

Lemma iterate_loop_returns c suffix pairs : forall h ys,
  h !! c = Some (OList ys) ->
  Forall (fun p => 0 <= fst p /\ (Z.to_nat (fst p) < length ys)%nat) pairs ->
  forallb nonneg_index suffix = true ->
  returns_growing (for_each (iterate_body c suffix) pairs) h.
Proof.
  induction pairs as [|[j item] pairs IH]; intros h ys Hc Hall Hs; [apply returns_ret|].
  apply Forall_cons in Hall as [[Hj Hlen] Hall]. cbn [fst] in Hj, Hlen.
  cbn [for_each]. apply returns_bind.
  destruct (iterate_body_returns c suffix j item h ys Hc Hj Hlen Hs)
    as ([] & h1 & Hrun & G).
  exists tt, h1. split; [done|]. split; [done|].
  destruct (grows_list _ _ _ _ G Hc) as (ys1 & Hc1 & Hl1).
  apply (IH h1 ys1); [done | | done].
  eapply Forall_impl; [exact Hall|]. intros p [? ?]. split; [done | lia].
Qed.

Lemma list_append_returns c x h : returns_growing (list_append c x) h.
Proof.
  unfold returns_growing, list_append. cbv beta.
  destruct (h !! c) as [[kvs|xs]|] eqn:E.
  - exists tt, h. split; [done | apply grows_refl].
  - eexists _, _. split; [done|]. eapply grows_insert_list; [done|].
    rewrite List.length_app. lia.
  - exists tt, h. split; [done | apply grows_refl].
Qed.

Lemma slice_body_returns c suffix p h :
  forallb nonneg_index suffix = true ->
  returns_growing (slice_body c suffix p) h.
Proof.
  intros Hs. destruct p as [j item]. unfold slice_body.
  destruct suffix as [|s suffix'] eqn:Es; [apply list_append_returns|].
  rewrite <- Es in *. clear Es.
  apply returns_bind. exists h, h. split; [done|]. split; [apply grows_refl|].
  destruct (_get_value h item suffix) as [[|] value]; [|apply returns_ret].
  apply returns_bind. exists (VRef (length h)), (h ++ [ODict []]).
  split; [done|]. split; [apply grows_app|].
  apply returns_bind.
  destruct (set_in_result_returns (VRef (length h)) suffix value (h ++ [ODict []]) Hs)
    as ([] & h1 & Hrun & G).
  exists tt, h1. split; [done|]. split; [done|]. apply list_append_returns.
Qed.

Lemma slice_loop_returns c suffix pairs : forall h,
  forallb nonneg_index suffix = true ->
  returns_growing (for_each (slice_body c suffix) pairs) h.
Proof.
  induction pairs as [|p pairs IH]; intros h Hs; [apply returns_ret|].
  cbn [for_each]. apply returns_bind.
  destruct (slice_body_returns c suffix p h Hs) as ([] & h1 & Hrun & G).
  exists tt, h1. split; [done|]. split; [done|]. by apply IH.
Qed.

Lemma no_collection_nonneg segs :
  first_index is_collection segs = None -> forallb nonneg_index segs = true.
Proof.
  induction segs as [|seg rest IH]; [done|]. cbn [first_index forallb].
  destruct (is_collection seg) eqn:E; [done|].
  destruct (first_index is_collection rest); [done|]. intros _.
  rewrite IH by done. rewrite andb_true_r.
  destruct seg as [k|i| |st sp]; try done. simpl in *.
  apply Z.leb_le. apply Z.ltb_ge in E. lia.
Qed.

Lemma prefix_nonneg segs : forall ci,
  first_index is_collection segs = Some ci ->
  forallb nonneg_index (take ci segs) = true.
Proof.
  induction segs as [|seg rest IH]; intros ci; [done|]. cbn [first_index].
  destruct (is_collection seg) eqn:E; [by intros [= <-]|].
  destruct (first_index is_collection rest) as [ci'|]; [|done].
  intros [= <-]. cbn [take forallb]. rewrite IH by done. rewrite andb_true_r.
  destruct seg as [k|i| |st sp]; try done. simpl in *.
  apply Z.leb_le. apply Z.ltb_ge in E. lia.
Qed.

Lemma enumerate_bounds (xs : list pyval) : forall (lo : nat) (n : nat),
  (lo + length xs <= n)%nat ->
  Forall (fun p => 0 <= fst p /\ (Z.to_nat (fst p) < n)%nat)
    (PyList.enumerate_from (Z.of_nat lo) xs).
Proof.
  induction xs as [|x xs IH]; intros lo n Hn; [constructor|].
  cbn [PyList.enumerate_from]. cbn [length] in Hn. constructor.
  - cbn [fst]. lia.
  - replace (Z.of_nat lo + 1) with (Z.of_nat (S lo)) by lia. apply IH. lia.
Qed.

(** One spec whose segments hold no negative index after the first
    collection segment. *)
Lemma apply_spec_returns data spec result h segs :
  Parser._parse_path_segments spec = Ok segs ->
  builder_safe segs = true ->
  returns_growing (_apply_spec data spec result) h.
Proof.
  intros P Hsafe. unfold _apply_spec. rewrite P.
  apply returns_bind. exists segs, h. split; [done|]. split; [apply grows_refl|].
  destruct segs as [|seg0 segs0] eqn:Esegs; [apply returns_ret|].
  rewrite <- Esegs in *. clear Esegs. unfold builder_safe in Hsafe.
  destruct (first_index is_collection segs) as [ci|] eqn:F.
  - pose proof (prefix_nonneg segs ci F) as Hpre.
    apply returns_bind. exists h, h. split; [done|]. split; [apply grows_refl|].
    destruct (_get_value h data (take ci segs)) as [[|] arr]; cbn [negb];
      [|apply returns_ret].
    destruct (as_list h arr) as [[arr_addr arr_items]|] eqn:Earr; [|apply returns_ret].
    apply as_list_Some in Earr as [_ Harr].
    destruct (_resolve_list_segment arr_items (nth ci segs Iterate)) as [|p pairs] eqn:Ep;
      [apply returns_ret|].
    rewrite <- Ep.
    apply returns_bind.
    destruct (navigate_prefix_returns (take ci segs) result h Hpre)
      as (container & h1 & Hnav & G1).
    exists container, h1. split; [done|]. split; [done|].
    apply returns_bind. exists h1, h1. split; [done|]. split; [apply grows_refl|].
    destruct (as_list h1 container) as [[c c_items]|] eqn:Ec; [|apply returns_ret].
    apply as_list_Some in Ec as [_ Hc].
    destruct (nth ci segs Iterate) as [k|i| |st sp] eqn:Ecoll;
      try (by apply slice_loop_returns).
    (* iteration: pad the container, then the aligned loop *)
    destruct (grows_list _ _ _ _ G1 Harr) as (arr1 & Harr1 & Hlarr).
    apply returns_bind. exists (Z.of_nat (length arr1)), h1.
    split; [unfold list_len; by rewrite Harr1|]. split; [apply grows_refl|].
    apply returns_bind. exists (Z.of_nat (length c_items)), h1.
    split; [unfold list_len; by rewrite Hc|]. split; [apply grows_refl|].
    set (n := Z.to_nat (Z.of_nat (length arr1) - Z.of_nat (length c_items))).
    pose proof (append_new_dicts_run n c h1 c_items Hc) as Hpad.
    set (ys := c_items ++ map VRef (seq (length h1) n)) in Hpad.
    set (h2 := <[c := OList ys]> (h1 ++ replicate n (ODict []))) in Hpad.
    assert (c < length h1)%nat as Hclt by (by eapply lookup_lt_Some).
    apply returns_bind. exists tt, h2. split; [done|]. split.
    { eapply grows_trans; [apply (grows_app h1 (replicate n (ODict [])))|].
      unfold h2. eapply grows_insert_list; [by apply lookup_app_l_Some|].
      unfold ys. rewrite List.length_app. lia. }
    apply (iterate_loop_returns c _ _ h2 ys).
    + unfold h2. apply list_lookup_insert_eq. rewrite List.length_app. lia.
    + cbn [_resolve_list_segment]. apply (enumerate_bounds arr_items 0).
      unfold ys. rewrite List.length_app, length_map, length_seq. lia.
    + done.
  - pose proof (no_collection_nonneg segs F) as Hall.
    apply returns_bind. exists h, h. split; [done|]. split; [apply grows_refl|].
    destruct (_get_value h data segs) as [[|] value]; [|apply returns_ret].
    by apply set_in_result_returns.
Qed.

Lemma apply_specs_returns data result specs : forall h,
  Forall (fun spec => exists segs,
            Parser._parse_path_segments spec = Ok segs /\ builder_safe segs = true) specs ->
  returns_growing (for_each (fun spec => _apply_spec data spec result) specs) h.
Proof.
  induction specs as [|spec specs IH]; intros h Hall; [apply returns_ret|].
  apply Forall_cons in Hall as [(segs & P & Hsafe) Hall].
  cbn [for_each]. apply returns_bind.
  destruct (apply_spec_returns data spec result h segs P Hsafe) as ([] & h1 & Hrun & G).
  exists tt, h1. split; [done|]. split; [done|]. by apply IH.
Qed.

End Growth.

(** X17. [filter_response] returns, and does not raise, whenever every
    cleaned spec parses and holds no negative index after its first
    collection segment, a collection segment being an iteration marker, a
    slice or a negative index: a spec may hold one negative index, provided
    no iteration marker, slice or other negative index comes before it. This
    covers every spec of keys, non-negative indices, the iteration marker and
    slices. What can raise is the parser, and the write at a negative
    position below a collection segment. The store the
    call leaves has only grown: no object is gone, a dict is still a dict, a
    list is still a list and is no shorter, even where the call writes into
    its input. *)
Theorem filter_response_returns
  (data : pyval) (field_specs : list string) (h : heap) :
  Forall (fun spec => exists segs,
            Parser._parse_path_segments spec = Ok segs /\ builder_safe segs = true)
    (clean_specs field_specs) ->
  returns_growing (filter_response data field_specs) h.
Proof.
  intros Hall. unfold filter_response.
  destruct field_specs as [|s0 rest] eqn:E; [apply returns_ret|].
  rewrite <- E in *. clear E.
  destruct (clean_specs field_specs) as [|c0 cleaned] eqn:Ec; [apply returns_ret|].
  rewrite <- Ec in *. clear Ec.
  destruct (existsb (String.eqb "*") (clean_specs field_specs)); [apply returns_ret|].
  apply returns_bind. exists h, h. split; [done|]. split; [apply grows_refl|].
  destruct (as_dict h data) as [[d kvs]|]; [|apply returns_ret].
  apply returns_bind. exists (VRef (length h)), (h ++ [ODict []]).
  split; [done|]. split; [apply grows_app|].
  apply returns_bind.
  destruct (apply_specs_returns data (VRef (length h)) (clean_specs field_specs)
              (h ++ [ODict []]) Hall) as ([] & h1 & Hrun & G).
  exists tt, h1. split; [done|]. split; [done|]. apply returns_ret.
Qed.

Lemma filter_response_returns_witness :
  returns_growing
    (filter_response (VRef 1) ["items"; "items[1:].id"; "items[].tags[0]"])
    [OList [VInt 7]; ODict [("items", VRef 0)]].
Proof.
  apply filter_response_returns.
  repeat constructor.
  - by exists [Key "items"].
  - by exists [Key "items"; Slice (Some 1) None; Key "id"].
  - by exists [Key "items"; Iterate; Key "tags"; Index 0].
Defined.

(** A negative position below a collection segment is found by extraction
    and cannot be written into the new list. *)
Example filter_response_raises_on_late_negative_index :
  builder_safe [Key "data"; Iterate; Key "tags"; Index (-1)] = false /\
  project (JObj [("data", JArr [JObj [("tags", JArr [JNum 1; JNum 2])]])])
    ["data[].tags[-1]"]
  = Raise IndexError.
Proof. split; reflexivity. Qed.

(** The first negative index is itself the collection segment: a second one
    after it is written into a new list and raises as well, while a single
    negative index is safe. *)
Example filter_response_raises_on_second_negative_index :
  builder_safe [Key "items"; Index (-1); Key "tags"; Index (-1)] = false /\
  project (JObj [("items", JArr [JObj [("tags", JArr [JNum 1; JNum 2])]])])
    ["items[-1].tags[-1]"]
  = Raise IndexError /\
  builder_safe [Key "items"; Index (-1); Key "tags"] = true /\
  project (JObj [("items", JArr [JObj [("tags", JArr [JNum 1; JNum 2])]])])
    ["items[-1].tags"]
  = Ok (Some (JObj [("items", JArr [JObj [("tags", JArr [JNum 1; JNum 2])]])])).
Proof. repeat split. Qed.

(** *** Selecting top-level fields *)

Section TopLevelKeys.
Implicit Types (h : heap) (d : nat) (kvs acc : list (string * pyval)).

Lemma apply_spec_key d kvs spec k h acc :
  h !! d = Some (ODict kvs) ->
  Parser._parse_path_segments spec = Ok [Key k] ->
  _apply_spec (VRef d) spec (VRef (length h)) (h ++ [ODict acc])
  = Ok (tt, h ++ [ODict match _ci_get kvs k with
                         | Some (_, v) => PyDict.setitem acc k v
                         | None => acc
                         end]).
Proof.
  intros Hd P. unfold _apply_spec. rewrite P. unfold bind at 1. unfold lift.
  cbn [first_index is_collection]. unfold bind at 1. unfold get_heap.
  cbn [_get_value as_dict]. rewrite (lookup_app_l_Some _ _ _ _ Hd).
  destruct (_ci_get kvs k) as [[k' v]|]; [|done].
  rewrite set_in_result_single. unfold set_last, bind, get_heap. cbn [as_dict].
  rewrite lookup_app_r by lia. rewrite Nat.sub_diag. cbn [lookup list_lookup].
  unfold dict_setitem. rewrite lookup_app_r by lia. rewrite Nat.sub_diag.
  cbn [lookup list_lookup]. rewrite insert_app_r_alt by lia.
  by rewrite Nat.sub_diag.
Qed.

Lemma apply_specs_keys d kvs h cleaned : forall ks acc,
  h !! d = Some (ODict kvs) ->
  Forall2 (fun spec k => Parser._parse_path_segments spec = Ok [Key k]) cleaned ks ->
  for_each (fun spec => _apply_spec (VRef d) spec (VRef (length h))) cleaned
    (h ++ [ODict acc])
  = Ok (tt, h ++ [ODict (foldl (fun acc k =>
                                  match _ci_get kvs k with
                                  | Some (_, v) => PyDict.setitem acc k v
                                  | None => acc
                                  end) acc ks)]).
Proof.
  induction cleaned as [|spec cleaned IH]; intros ks acc Hd Hall.
  - apply Forall2_nil_inv_l in Hall as ->. done.
  - apply Forall2_cons_inv_l in Hall as (k & ks' & P & Hall & ->).
    cbn [for_each foldl].
    rewrite (bind_ok _ _ _ _ _ (apply_spec_key d kvs spec k h acc Hd P)).
    by apply IH.
Qed.

End TopLevelKeys.

(** X18. The common case of a list of top-level field names. When every
    cleaned spec is a single key and none is the star, the projection of a
    dict is a new dict holding, for each name found in the source up to case,
    the source value under the name as the spec spells it, in the order of the
    specs; names that are not found are skipped and the source is left as it
    was. *)
Theorem filter_response_top_level_keys
  (h : heap) (d : nat) (kvs : list (string * pyval))
  (field_specs : list string) (ks : list string) :
  h !! d = Some (ODict kvs) ->
  Forall2 (fun spec k => Parser._parse_path_segments spec = Ok [Key k])
    (clean_specs field_specs) ks ->
  ks <> [] ->
  existsb (String.eqb "*") (clean_specs field_specs) = false ->
  filter_response (VRef d) field_specs h
  = Ok (VRef (length h), h ++ [ODict (pick_keys kvs ks)]).
Proof.
  intros Hd Hall Hne Hstar. unfold filter_response.
  destruct field_specs as [|s0 rest] eqn:E.
  { simpl in Hall. by apply Forall2_nil_inv_l in Hall. }
  rewrite <- E in *. clear E.
  destruct (clean_specs field_specs) as [|c0 cleaned] eqn:Ec.
  { by apply Forall2_nil_inv_l in Hall. }
  rewrite <- Ec in *. clear Ec. rewrite Hstar.
  unfold bind at 1. unfold get_heap. cbn [as_dict]. rewrite Hd.
  unfold bind at 1. unfold alloc. unfold bind at 1.
  by rewrite (apply_specs_keys d kvs h _ ks [] Hd Hall).
Qed.

Lemma filter_response_top_level_keys_witness :
  filter_response (VRef 0) ["id"; " Name "; "missing"]
    [ODict [("ID", VInt 1); ("name", VStr "x"); ("other", VInt 2)]]
  = Ok (VRef 1,
        [ODict [("ID", VInt 1); ("name", VStr "x"); ("other", VInt 2)];
         ODict [("id", VInt 1); ("Name", VStr "x")]]).
Proof.
  apply (filter_response_top_level_keys
           [ODict [("ID", VInt 1); ("name", VStr "x"); ("other", VInt 2)]] 0
           [("ID", VInt 1); ("name", VStr "x"); ("other", VInt 2)]
           ["id"; " Name "; "missing"] ["id"; "Name"; "missing"]);
    [reflexivity | repeat constructor | discriminate | reflexivity].
Defined.

(** *** The keys the parser produces *)

Section CleanKeys.
Import PyStr Parser.

Lemma nodot_cons c s : no_dot (String c s) <-> ascii_eqb c "." = false /\ no_dot s.
Proof. cbn [Render.contains_char]. apply orb_false_iff. Qed.

Lemma nodot_app a b : no_dot a -> no_dot b -> no_dot (a ++ b).
Proof.
  induction a as [|c a IH]; [done|]. cbn [String.append].
  rewrite !nodot_cons. intros [Hc Ha] Hb. split; [done | by apply IH].
Qed.

Lemma nodot_lstrip s : no_dot s -> no_dot (lstrip s).
Proof.
  induction s as [|c s IH]; [done|]. intros H. cbn [lstrip].
  destruct (is_space c); [|done]. apply IH. by apply nodot_cons in H as [_ ?].
Qed.

Lemma nodot_rstrip s : no_dot s -> no_dot (rstrip s).
Proof.
  induction s as [|c s IH]; [done|]. intros H. apply nodot_cons in H as [Hc Hs].
  rewrite rstrip_cons. specialize (IH Hs). destruct (rstrip s) as [|c' r].
  - destruct (is_space c); [done|]. by apply nodot_cons.
  - by apply nodot_cons.
Qed.

Lemma nodot_strip s : no_dot s -> no_dot (strip s).
Proof. intros H. unfold strip. by apply nodot_rstrip, nodot_lstrip. Qed.

Lemma nodot_split s : Forall (fun p => no_dot p) (split "." s).
Proof.
  induction s as [|c s IH]; [by repeat constructor|].
  rewrite split_cons. destruct (ascii_eqb c ".") eqn:Hc; [by constructor|].
  destruct (split "." s) as [|p ps]; [by repeat constructor; apply nodot_cons|].
  apply Forall_cons in IH as [Hp Hps]. constructor; [by apply nodot_cons | done].
Qed.

Lemma nodot_cut_at c s pre post :
  no_dot s -> cut_at c s = (pre, post) ->
  no_dot pre /\ match post with Some r => no_dot r | None => True end.
Proof.
  revert pre post. induction s as [|a s IH]; intros pre post H; cbn [cut_at].
  - by intros [= <- <-].
  - apply nodot_cons in H as [Ha Hs]. destruct (ascii_eqb a c).
    + by intros [= <- <-].
    + destruct (cut_at c s) as [pre' post'] eqn:E. intros [= <- <-].
      destruct (IH pre' post' Hs eq_refl) as [Hpre Hpost].
      split; [by apply nodot_cons | done].
Qed.

Lemma nodot_bracket_groups s : forall inside cur gs,
  no_dot s -> no_dot cur ->
  bracket_groups inside cur s = Some gs -> Forall (fun g => no_dot g) gs.
Proof.
  induction s as [|c s IH]; intros inside cur gs Hs Hcur; cbn [bracket_groups].
  - destruct inside; [done|]. intros [= <-]. apply List.Forall_nil.
  - apply nodot_cons in Hs as [Hc Hs]. destruct inside.
    + destruct (ascii_eqb c "]").
      * destruct (bracket_groups false EmptyString s) as [gs'|] eqn:E; [|done].
        intros [= <-]. constructor; [done|].
        by apply (IH false EmptyString gs' Hs).
      * apply IH; [done|]. apply nodot_app; [done|]. by apply nodot_cons.
    + destruct (ascii_eqb c "["); [|done]. by apply IH.
Qed.

Lemma classify_bracket_clean content seg :
  strip content = content -> no_dot content ->
  _classify_bracket content = Ok seg -> clean_key seg.
Proof.
  intros Hs Hn. unfold _classify_bracket.
  destruct content as [|c s] eqn:Ec; [by intros [= <-]|].
  rewrite <- Ec in *.
  destruct (_SLICE_RE content) as [[g1 g2]|].
  - destruct (int_or_none g1) as [st|]; [|done].
    destruct (int_or_none g2) as [sp|]; [|done]. simpl. by intros [= <-].
  - destruct (_INT_RE content).
    + destruct (py_int content) as [i|]; [|done]. simpl. by intros [= <-].
    + intros [= <-]. cbn [clean_key]. split; [by rewrite Ec | done].
Qed.

Lemma classify_all_clean brackets : forall segs,
  Forall (fun g => no_dot g) brackets ->
  classify_all brackets = Ok segs -> Forall clean_key segs.
Proof.
  induction brackets as [|b bs IH]; intros segs Hall; cbn [classify_all].
  - by intros [= <-].
  - apply Forall_cons in Hall as [Hb Hbs].
    destruct (_classify_bracket (strip b)) as [seg|] eqn:E1; [|done].
    destruct (classify_all bs) as [segs'|] eqn:E2; [|done].
    simpl. intros [= <-]. constructor; [|by apply IH].
    eapply classify_bracket_clean; [apply strip_idem | by apply nodot_strip | done].
Qed.

Lemma parse_part_clean part segs :
  no_dot part -> parse_part part = Ok segs -> Forall clean_key segs.
Proof.
  intros Hn. unfold parse_part.
  pose proof (nodot_strip part Hn) as Hns.
  destruct (strip part) as [|c s] eqn:Ep; [by intros [= <-]|].
  rewrite <- Ep in *.
  destruct (match_brackets (strip part)) as [[g1 brackets]|] eqn:Em.
  - unfold match_brackets in Em.
    destruct (cut_at "[" (strip part)) as [key_part [rest|]] eqn:Ecut; [|done].
    destruct (nodot_cut_at _ _ _ _ Hns Ecut) as [Hk Hrest].
    destruct (bracket_groups true EmptyString rest) as [[|g gs]|] eqn:Eg; try done.
    injection Em as <- <-.
    pose proof (nodot_bracket_groups rest true EmptyString _ Hrest eq_refl Eg) as Hgs.
    destruct (classify_all (g :: gs)) as [segs'|] eqn:Ec; [|done].
    simpl. intros [= <-].
    pose proof (classify_all_clean _ _ Hgs Ec) as Hsegs.
    destruct (strip key_part) as [|c' s'] eqn:Ek; [done|].
    rewrite <- Ek. constructor; [|done].
    cbn [clean_key]. split; [by rewrite Ek|]. split; [apply strip_idem|].
    by apply nodot_strip.
  - destruct (_INT_RE (strip part)).
    + destruct (py_int (strip part)) as [i|]; [|done]. simpl. intros [= <-].
      by repeat constructor.
    + intros [= <-]. constructor; [|constructor].
      cbn [clean_key]. split; [by rewrite Ep|]. split; [apply strip_idem | done].
Qed.

Lemma parse_parts_clean parts : forall segs,
  Forall (fun p => no_dot p) parts ->
  parse_parts parts = Ok segs -> Forall clean_key segs.
Proof.
  induction parts as [|p ps IH]; intros segs Hall; cbn [parse_parts].
  - by intros [= <-].
  - apply Forall_cons in Hall as [Hp Hps].
    destruct (parse_part p) as [a|] eqn:E1; [|done].
    destruct (parse_parts ps) as [b|] eqn:E2; [|done].
    simpl. intros [= <-]. apply Forall_app. split.
    + by eapply parse_part_clean.
    + by apply IH.
Qed.

End CleanKeys.

(** X19. The keys the parser produces are clean: no key segment is empty,
    none begins or ends with a blank, and none holds a dot. A key of a
    document that is empty, carries such blanks or holds a dot can therefore
    not be addressed by any path. *)
Theorem parsed_keys_are_clean (path : string) (segs : list segment) :
  Parser._parse_path_segments path = Ok segs -> Forall clean_key segs.
Proof.
  rewrite parse_unstripped. apply parse_parts_clean, nodot_split.
Qed.

Lemma parsed_keys_are_clean_witness :
  Forall clean_key [Key "headers"; Key "Content-Type"; Key "a b"; Index 2].
Proof.
  apply (parsed_keys_are_clean " headers[ Content-Type ] . a b .2 "). reflexivity.
Defined.
